(** * TS-tools: reaction_profile_generator/generator.py

    A shallow embedding of the transition-state guess pipeline and the
    properties of its bond analysis, bias potential, conformer clustering,
    force-constant scan and imaginary-frequency validation.

    Conventions.
    - Python floats are finite binary fractions, hence rationals: energies,
      potentials, force constants, RMSD values and frequencies are values of
      [Q], and float arithmetic is idealised as exact arithmetic.  The bias
      potential, which goes through a square root, is modelled over [R].
    - A Python exception is a value [Raise e] of the type [result].
    - The external programs (xtb, RDKit, autodE) are functions given as
      section variables; every call of xtb is recorded in the [World]. *)

From Stdlib Require Import ZArith QArith Qround Reals Psatz.
From Stdlib Require Import List Permutation Sorted Ascii.
From stdpp Require Import base strings gmap pretty.
Import ListNotations.

(* ================================================================== *)
(** * Part I: definitions *)
(* ================================================================== *)

(** ** Python values and exceptions *)

Inductive exn : Type :=
| ValueError
| IndexError
| TypeError
| UnboundLocalError
| FileNotFoundError.

Inductive result (A : Type) : Type :=
| Ok (a : A)
| Raise (e : exn).

Arguments Ok {A} a.
Arguments Raise {A} e.

Definition result_bind {A B} (r : result A) (k : A -> result B) : result B :=
  match r with
  | Ok a => k a
  | Raise e => Raise e
  end.

(** [x > y] on floats. *)
Definition Qgtb (x y : Q) : bool := negb (Qle_bool x y).

(** [x < y] on floats. *)
Definition Qltb (x y : Q) : bool := negb (Qle_bool y x).

(** [l[i]] for a non-negative index. *)
Definition getitem {A} (l : list A) (i : nat) : result A :=
  match nth_error l i with
  | Some x => Ok x
  | None => Raise IndexError
  end.

(** [l[-1]]. *)
Definition getlast {A} (l : list A) : result A :=
  match l with
  | [] => Raise IndexError
  | _ :: _ => getitem l (length l - 1)
  end.

(** [range(a, b)]. *)
Definition range (a b : nat) : list nat := seq a (b - a).

(** [round(x)] of a float: to the nearest integer, halves to the even one. *)
Definition py_round (x : Q) : Z :=
  let f := Qfloor x in
  match Qcompare (x - inject_Z f) (1 # 2) with
  | Lt => f
  | Gt => (f + 1)%Z
  | Eq => if Z.even f then f else (f + 1)%Z
  end.

(** [max(l)]: the running maximum is replaced only by a strictly larger
    item; an empty argument raises ValueError. *)
Fixpoint py_max_from (m : Q) (l : list Q) : Q :=
  match l with
  | [] => m
  | x :: t => if Qgtb x m then py_max_from x t else py_max_from m t
  end.

Definition py_max (l : list Q) : result Q :=
  match l with
  | [] => Raise ValueError
  | x :: t => Ok (py_max_from x t)
  end.

(** [l.index(x)]: the first position holding a value equal to [x]. *)
Fixpoint py_index (x : Q) (l : list Q) : result nat :=
  match l with
  | [] => Raise ValueError
  | y :: t =>
      if Qeq_bool y x then Ok 0%nat
      else result_bind (py_index x t) (fun i => Ok (S i))
  end.

(** [a - b] on one-dimensional arrays, with numpy's broadcasting of an
    operand of length one; other length mismatches raise ValueError. *)
Fixpoint zip_sub (a b : list Q) : list Q :=
  match a, b with
  | x :: a', y :: b' => (x - y)%Q :: zip_sub a' b'
  | _, _ => []
  end.

Definition np_sub (a b : list Q) : result (list Q) :=
  if (length a =? length b)%nat then Ok (zip_sub a b)
  else match a, b with
       | [x], _ => Ok (map (fun y => (x - y)%Q) b)
       | _, [y] => Ok (map (fun x => (x - y)%Q) a)
       | _, _ => Raise ValueError
       end.

(** [np.arange(start, stop, step)]: [ceil((stop - start) / step)] values
    [start + i * step]; a zero step raises. *)
Definition np_arange (start stop step : Q) : result (list Q) :=
  if Qeq_bool step 0 then Raise ValueError
  else
    let n := Z.to_nat (Qceiling ((stop - start) / step)) in
    Ok (map (fun i => (start + inject_Z (Z.of_nat i) * step)%Q) (seq 0 n)).

(** ** Bond-difference analysis: [get_bonds], [get_active_bonds] *)

(** The part of an RDKit molecule that [get_bonds] reads.  A bond knows its
    two atoms, so [mol.GetAtomWithIdx(bond.GetBeginAtomIdx())] is the bond's
    begin atom. *)
Record Atom : Type := { GetAtomMapNum : Z }.

Record Bond : Type := {
  GetBeginAtom : Atom;
  GetEndAtom : Atom;
  GetBondTypeAsDouble : Q
}.

Record Mol : Type := { GetBonds : list Bond }.

(** The f-string [f'{a}-{b}-{n}']. *)
Definition bond_string (a b n : Z) : string :=
  pretty a +:+ "-" +:+ pretty b +:+ "-" +:+ pretty n.

Definition bond_descriptor (bond : Bond) : string :=
  let atom_1 := GetAtomMapNum (GetBeginAtom bond) in
  let atom_2 := GetAtomMapNum (GetEndAtom bond) in
  let num_bonds := py_round (GetBondTypeAsDouble bond) in
  if (atom_1 <? atom_2)%Z then bond_string atom_1 atom_2 num_bonds
  else bond_string atom_2 atom_1 num_bonds.

Definition get_bonds (mol : Mol) : gset string :=
  fold_left (fun bonds bond => bonds ∪ {[ bond_descriptor bond ]})
            (GetBonds mol) ∅.

Definition get_active_bonds (reactant_mol product_mol : Mol)
  : gset string * gset string :=
  let reactant_bonds := get_bonds reactant_mol in
  let product_bonds := get_bonds product_mol in
  let formed_bonds := product_bonds ∖ reactant_bonds in
  let broken_bonds := reactant_bonds ∖ product_bonds in
  (formed_bonds, broken_bonds).

(** ** Bias potential: [angstrom_to_bohr], [determine_potential] *)

(** A row of a coordinate array: the Cartesian position of one atom. *)
Definition Point : Type := (R * R * R)%type.

(** Entry of [scipy.spatial.distance_matrix]: the Euclidean distance. *)
Definition euclidean (p q : Point) : R :=
  let '(x1, y1, z1) := p in
  let '(x2, y2, z2) := q in
  sqrt ((x1 - x2) * (x1 - x2) + (y1 - y2) * (y1 - y2)
        + (z1 - z2) * (z1 - z2))%R.

Definition distance_matrix (a b : list Point) : list (list R) :=
  map (fun p => map (euclidean p) b) a.

(** [m[i, j]]. *)
Definition matrix_get (m : list (list R)) (i j : nat) : result R :=
  result_bind (getitem m i) (fun row => getitem row j).

Definition angstrom_to_bohr (distance_angstrom : R) : R :=
  (distance_angstrom * (188973 / 100000))%R.

(** The inner loop of [determine_potential] over [constraints.items()];
    the dictionary is given by its items, in iteration order. *)
Fixpoint potential_of_step (dist_matrix : list (list R))
    (items : list ((nat * nat) * R)) (force_constant potential : R)
  : result R :=
  match items with
  | [] => Ok potential
  | (key, val) :: rest =>
      result_bind (matrix_get dist_matrix (fst key) (snd key)) (fun d =>
        let actual_distance := (d - val)%R in
        potential_of_step dist_matrix rest force_constant
          (potential
           + force_constant * (angstrom_to_bohr actual_distance) ^ 2)%R)
  end.

Fixpoint determine_potential (all_coords : list (list Point))
    (constraints : list ((nat * nat) * R)) (force_constant : R)
  : result (list R) :=
  match all_coords with
  | [] => Ok []
  | coords :: rest =>
      let dist_matrix := distance_matrix coords coords in
      result_bind (potential_of_step dist_matrix constraints force_constant 0%R)
        (fun potential =>
           result_bind (determine_potential rest constraints force_constant)
             (fun potentials => Ok (potential :: potentials)))
  end.

(** ** Conformer clustering: [count_unique_conformers] *)

Section Clustering.

(** [AllChem.GetBestRMS(molecules[i], molecules[j])]. *)
Variable GetBestRMS : nat -> nat -> Q.

(** A numpy matrix, read and written by index. *)
Definition Matrix : Type := nat -> nat -> Q.

Definition np_zeros : Matrix := fun _ _ => 0%Q.

Definition matrix_set (m : Matrix) (i j : nat) (v : Q) : Matrix :=
  fun i' j' => if ((i' =? i) && (j' =? j))%nat then v else m i' j'.

(** [combinations(range(n), 2)]: the pairs [(i, j)] with [i < j < n], in
    lexicographic order. *)
Definition combinations (n : nat) : list (nat * nat) :=
  flat_map (fun i => map (fun j => (i, j)) (range (S i) n)) (range 0 n).

Definition rmsd_matrix (n : nat) : Matrix :=
  fold_left (fun m ij =>
               let rmsd := GetBestRMS (fst ij) (snd ij) in
               matrix_set (matrix_set m (fst ij) (snd ij) rmsd)
                          (snd ij) (fst ij) rmsd)
            (combinations n) np_zeros.

(** [all(rmsd_matrix[i, j] < 0.5 for j in cluster)]. *)
Definition all_close (m : Matrix) (i : nat) (cluster : list nat) : bool :=
  forallb (fun j => Qltb (m i j) 0.5) cluster.

(** The inner loop [for cluster in clusters]: [Some] of the updated
    clusters when a cluster was found, [None] when the loop ran out. *)
Fixpoint find_cluster (m : Matrix) (i : nat) (clusters : list (list nat))
  : option (list (list nat)) :=
  match clusters with
  | [] => None
  | cluster :: rest =>
      if all_close m i cluster then Some ((cluster ++ [i]) :: rest)
      else option_map (cons cluster) (find_cluster m i rest)
  end.

Definition cluster_step (m : Matrix) (clusters : list (list nat)) (i : nat)
  : list (list nat) :=
  match find_cluster m i clusters with
  | Some clusters' => clusters'
  | None => clusters ++ [[i]]
  end.

(** The clusters after the outer loop has processed [range(k)]. *)
Definition clusters_after (m : Matrix) (k : nat) : list (list nat) :=
  fold_left (cluster_step m) (range 0 k) [].

(** [n] is the number of xyz files, [len(molecules)]. *)
Definition count_unique_conformers (n : nat) : list (list nat) :=
  clusters_after (rmsd_matrix n) n.

(** The end of [generate_additional_conformers]:
    [[conformer_xyz_files[cluster[0]] for cluster in clusters]]. *)
Fixpoint representatives {A} (conformer_xyz_files : list A)
    (clusters : list (list nat)) : result (list A) :=
  match clusters with
  | [] => Ok []
  | cluster :: rest =>
      result_bind (getitem cluster 0) (fun first =>
      result_bind (getitem conformer_xyz_files first) (fun file =>
      result_bind (representatives conformer_xyz_files rest) (fun files =>
      Ok (file :: files))))
  end.

(** [generate_additional_conformers], from the list of optimised files
    that its engine loop has produced. *)
Definition generate_additional_conformers {A} (conformer_xyz_files : list A)
  : result (list A) :=
  let clusters := count_unique_conformers (length conformer_xyz_files) in
  representatives conformer_xyz_files clusters.

End Clustering.

(** ** TS-guess index: [get_ts_guess_index] *)

Definition get_ts_guess_index (energies potentials : list Q) : result nat :=
  result_bind (np_sub energies potentials) (fun true_energy =>
  result_bind (py_max true_energy) (fun m =>
  py_index m true_energy)).

(** ** The world of files and engine runs *)

Section Pipeline.

(** A trajectory step's list of atom symbols and its coordinate array, and
    the path of a conformer's xyz file. *)
Variables Atoms Coords Conformer : Type.

(** What an xyz file holds: [write_xyz_file_from_atoms_and_coords] prints
    the atom symbols and the coordinates it is given. *)
Definition Geometry : Type := (Atoms * Coords)%type.

(** The file names the pipeline writes: [f'ts_guess_{force_constant}.xyz']
    and ['product_geometry_obtained.xyz']. *)
Inductive Filename : Type :=
| ts_guess_xyz (force_constant : Q)
| product_geometry_obtained_xyz.

Definition Filename_eqb (a b : Filename) : bool :=
  match a, b with
  | ts_guess_xyz x, ts_guess_xyz y =>
      ((Qnum x =? Qnum y)%Z && (Qden x =? Qden y)%positive)%bool
  | product_geometry_obtained_xyz, product_geometry_obtained_xyz => true
  | _, _ => false
  end.

(** The subprocess calls of xtb. *)
Inductive XtbCall : Type :=
| xtb_opt_biased (conformer : Conformer) (force_constant : Q)
| xtb_hess (geometry : Geometry) (charge : Z).

(** [xtb_calls] lists the calls in the order they were made; [files] has
    the latest write first. *)
Record World : Type := {
  xtb_calls : list XtbCall;
  files : list (Filename * Geometry)
}.

Definition record_call (c : XtbCall) (w : World) : World :=
  {| xtb_calls := xtb_calls w ++ [c]; files := files w |}.

Definition write_file (f : Filename) (g : Geometry) (w : World) : World :=
  {| xtb_calls := xtb_calls w; files := (f, g) :: files w |}.

Fixpoint lookup_file (fs : list (Filename * Geometry)) (f : Filename)
  : option Geometry :=
  match fs with
  | [] => None
  | (f', g) :: rest => if Filename_eqb f' f then Some g else lookup_file rest f
  end.

Definition read_file (w : World) (f : Filename) : option Geometry :=
  lookup_file (files w) f.

(** Statements: a state transformer that may raise; the world survives an
    exception. *)
Definition M (A : Type) : Type := World -> result A * World.

Definition ret {A} (a : A) : M A := fun w => (Ok a, w).

Definition raise {A} (e : exn) : M A := fun w => (Raise e, w).

Definition bind {A B} (c : M A) (k : A -> M B) : M B :=
  fun w =>
    match c w with
    | (Ok a, w') => k a w'
    | (Raise e, w') => (Raise e, w')
    end.

Definition lift {A} (r : result A) : M A := fun w => (r, w).

(** Reading a local variable that may not have been assigned yet. *)
Definition local {A} (v : option A) : M A :=
  match v with
  | Some a => ret a
  | None => raise UnboundLocalError
  end.

Notation "'let*' x ':=' c 'in' k" := (bind c (fun x => k))
  (at level 10, x name, c at level 100, k at level 200).

(** How the body of a [for] loop ends: at its end or by [continue], by
    [break], or by [return r].  [S] holds the local variables. *)
Inductive flow (S R : Type) : Type :=
| Continue (s : S)
| Break (s : S)
| Return (r : R).

Arguments Continue {S R} s.
Arguments Break {S R} s.
Arguments Return {S R} r.

(** How a [for] loop ends: control goes on below it, or the function has
    returned. *)
Inductive after (S R : Type) : Type :=
| Below (s : S)
| Returned (r : R).

Arguments Below {S R} s.
Arguments Returned {S R} r.

Fixpoint for_each {X S R} (xs : list X) (body : X -> S -> M (flow S R))
    (s : S) : M (after S R) :=
  match xs with
  | [] => ret (Below s)
  | x :: rest =>
      let* r := body x s in
      match r with
      | Continue s' => for_each rest body s'
      | Break s' => ret (Below s')
      | Return v => ret (Returned v)
      end
  end.

(** ** The external engine *)

(** One entry of the four parallel lists that
    [get_profile_for_biased_optimization] returns: the energy, the
    coordinates and the atoms that [read_energy_coords_file] appends for a
    step of the log, and the value [determine_potential] appends for its
    coordinates. *)
Record Step : Type := {
  step_energy : Q;
  step_coords : Coords;
  step_atoms : Atoms;
  step_potential : Q
}.

(** The steps logged by the biased optimisation of a conformer with a
    force constant (the formation constraints, the charge and the solvent
    are fixed during a call of [find_ts_guess]). *)
Variable biased_trajectory : Conformer -> Q -> list Step.

(** The negative entries of the first [Frequencies --] line of the report
    of [xtb --hess] on a geometry, as [read_negative_frequencies] returns
    them; [None] when the report has no such line. *)
Variable hess_negative_frequencies : Geometry -> Z -> option (list Q).

Definition write_xyz_file_from_atoms_and_coords (atoms : Atoms)
    (coords : Coords) (filename : Filename) : M Filename :=
  fun w => (Ok filename, write_file filename (atoms, coords) w).

Definition get_negative_frequencies (filename : Filename) (charge : Z)
  : M (option (list Q)) :=
  fun w =>
    match read_file w filename with
    | None => (Raise FileNotFoundError, w)
    | Some g =>
        (Ok (hess_negative_frequencies g charge),
         record_call (xtb_hess g charge) w)
    end.

(** [len(neg_freq)]; [len(None)] raises TypeError. *)
Definition len_neg_freq (neg_freq : option (list Q)) : M nat :=
  match neg_freq with
  | Some l => ret (length l)
  | None => raise TypeError
  end.

(** ** [get_final_ts_guess_geometry] *)

(** The body of the loop; the local variable is [neg_freq_init]. *)
Definition final_ts_guess_body (preliminary_ts_guess_index : nat)
    (atoms : list Atoms) (coords : list Coords) (force_constant : Q)
    (charge : Z) (index : nat) (neg_freq_init : option (option (list Q)))
  : M (flow (option (option (list Q))) Filename) :=
  let* a := lift (getitem atoms index) in
  let* c := lift (getitem coords index) in
  let* filename := write_xyz_file_from_atoms_and_coords a c
                (ts_guess_xyz force_constant) in
  let* neg_freq := get_negative_frequencies filename charge in
  let* n := len_neg_freq neg_freq in
  if (n =? 1)%nat then ret (Return filename)
  else
    let* a := lift (getitem atoms index) in
    let* c := lift (getitem coords index) in
    let* filename := write_xyz_file_from_atoms_and_coords a c
                  (ts_guess_xyz force_constant) in
    let* neg_freq := get_negative_frequencies filename charge in
    let neg_freq_init :=
      if (index =? preliminary_ts_guess_index)%nat then Some neg_freq
      else neg_freq_init in
    let* n := len_neg_freq neg_freq in
    if (n =? 1)%nat then ret (Return filename)
    else ret (Continue neg_freq_init).

Definition get_final_ts_guess_geometry (preliminary_ts_guess_index : nat)
    (atoms : list Atoms) (coords : list Coords) (force_constant : Q)
    (charge : Z) : M Filename :=
  let* r := for_each
         (range preliminary_ts_guess_index
                (Nat.min (preliminary_ts_guess_index + 6) (length atoms)))
         (final_ts_guess_body preliminary_ts_guess_index atoms coords
                              force_constant charge)
         None in
  match r with
  | Returned filename => ret filename
  | Below neg_freq_init =>
      let* _ := local neg_freq_init in
      let* a := lift (getitem atoms preliminary_ts_guess_index) in
      let* c := lift (getitem coords preliminary_ts_guess_index) in
      write_xyz_file_from_atoms_and_coords a c (ts_guess_xyz force_constant)
  end.

(** ** [get_profile_for_biased_optimization] *)

Record Profile : Type := {
  energies : list Q;
  coords : list Coords;
  atoms : list Atoms;
  potentials : list Q
}.

Definition xtb_optimize_with_applied_potentials (conformer : Conformer)
    (force_constant : Q) : M (list Step) :=
  fun w =>
    (Ok (biased_trajectory conformer force_constant),
     record_call (xtb_opt_biased conformer force_constant) w).

Definition get_profile_for_biased_optimization (conformer : Conformer)
    (force_constant : Q) : M Profile :=
  let* log := xtb_optimize_with_applied_potentials conformer force_constant in
  let energies := map step_energy log in
  let coords := map step_coords log in
  let atoms := map step_atoms log in
  let potentials := map step_potential log in
  let* a := lift (getlast atoms) in
  let* c := lift (getlast coords) in
  let* _ := write_xyz_file_from_atoms_and_coords a c
         product_geometry_obtained_xyz in
  ret {| energies := energies; coords := coords; atoms := atoms;
         potentials := potentials |}.

(** ** [find_ts_guess], from the loop over [conformers_to_do] on *)

(** The local variables the loops assign: the tuple
    [energies, coords, atoms, potentials], [force_constant] and
    [preliminary_ts_guess_index] ([None] is Python's [None]). *)
Record Locals : Type := {
  profile : option Profile;
  force_constant : option Q;
  preliminary_ts_guess_index : option nat
}.

Definition unbound : Locals :=
  {| profile := None; force_constant := None;
     preliminary_ts_guess_index := None |}.

(** The body of [for force_constant in np.arange(...)]. *)
Definition scan_body (conformer : Conformer) (fc : Q) (s : Locals)
  : M (flow Locals (option Filename)) :=
  let* p := get_profile_for_biased_optimization conformer fc in
  let s := {| profile := Some p; force_constant := Some fc;
              preliminary_ts_guess_index := preliminary_ts_guess_index s |} in
  let* last := lift (getlast (potentials p)) in
  if Qgtb last 0.01 then ret (Continue s)
  else
    let* i := lift (get_ts_guess_index (energies p) (potentials p)) in
    ret (Break {| profile := profile s; force_constant := force_constant s;
                  preliminary_ts_guess_index := Some i |}).

(** The body of [for conformer in conformers_to_do]. *)
Definition conformer_body (charge : Z) (fc_min fc_max fc_delta : Q)
    (conformer : Conformer) (s : Locals)
  : M (flow Locals (option Filename)) :=
  let s := {| profile := profile s; force_constant := force_constant s;
              preliminary_ts_guess_index := None |} in
  let* fcs := lift (np_arange fc_min fc_max fc_delta) in
  let* r := for_each fcs (scan_body conformer) s in
  match r with
  | Returned v => ret (Return v)
  | Below s =>
      match preliminary_ts_guess_index s with
      | Some i =>
          let* p := local (profile s) in
          let* fc := local (force_constant s) in
          let* xyz_file_final_ts_guess :=
            get_final_ts_guess_geometry i (atoms p) (coords p) fc charge in
          ret (Return (Some xyz_file_final_ts_guess))
      | None =>
          let* p := local (profile s) in
          let* _ := lift (getlast (potentials p)) in
          ret (Return None)
      end
  end.

(** [conformers_to_do] is the result of [generate_additional_conformers];
    the value [None] is the function's [return None], also taken when the
    loop over the conformers ends without a [return]. *)
Definition find_ts_guess (conformers_to_do : list Conformer) (charge : Z)
    (fc_min fc_max fc_delta : Q) : M (option Filename) :=
  let* r := for_each conformers_to_do
         (conformer_body charge fc_min fc_max fc_delta) unbound in
  match r with
  | Returned v => ret v
  | Below _ => ret None
  end.

End Pipeline.

Arguments xtb_opt_biased {Atoms Coords Conformer}.
Arguments xtb_hess {Atoms Coords Conformer}.
Arguments xtb_calls {Atoms Coords Conformer}.
Arguments files {Atoms Coords Conformer}.
Arguments read_file {Atoms Coords Conformer}.
Arguments ret {Atoms Coords Conformer A}.
Arguments bind {Atoms Coords Conformer A B}.
Arguments Continue {S R}.
Arguments Break {S R}.
Arguments Return {S R}.
Arguments Below {S R}.
Arguments Returned {S R}.
Arguments for_each {Atoms Coords Conformer X S R}.
Arguments step_energy {Atoms Coords}.
Arguments step_coords {Atoms Coords}.
Arguments step_atoms {Atoms Coords}.
Arguments step_potential {Atoms Coords}.
Arguments energies {Atoms Coords}.
Arguments coords {Atoms Coords}.
Arguments atoms {Atoms Coords}.
Arguments potentials {Atoms Coords}.
Arguments final_ts_guess_body {Atoms Coords Conformer}.
Arguments get_final_ts_guess_geometry {Atoms Coords Conformer}.
Arguments get_profile_for_biased_optimization {Atoms Coords Conformer}.
Arguments scan_body {Atoms Coords Conformer}.
Arguments conformer_body {Atoms Coords Conformer}.
Arguments find_ts_guess {Atoms Coords Conformer}.

(** ** Vocabulary of the properties *)

(** The bias-corrected energy of step [i]: [energies[i] - potentials[i]]. *)
Definition bias_corrected (energies potentials : list Q) (i : nat) : Q :=
  (nth i energies 0 - nth i potentials 0)%Q.

(** The distance between the atoms [i] and [j] of a geometry. *)
Definition distance (coords : list Point) (i j : nat) : R :=
  euclidean (nth i coords (0, 0, 0)%R) (nth j coords (0, 0, 0)%R).

(** The sum over the constraints of the squared deviations in bohr. *)
Definition squared_deviations (coords : list Point)
    (constraints : list ((nat * nat) * R)) : R :=
  fold_right
    (fun item s =>
       ((188973 / 100000
         * (distance coords (fst (fst item)) (snd (fst item)) - snd item)) ^ 2
        + s)%R)
    0%R constraints.

(** Every constrained pair names two atoms of the geometry. *)
Definition keys_in_range (coords : list Point)
    (constraints : list ((nat * nat) * R)) : Prop :=
  forall item, In item constraints ->
    (fst (fst item) < length coords)%nat
    /\ (snd (fst item) < length coords)%nat.

(** Every cluster of [clusters] holds a member at 0.5 or more from [i]. *)
Definition none_close (m : Matrix) (i : nat) (clusters : list (list nat))
  : Prop :=
  forall c, In c clusters -> exists j, In j c /\ (0.5 <= m i j)%Q.

(** The clusters hold each of the indices below [k] once, and each
    cluster is a non-empty ascending list. *)
Definition partitions (k : nat) (clusters : list (list nat)) : Prop :=
  Permutation (concat clusters) (seq 0 k)
  /\ Forall (fun c => c <> [] /\ StronglySorted lt c) clusters.

(** The first member of a cluster. *)
Definition first_member (cluster : list nat) (h : nat) : Prop :=
  exists t, cluster = h :: t.

Section ValidationTerms.

Variables Atoms Coords Conformer : Type.
Variable hess_negative_frequencies :
  Geometry Atoms Coords -> Z -> option (list Q).
Variables (atoms : list Atoms) (coords : list Coords).
Variables (force_constant : Q) (charge : Z).

Local Abbreviation World := (World Atoms Coords Conformer).
Local Abbreviation file := (ts_guess_xyz force_constant).

(** The geometry of step [j] of the trajectory. *)
Definition geometry_at (j : nat) : option (Geometry Atoms Coords) :=
  match nth_error atoms j, nth_error coords j with
  | Some a, Some c => Some (a, c)
  | _, _ => None
  end.

(** The frequency report of a geometry lists exactly one negative
    frequency. *)
Definition single_imaginary (g : Geometry Atoms Coords) : bool :=
  match hess_negative_frequencies g charge with
  | Some l => (length l =? 1)%nat
  | None => false
  end.

(** Writing a geometry to the guess file and running xtb on it. *)
Definition submit (g : Geometry Atoms Coords) (w : World) : World :=
  record_call Atoms Coords Conformer (xtb_hess g charge)
    (write_file Atoms Coords Conformer file g w).

(** The xtb calls of the loop over the candidates [js]. *)
Fixpoint hess_calls (js : list nat) : list (XtbCall Atoms Coords Conformer) :=
  match js with
  | [] => []
  | j :: rest =>
      match geometry_at j with
      | Some g =>
          if single_imaginary g then [xtb_hess g charge]
          else xtb_hess g charge :: xtb_hess g charge :: hess_calls rest
      | None => []
      end
  end.

End ValidationTerms.

Section ScanTerms.

Variables Atoms Coords Conformer : Type.
Variable biased_trajectory : Conformer -> Q -> list (Step Atoms Coords).

Local Abbreviation World := (World Atoms Coords Conformer).
Local Abbreviation M := (M Atoms Coords Conformer).

(** The biased optimisations among the xtb calls, in order. *)
Definition biased_runs (calls : list (XtbCall Atoms Coords Conformer))
  : list (Conformer * Q) :=
  flat_map (fun call => match call with
                        | xtb_opt_biased conformer fc => [(conformer, fc)]
                        | xtb_hess _ _ => []
                        end) calls.

(** The potential of the last step of a run. *)
Definition final_potential (conformer : Conformer) (fc : Q) : Q :=
  List.last (map step_potential (biased_trajectory conformer fc)) 0%Q.

(** The four lists of a run. *)
Definition profile_of (conformer : Conformer) (fc : Q)
  : Profile Atoms Coords :=
  let log := biased_trajectory conformer fc in
  {| energies := map step_energy log; coords := map step_coords log;
     atoms := map step_atoms log; potentials := map step_potential log |}.

(** Lifting the result of the validation to the result of
    [find_ts_guess]. *)
Definition returned_file (r : result Filename * World)
  : result (option Filename) * World :=
  match r with
  | (Ok f, w) => (Ok (Some f), w)
  | (Raise e, w) => (Raise e, w)
  end.

(** A statement that runs no biased optimisation, whatever its outcome. *)
Definition hess_only {A} (c : M A) : Prop :=
  forall w, biased_runs (xtb_calls (snd (c w))) = biased_runs (xtb_calls w).

End ScanTerms.

(** ** Concrete inputs *)

(** The molecules of the reaction [[C:1][O:2]>>[C:1].[O:2]]: a single bond
    between the atoms mapped 1 and 2 in the reactant, no bond in the
    product. *)
Definition scenario_A_reactant : Mol :=
  {| GetBonds := [ {| GetBeginAtom := {| GetAtomMapNum := 1 |};
                      GetEndAtom := {| GetAtomMapNum := 2 |};
                      GetBondTypeAsDouble := 1 |} ] |}.

Definition scenario_A_product : Mol := {| GetBonds := [] |}.

(** The pairwise values of scenario D. *)
Definition scenario_D_rmsd (i j : nat) : Q :=
  match i, j with
  | 0%nat, 1%nat => 0.3
  | 0%nat, 2%nat => 0.3
  | 1%nat, 2%nat => 0.7
  | _, _ => 0
  end.

(** A world without files and without xtb calls. *)
Definition no_calls : World nat nat nat := {| xtb_calls := []; files := [] |}.

(** Trajectories of seven steps with the energies 0, ..., 6; step [k] has
    the atoms [k] and the coordinates [k].  Every run of conformer 0 keeps
    the potential 1 and so never reaches the product; every run of another
    conformer has the potential 0. *)
Definition scenario_trajectory (conformer : nat) (fc : Q)
  : list (Step nat nat) :=
  map (fun k => {| step_energy := inject_Z (Z.of_nat k);
                   step_coords := k;
                   step_atoms := k;
                   step_potential := if (conformer =? 0)%nat then 1 else 0 |})
      (seq 0 7).

(** Frequency reports: one negative frequency for the geometry of step 6,
    none for the others. *)
Definition scenario_hess (g : Geometry nat nat) (charge : Z)
  : option (list Q) :=
  if (fst g =? 6)%nat then Some [-100]%Q else Some [].

(** ** Further functions of the module *)

(** *** [get_distance] *)

(** [a - b] and [np.sum] on one-dimensional arrays of reals; the
    subtraction broadcasts an operand of length one, as [np_sub]. *)
Fixpoint zip_sub_R (a b : list R) : list R :=
  match a, b with
  | x :: a', y :: b' => (x - y)%R :: zip_sub_R a' b'
  | _, _ => []
  end.

Definition np_sub_R (a b : list R) : result (list R) :=
  if (length a =? length b)%nat then Ok (zip_sub_R a b)
  else match a, b with
       | [x], _ => Ok (map (fun y => (x - y)%R) b)
       | _, [y] => Ok (map (fun x => (x - y)%R) a)
       | _, _ => Raise ValueError
       end.

Definition np_sum (a : list R) : R := fold_right Rplus 0%R a.

Definition get_distance (coord1 coord2 : list R) : result R :=
  result_bind (np_sub_R coord1 coord2) (fun d =>
  Ok (sqrt (np_sum (map (fun x => (x ^ 2)%R) d)))).

(** A constraint with the two atoms of its key exchanged. *)
Definition swap_key (item : (nat * nat) * R) : (nat * nat) * R :=
  ((snd (fst item), fst (fst item)), snd item).

Section FootprintTerms.

Variables Atoms Coords Conformer : Type.

(** A statement that leaves every file other than [file] as it was,
    whatever its outcome. *)
Definition writes_only (file : Filename) {A}
    (c : M Atoms Coords Conformer A) : Prop :=
  forall (w : World Atoms Coords Conformer) (f : Filename),
    Filename_eqb file f = false ->
    read_file (snd (c w)) f = read_file w f.

End FootprintTerms.

(** *** Constraint sets of [find_ts_guess] *)

(** [s.split(sep)] for a separator of one character. *)
Fixpoint split_on (sep : Ascii.ascii) (s : string) : list string :=
  match s with
  | EmptyString => [EmptyString]
  | String c rest =>
      if Ascii.eqb c sep then EmptyString :: split_on sep rest
      else match split_on sep rest with
           | piece :: pieces => String c piece :: pieces
           | [] => [String c EmptyString]
           end
  end.

(** [d = c.copy(); d.update((x, 2.0 * y) for x, y in d.items())]: every
    value is doubled. *)
Definition stretched (c : gmap (nat * nat) Q) : gmap (nat * nat) Q :=
  Qmult 2 <$> c.

(** The loop [for key, val in borrowed.items(): if key not in constraints:
    constraints[key] = val]. *)
Definition add_missing (constraints borrowed : gmap (nat * nat) Q)
  : gmap (nat * nat) Q :=
  map_fold (fun key val constraints =>
              if decide (is_Some (constraints !! key)) then constraints
              else <[key := val]> constraints)
           constraints borrowed.

(** The dictionary [constraints] that [find_ts_guess] builds for the
    reactant geometry. *)
Definition reactant_constraints (reactant_smiles : string)
    (formation_constraints breaking_constraints : gmap (nat * nat) Q)
  : gmap (nat * nat) Q :=
  let formation_constraints_stretched := stretched formation_constraints in
  let constraints := breaking_constraints in
  if negb (length (split_on "."%char reactant_smiles) =? 1)%nat
  then add_missing constraints formation_constraints_stretched
  else constraints.

(** The dictionary [product_constraints] of [find_ts_guess]. *)
Definition product_constraints (product_smiles : string)
    (formation_constraints breaking_constraints : gmap (nat * nat) Q)
  : gmap (nat * nat) Q :=
  let breaking_constraints_stretched := stretched breaking_constraints in
  let product_constraints := formation_constraints in
  if negb (length (split_on "."%char product_smiles) =? 1)%nat
  then add_missing product_constraints breaking_constraints_stretched
  else product_constraints.

(** The character [c] occurs in [s]. *)
Fixpoint occurs (c : Ascii.ascii) (s : string) : bool :=
  match s with
  | EmptyString => false
  | String c' rest => Ascii.eqb c' c || occurs c rest
  end.

(** *** [find_cis_trans_elements], [assign_cis_trans_from_geometry] *)

(** Outcomes of the functions that can also raise KeyError. *)
Inductive outcome (A : Type) : Type :=
| Returns (a : A)
| Raises (e : exn)
| RaisesKeyError.

Arguments Returns {A} a.
Arguments Raises {A} e.
Arguments RaisesKeyError {A}.

Inductive BondType : Type :=
| SINGLE
| DOUBLE
| TRIPLE
| AROMATIC
| OTHER_BOND_TYPE.

Inductive BondStereo : Type :=
| STEREONONE
| STEREOANY
| STEREOZ
| STEREOE
| STEREOCIS
| STEREOTRANS.

#[global] Instance BondType_eq_dec : EqDecision BondType.
Proof. solve_decision. Defined.

#[global] Instance BondStereo_eq_dec : EqDecision BondStereo.
Proof. solve_decision. Defined.

(** What the two functions read of a bond and of a molecule: the indices
    of a bond's atoms, its type and its stereo flag; the indices of the
    neighbours of an atom, in the order of [GetNeighbors], and the map
    number of an atom. *)
Record StereoBond : Type := {
  GetBeginAtomIdx : nat;
  GetEndAtomIdx : nat;
  GetBondType : BondType;
  GetStereo : BondStereo
}.

Record StereoMol : Type := {
  GetStereoBonds : list StereoBond;
  GetNeighbors : nat -> list nat;
  GetMapNumOfIdx : nat -> Z
}.

Definition find_cis_trans_elements (mol : StereoMol)
  : list (nat * nat * BondStereo) :=
  flat_map
    (fun bond =>
       if bool_decide (GetBondType bond = DOUBLE) then
         let stereo := GetStereo bond in
         if bool_decide (stereo = STEREOZ) || bool_decide (stereo = STEREOE)
         then [(GetBeginAtomIdx bond, GetEndAtomIdx bond, stereo)]
         else []
       else [])
    (GetStereoBonds mol).

(** [[atom.GetIdx() for atom in neighbors if atom.GetAtomMapNum() in
    involved_atoms][0]]; [None] is the IndexError that the loop catches. *)
Definition reference_neighbor (mol : StereoMol) (involved_atoms : list Z)
    (idx : nat) : option nat :=
  find (fun n => bool_decide (GetMapNumOfIdx mol n ∈ involved_atoms))
       (GetNeighbors mol idx).

(** A call [SetDihedralDeg(conf, i, j, k, l, angle)]. *)
Record Dihedral : Type := {
  atomi_idx : nat;
  atomj_idx : nat;
  atomk_idx : nat;
  atoml_idx : nat;
  angle : Z
}.

(** The loop over the bonds of [mol]; [calls] are the dihedral angles set
    so far, the latest last. *)
Fixpoint assign_cis_trans_loop (mol : StereoMol)
    (cis_trans_elements : list (nat * nat * BondStereo))
    (involved_atoms : list Z) (bonds : list StereoBond)
    (calls : list Dihedral) : outcome (list Dihedral) :=
  match bonds with
  | [] => Returns calls
  | bond :: rest =>
      if bool_decide (GetBondType bond = DOUBLE) then
        let j := GetBeginAtomIdx bond in
        let k := GetEndAtomIdx bond in
        match reference_neighbor mol involved_atoms j,
              reference_neighbor mol involved_atoms k with
        | Some i, Some l =>
            if bool_decide ((j, k, STEREOZ) ∈ cis_trans_elements) then
              assign_cis_trans_loop mol cis_trans_elements involved_atoms rest
                (calls ++ [{| atomi_idx := i; atomj_idx := j; atomk_idx := k;
                              atoml_idx := l; angle := 0 |}])
            else if bool_decide ((j, k, STEREOE) ∈ cis_trans_elements) then
              assign_cis_trans_loop mol cis_trans_elements involved_atoms rest
                (calls ++ [{| atomi_idx := i; atomj_idx := j; atomk_idx := k;
                              atoml_idx := l; angle := 180 |}])
            else RaisesKeyError
        | _, _ =>
            assign_cis_trans_loop mol cis_trans_elements involved_atoms rest
                                  calls
        end
      else
        assign_cis_trans_loop mol cis_trans_elements involved_atoms rest calls
  end.

(** [mol_with_stereo] is the molecule parsed from [smiles_with_stereo] and
    [involved_atoms] the result of [extract_atom_map_numbers] on it; the
    result lists the dihedral angles set on the conformer of [mol]. *)
Definition assign_cis_trans_from_geometry (mol mol_with_stereo : StereoMol)
    (involved_atoms : list Z) : outcome (list Dihedral) :=
  let cis_trans_elements := find_cis_trans_elements mol_with_stereo in
  assign_cis_trans_loop mol cis_trans_elements involved_atoms
                        (GetStereoBonds mol) [].

(** A double bond of [mol] both of whose atoms have a neighbour with a map
    number among [involved_atoms]. *)
Definition has_references (mol : StereoMol) (involved_atoms : list Z)
    (bond : StereoBond) : Prop :=
  GetBondType bond = DOUBLE
  /\ reference_neighbor mol involved_atoms (GetBeginAtomIdx bond) <> None
  /\ reference_neighbor mol involved_atoms (GetEndAtomIdx bond) <> None.

(** [mol_with_stereo] has a double bond from [j] to [k], in this
    direction, with the stereo flag [stereo]. *)
Definition marked (mol_with_stereo : StereoMol) (j k : nat)
    (stereo : BondStereo) : Prop :=
  exists bond, In bond (GetStereoBonds mol_with_stereo)
               /\ GetBondType bond = DOUBLE
               /\ GetBeginAtomIdx bond = j /\ GetEndAtomIdx bond = k
               /\ GetStereo bond = stereo.

(** The dihedral angle that the loop sets for a double bond of [mol]. *)
Definition sets (mol : StereoMol)
    (cis_trans_elements : list (nat * nat * BondStereo))
    (involved_atoms : list Z) (bond : StereoBond) (d : Dihedral) : Prop :=
  GetBondType bond = DOUBLE
  /\ atomj_idx d = GetBeginAtomIdx bond
  /\ atomk_idx d = GetEndAtomIdx bond
  /\ reference_neighbor mol involved_atoms (atomj_idx d) = Some (atomi_idx d)
  /\ reference_neighbor mol involved_atoms (atomk_idx d) = Some (atoml_idx d)
  /\ ((angle d = 0%Z
       /\ (atomj_idx d, atomk_idx d, STEREOZ) ∈ cis_trans_elements)
      \/ (angle d = 180%Z
          /\ (atomj_idx d, atomk_idx d, STEREOE) ∈ cis_trans_elements
          /\ (atomj_idx d, atomk_idx d, STEREOZ) ∉ cis_trans_elements)).

(** A chain of four atoms 0 - 1 = 2 - 3 with the map numbers 1 to 4: as
    embedded from a geometry, without stereo flags, and as parsed from a
    SMILES string that marks the double bond as Z. *)
Definition chain_neighbors (idx : nat) : list nat :=
  match idx with
  | 0 => [1]
  | 1 => [0; 2]
  | 2 => [1; 3]
  | 3 => [2]
  | _ => []
  end%nat.

Definition chain_bonds (stereo : BondStereo) : list StereoBond :=
  [ {| GetBeginAtomIdx := 0; GetEndAtomIdx := 1;
       GetBondType := SINGLE; GetStereo := STEREONONE |};
    {| GetBeginAtomIdx := 1; GetEndAtomIdx := 2;
       GetBondType := DOUBLE; GetStereo := stereo |};
    {| GetBeginAtomIdx := 2; GetEndAtomIdx := 3;
       GetBondType := SINGLE; GetStereo := STEREONONE |} ].

Definition chain_embedded : StereoMol :=
  {| GetStereoBonds := chain_bonds STEREONONE;
     GetNeighbors := chain_neighbors;
     GetMapNumOfIdx := fun idx => Z.of_nat (S idx) |}.

Definition chain_with_stereo : StereoMol :=
  {| GetStereoBonds := chain_bonds STEREOZ;
     GetNeighbors := chain_neighbors;
     GetMapNumOfIdx := fun idx => Z.of_nat (S idx) |}.

(** *** [read_energy_coords_file] *)

(** A line of the file is given by its tokens, the result of [split()].
    The stripped line starts with "energy:" exactly when its first token
    does.  Floats are kept abstract; [float] is Python's conversion of a
    token, [None] standing for its ValueError.  An array is the list of
    its rows. *)
Definition Line : Type := list string.

Definition startswith_energy (line : Line) : bool :=
  match line with
  | token :: _ => String.prefix "energy:" token
  | [] => false
  end.

Section EnergyCoordsFile.

Variable Float : Type.
Variable float : string -> option Float.

(** [list(map(float, tokens))] *)
Fixpoint floats (tokens : list string) : result (list Float) :=
  match tokens with
  | [] => Ok []
  | token :: tokens' =>
      match float token with
      | None => Raise ValueError
      | Some x =>
          match floats tokens' with
          | Ok xs => Ok (x :: xs)
          | Raise e => Raise e
          end
      end
  end.

(** The f-string of the [else] branch reads [energy_line], which is a
    local variable that only an earlier iteration can have bound. *)
Definition unexpected_line {A : Type} (energy_line : option Line)
  : result A :=
  match energy_line with
  | None => Raise UnboundLocalError
  | Some _ => Raise ValueError
  end.

(** The [while] loop over the lines from index [i] on; [lines] are the
    lines from [i] on.  The inner loop is the local fixpoint. *)
Fixpoint read_lines (lines : list Line) (energy_line : option Line)
    (all_energies : list Float) (all_coords : list (list (list Float)))
    (all_atoms : list (list string)) {struct lines}
  : result (list Float * list (list (list Float)) * list (list string)) :=
  match lines with
  | [] => Ok (all_energies, all_coords, all_atoms)
  | line :: rest =>
      if (length line =? 1)%nat then
        match rest with
        | [] => Raise IndexError
        | next :: rest' =>
            if startswith_energy next then
              match next with
              | _ :: value :: _ =>
                  match float value with
                  | None => Raise ValueError
                  | Some energy_value =>
                      (fix geometry (ls : list Line) (coords : list (list Float))
                           (atoms : list string) {struct ls} :=
                         match ls with
                         | [] =>
                             Ok (all_energies ++ [energy_value],
                                 all_coords ++ [coords],
                                 all_atoms ++ [atoms])
                         | l :: ls' =>
                             if negb (length l =? 1)%nat then
                               match l with
                               | [] => Raise IndexError
                               | symbol :: numbers =>
                                   match floats numbers with
                                   | Raise e => Raise e
                                   | Ok row =>
                                       geometry ls' (coords ++ [row])
                                                (atoms ++ [symbol])
                                   end
                               end
                             else
                               read_lines ls (Some next)
                                          (all_energies ++ [energy_value])
                                          (all_coords ++ [coords])
                                          (all_atoms ++ [atoms])
                         end) rest' [] []
                  end
              | _ => Raise IndexError
              end
            else unexpected_line energy_line
        end
      else unexpected_line energy_line
  end.

Definition read_energy_coords_file (lines : list Line)
  : result (list Float * list (list (list Float)) * list (list string)) :=
  read_lines lines None [] [] [].

(** The inner loop on its own: the rows and symbols read, and the lines
    left for the next geometry. *)
Fixpoint read_geometry (ls : list Line) (coords : list (list Float))
    (atoms : list string)
  : result (list (list Float) * list string * list Line) :=
  match ls with
  | [] => Ok (coords, atoms, [])
  | l :: ls' =>
      if negb (length l =? 1)%nat then
        match l with
        | [] => Raise IndexError
        | symbol :: numbers =>
            match floats numbers with
            | Raise e => Raise e
            | Ok row => read_geometry ls' (coords ++ [row]) (atoms ++ [symbol])
            end
        end
      else Ok (coords, atoms, ls)
  end.

(** The lines of one geometry of a log: a line of one token, the energy
    line, and one line for every atom, which gives the symbol of the atom
    and at least one number. *)
Record Block : Type := {
  block_energy : Float;
  block_atoms : list (string * list Float)
}.

Inductive atom_line : Line -> string * list Float -> Prop :=
| atom_line_intro symbol numbers row :
    numbers <> [] ->
    floats numbers = Ok row ->
    atom_line (symbol :: numbers) (symbol, row).

Inductive block_lines : list Line -> Block -> Prop :=
| block_lines_intro count tag value more lines block :
    String.prefix "energy:" tag = true ->
    float value = Some (block_energy block) ->
    Forall2 atom_line lines (block_atoms block) ->
    block_lines ([count] :: (tag :: value :: more) :: lines) block.

End EnergyCoordsFile.

Arguments floats {Float} float tokens.
Arguments read_lines {Float} float lines energy_line all_energies all_coords
  all_atoms.
Arguments read_energy_coords_file {Float} float lines.
Arguments read_geometry {Float} float ls coords atoms.
Arguments block_energy {Float} b.
Arguments block_atoms {Float} b.
Arguments atom_line {Float} float _ _.
Arguments block_lines {Float} float _ _.

(** A log of two geometries of a molecule of two atoms, and the reading of
    its numbers. *)
Definition log_float (token : string) : option Q :=
  if String.eqb token "-5.07" then Some (- (507 # 100))%Q
  else if String.eqb token "-5.05" then Some (- (505 # 100))%Q
  else if String.eqb token "0.0" then Some 0%Q
  else if String.eqb token "0.74" then Some (74 # 100)%Q
  else if String.eqb token "0.9" then Some (9 # 10)%Q
  else None.

Definition log_lines : list Line :=
  [ ["2"]; ["energy:"; "-5.07"; "xtb:"; "6.5.1"];
    ["H"; "0.0"; "0.0"; "0.0"]; ["H"; "0.0"; "0.0"; "0.74"];
    ["2"]; ["energy:"; "-5.05"; "xtb:"; "6.5.1"];
    ["H"; "0.0"; "0.0"; "0.0"]; ["H"; "0.0"; "0.0"; "0.9"] ].

Definition log_blocks : list (Block Q) :=
  [ {| block_energy := - (507 # 100);
       block_atoms := [("H", [0; 0; 0]); ("H", [0; 0; 74 # 100])] |};
    {| block_energy := - (505 # 100);
       block_atoms := [("H", [0; 0; 0]); ("H", [0; 0; 9 # 10])] |} ]%Q.

(** *** [optimize_molecule_with_extra_constraints] *)

(** An entry of [Chem.FindMolChiralCenters]: the index of an atom and its
    label. *)
Definition Centre : Type := (nat * string)%type.

(** What [conformer_{name}_init.xyz] holds in the end: the atoms of a
    conformer as [write_xyz_file_from_ade_atoms] wrote them, or the
    embedded molecule of these atoms after the dihedral angles were set,
    as [write_xyz_file_from_mol] wrote it. *)
Inductive InitGeometry (Atoms : Type) : Type :=
| simanl_geometry (atoms : Atoms)
| assigned_geometry (atoms : Atoms) (dihedrals : list Dihedral).

Arguments simanl_geometry {Atoms} atoms.
Arguments assigned_geometry {Atoms} atoms dihedrals.

Section Optimize.

Variable Atoms : Type.

(** [conf_gen.get_simanl_atoms] for the molecule and its constraints, as a
    function of [conf_n]; [get_stereochemistry_from_xyz] for the SMILES
    string, as a function of the atoms written to the file it reads. *)
Variable get_simanl_atoms : nat -> Atoms.
Variable get_stereochemistry_from_xyz : Atoms -> StereoMol * list Centre.

(** The molecule parsed from the SMILES string and the map numbers that
    [extract_atom_map_numbers] finds in it. *)
Variable mol_with_stereo : StereoMol.
Variable involved_atoms : list Z.

(** [for n in range(100)], from the turn [n] on, with [further] turns
    after it; the result is the last [n] with the values of [atoms] and
    [embedded_mol] after the loop. *)
Fixpoint stereo_loop (stereochemistry_smiles_reactants : list Centre)
    (n further : nat) : nat * Atoms * StereoMol :=
  let atoms := get_simanl_atoms n in
  let '(embedded_mol, stereochemistry_xyz_reactants) :=
    get_stereochemistry_from_xyz atoms in
  if bool_decide (stereochemistry_smiles_reactants
                  = stereochemistry_xyz_reactants)
  then (n, atoms, embedded_mol)
  else
    match further with
    | O => (n, atoms, embedded_mol)
    | S further' =>
        stereo_loop stereochemistry_smiles_reactants (S n) further'
    end.

(** The result gives the last [conf_n] and what the geometry file holds. *)
Definition optimize_molecule_with_extra_constraints
    (stereochemistry_smiles_reactants : list Centre)
  : outcome (nat * InitGeometry Atoms) :=
  let '(n, atoms, embedded_mol) :=
    stereo_loop stereochemistry_smiles_reactants 0 99 in
  if negb (length stereochemistry_smiles_reactants =? 0)%nat then
    match assign_cis_trans_from_geometry embedded_mol mol_with_stereo
                                         involved_atoms with
    | Returns dihedrals => Returns (n, assigned_geometry atoms dihedrals)
    | Raises e => Raises e
    | RaisesKeyError => RaisesKeyError
    end
  else Returns (n, simanl_geometry atoms).

(** The stereo centres found in the geometry of the conformer [n]. *)
Definition stereochemistry_xyz (n : nat) : list Centre :=
  snd (get_stereochemistry_from_xyz (get_simanl_atoms n)).

End Optimize.

Arguments stereo_loop {Atoms} get_simanl_atoms get_stereochemistry_from_xyz
  stereochemistry_smiles_reactants n further.
Arguments optimize_molecule_with_extra_constraints {Atoms} get_simanl_atoms
  get_stereochemistry_from_xyz mol_with_stereo involved_atoms
  stereochemistry_smiles_reactants.
Arguments stereochemistry_xyz {Atoms} get_simanl_atoms
  get_stereochemistry_from_xyz n.

(** Conformers named by their number; the third one has the centre of the
    SMILES string. *)
Definition third_conformer_matches (atoms : nat) : StereoMol * list Centre :=
  (chain_embedded, if (atoms =? 2)%nat then [(1%nat, "R")] else [(1%nat, "S")]).

(** *** [get_optimal_distances] *)

Section OptimalDistances.

(** Python's [int] on a string, [None] standing for its ValueError, and
    the bond length that the optimisation of a fragment gives in a turn
    of the loop: the turn, the fragment and the indices of the two atoms
    in it.  A fragment is given by the map numbers of its atoms, in the
    order of their indices. *)
Variable int : string -> option Z.
Variable current_bond_length : nat -> list Z -> nat -> nat -> Q.

(** [i, j, _ = map(int, bond.split('-'))] *)
Definition parse_bond (bond : string) : result (Z * Z) :=
  match split_on "-"%char bond with
  | [a; b; c] =>
      match int a with
      | None => Raise ValueError
      | Some i =>
          match int b with
          | None => Raise ValueError
          | Some j =>
              match int c with
              | None => Raise ValueError
              | Some _ => Ok (i, j)
              end
          end
      end
  | _ => Raise ValueError
  end.

(** The loops that fill [owning_mol_dict], from the fragment [idx] on. *)
Fixpoint owning_mol_loop (idx : nat) (mols : list (list Z))
    (owning_mol_dict : gmap Z nat) : gmap Z nat :=
  match mols with
  | [] => owning_mol_dict
  | mol :: mols' =>
      owning_mol_loop (S idx) mols'
        (fold_left (fun d map_num => <[map_num := idx]> d) mol
                   owning_mol_dict)
  end.

Definition owning_mol_dict (mols : list (list Z)) : gmap Z nat :=
  owning_mol_loop 0 mols ∅.

(** [{atom.GetAtomMapNum(): atom.GetIdx() for atom in mol.GetAtoms()}] *)
Fixpoint mol_dict_loop (idx : nat) (mol : list Z) (d : gmap Z nat)
  : gmap Z nat :=
  match mol with
  | [] => d
  | map_num :: mol' => mol_dict_loop (S idx) mol' (<[map_num := idx]> d)
  end.

Definition mol_dict (mol : list Z) : gmap Z nat := mol_dict_loop 0 mol ∅.

(** The body of the loop over the bonds. *)
Definition optimal_distance_body (mols : list (list Z))
    (mapnum_dict owning_mol_dict : gmap Z nat) (turn : nat) (bond : string)
    (optimal_distances : gmap (nat * nat) Q)
  : outcome (gmap (nat * nat) Q) :=
  match parse_bond bond with
  | Raise e => Raises e
  | Ok (i, j) =>
      match mapnum_dict !! i, mapnum_dict !! j with
      | Some idx1, Some idx2 =>
          match owning_mol_dict !! i, owning_mol_dict !! j with
          | Some owner_i, Some owner_j =>
              if (owner_i =? owner_j)%nat then
                match mols !! owner_i with
                | None => Raises IndexError
                | Some mol =>
                    match mol_dict mol !! i, mol_dict mol !! j with
                    | Some a, Some b =>
                        Returns (<[(idx1, idx2) :=
                                     current_bond_length turn mol a b]>
                                   optimal_distances)
                    | _, _ => RaisesKeyError
                    end
                end
              else RaisesKeyError
          | _, _ => RaisesKeyError
          end
      | _, _ => RaisesKeyError
      end
  end.

Fixpoint optimal_distances_loop (mols : list (list Z))
    (mapnum_dict owning_mol_dict : gmap Z nat) (turn : nat)
    (bonds : list string) (optimal_distances : gmap (nat * nat) Q)
  : outcome (gmap (nat * nat) Q) :=
  match bonds with
  | [] => Returns optimal_distances
  | bond :: bonds' =>
      match optimal_distance_body mols mapnum_dict owning_mol_dict turn bond
                                  optimal_distances with
      | Returns optimal_distances' =>
          optimal_distances_loop mols mapnum_dict owning_mol_dict (S turn)
                                 bonds' optimal_distances'
      | Raises e => Raises e
      | RaisesKeyError => RaisesKeyError
      end
  end.

(** [mols] are the fragments of the SMILES string and [bonds] the bond
    strings in the order in which the set is iterated. *)
Definition get_optimal_distances (mols : list (list Z))
    (mapnum_dict : gmap Z nat) (bonds : list string)
  : outcome (gmap (nat * nat) Q) :=
  optimal_distances_loop mols mapnum_dict (owning_mol_dict mols) 0 bonds ∅.

(** [f] is the last fragment that has an atom with the map number. *)
Definition last_fragment (mols : list (list Z)) (map_num : Z) (f : nat)
  : Prop :=
  (exists mol, mols !! f = Some mol /\ In map_num mol)
  /\ forall f' mol', (f < f')%nat -> mols !! f' = Some mol' ->
                     ~ In map_num mol'.

(** The bond string names two map numbers that [mapnum_dict] knows and
    that have the same last fragment. *)
Definition bond_in_fragment (mols : list (list Z)) (mapnum_dict : gmap Z nat)
    (bond : string) : Prop :=
  exists i j f,
    parse_bond bond = Ok (i, j)
    /\ is_Some (mapnum_dict !! i) /\ is_Some (mapnum_dict !! j)
    /\ last_fragment mols i f /\ last_fragment mols j f.

End OptimalDistances.

(** The numerals of a small example, and two fragments with the map
    numbers 1, 2 and 3. *)
Definition small_int (s : string) : option Z :=
  if String.eqb s "1" then Some 1%Z
  else if String.eqb s "2" then Some 2%Z
  else if String.eqb s "3" then Some 3%Z
  else None.

Definition two_fragments : list (list Z) := [[1; 2]; [3]]%Z.

Definition three_atoms : gmap Z nat :=
  {[ 1%Z := 0%nat; 2%Z := 1%nat; 3%Z := 2%nat ]}.

(** *** The engine loop of [generate_additional_conformers] *)

Section AdditionalConformers.

Variables Atoms OptimizedGeometry : Type.

(** [conf_gen.get_simanl_atoms] for the molecule and its constraints, in
    a turn of the loop and for a value of [conf_n]; the geometry that
    [xtb_optimize] leaves, in a turn of the loop, for the atoms written to
    the file it is given; [AllChem.GetBestRMS] of the molecules with two
    such geometries. *)
Variable get_simanl_atoms : nat -> nat -> Atoms.
Variable xtb_optimize : nat -> Atoms -> OptimizedGeometry.
Variable GetBestRMS_of : OptimizedGeometry -> OptimizedGeometry -> Q.

(** The turn [n] of the loop: what is written to [conformer_{n}.xyz] and
    what [conformer_{n}_optimized.xyz] holds afterwards. *)
Definition conformer_turn (n_conf n : nat) : Atoms * OptimizedGeometry :=
  let atoms := get_simanl_atoms n n_conf in
  (atoms, xtb_optimize n atoms).

Definition conformer_loop (n_conf : nat)
  : list (nat * (Atoms * OptimizedGeometry)) :=
  map (fun n => (n, conformer_turn n_conf n)) (range 0 n_conf).

(** [GetBestRMS(molecules[i], molecules[j])] for the files of the loop. *)
Definition conformer_rms (n_conf i j : nat) : Q :=
  GetBestRMS_of (snd (conformer_turn n_conf i))
                (snd (conformer_turn n_conf j)).

(** The whole function; the result lists the numbers [n] of the files
    [conformer_{n}_optimized.xyz] it returns. *)
Definition generate_additional_conformers_run (n_conf : nat)
  : result (list nat) :=
  generate_additional_conformers (conformer_rms n_conf)
                                 (map fst (conformer_loop n_conf)).

End AdditionalConformers.

Arguments conformer_turn {Atoms OptimizedGeometry} get_simanl_atoms
  xtb_optimize n_conf n.
Arguments conformer_loop {Atoms OptimizedGeometry} get_simanl_atoms
  xtb_optimize n_conf.
Arguments conformer_rms {Atoms OptimizedGeometry} get_simanl_atoms
  xtb_optimize GetBestRMS_of n_conf i j.
Arguments generate_additional_conformers_run {Atoms OptimizedGeometry}
  get_simanl_atoms xtb_optimize GetBestRMS_of n_conf.

(* ================================================================== *)
(** * Part II: properties *)
(* ================================================================== *)

(** ** Bond-difference analysis *)

Lemma bond_descriptor_canonical (bond : Bond) :
  let a := GetAtomMapNum (GetBeginAtom bond) in
  let b := GetAtomMapNum (GetEndAtom bond) in
  bond_descriptor bond
  = bond_string (Z.min a b) (Z.max a b) (py_round (GetBondTypeAsDouble bond)).
Proof.
  intros a b. unfold bond_descriptor. fold a b.
  destruct (Z.ltb_spec a b) as [Hlt | Hge].
  - rewrite Z.min_l, Z.max_r by lia. reflexivity.
  - rewrite Z.min_r, Z.max_l by lia. reflexivity.
Qed.

Lemma get_bonds_fold (bonds : list Bond) (acc : gset string) (d : string) :
  d ∈ fold_left (fun bs bond => bs ∪ {[ bond_descriptor bond ]}) bonds acc
  <-> d ∈ acc \/ exists bond, In bond bonds /\ d = bond_descriptor bond.
Proof.
  revert acc. induction bonds as [| b bonds IH]; intros acc; simpl.
  - split; [auto | intros [H | (b & [] & _)]; exact H].
  - rewrite IH. rewrite elem_of_union, elem_of_singleton. split.
    + intros [[H | H] | (b' & Hin & Hd)]; eauto.
    + intros [H | (b' & [-> | Hin] & Hd)]; eauto.
Qed.

Lemma elem_of_get_bonds (mol : Mol) (d : string) :
  d ∈ get_bonds mol
  <-> exists bond, In bond (GetBonds mol) /\ d = bond_descriptor bond.
Proof.
  unfold get_bonds. rewrite get_bonds_fold. split; [| auto].
  intros [H | H]; [| exact H]. exfalso. revert H. apply not_elem_of_empty.
Qed.



(** ** TS-guess index *)

Lemma Qgtb_true (x y : Q) : Qgtb x y = true <-> (y < x)%Q.
Proof.
  unfold Qgtb. rewrite negb_true_iff. split.
  - intros H. apply Qnot_le_lt. intros Hle.
    apply Qle_bool_iff in Hle. congruence.
  - intros H. destruct (Qle_bool x y) eqn:E; [| reflexivity].
    apply Qle_bool_iff in E. exfalso. exact (Qlt_not_le _ _ H E).
Qed.

Lemma Qgtb_false (x y : Q) : Qgtb x y = false <-> (x <= y)%Q.
Proof.
  unfold Qgtb. rewrite negb_false_iff. apply Qle_bool_iff.
Qed.

Lemma np_sub_same_length (a b : list Q) :
  length a = length b -> np_sub a b = Ok (zip_sub a b).
Proof.
  intros H. unfold np_sub. rewrite H, Nat.eqb_refl. reflexivity.
Qed.

Lemma zip_sub_length (a b : list Q) :
  length a = length b -> length (zip_sub a b) = length a.
Proof.
  revert b. induction a as [| x a IH]; intros [| y b] H; simpl in *;
    try discriminate; auto.
Qed.

Lemma zip_sub_nth (a b : list Q) (i : nat) :
  length a = length b -> (i < length a)%nat ->
  nth i (zip_sub a b) 0%Q = bias_corrected a b i.
Proof.
  unfold bias_corrected. revert b i.
  induction a as [| x a IH]; intros [| y b] i H Hi; simpl in *;
    try discriminate; try lia.
  destruct i as [| i]; [reflexivity |]. apply IH; lia.
Qed.

Lemma py_max_from_spec (l : list Q) : forall m : Q,
  (m <= py_max_from m l)%Q
  /\ Forall (fun x => (x <= py_max_from m l)%Q) l
  /\ In (py_max_from m l) (m :: l).
Proof.
  induction l as [| x t IH]; intros m; simpl.
  - split; [apply Qle_refl |]. split; [constructor | left; reflexivity].
  - destruct (Qgtb x m) eqn:E.
    + apply Qgtb_true in E. destruct (IH x) as (Hx & Hall & Hin).
      split; [apply Qle_trans with x; [apply Qlt_le_weak |]; assumption |].
      split; [constructor; assumption | right; exact Hin].
    + apply Qgtb_false in E. destruct (IH m) as (Hm & Hall & Hin).
      split; [assumption |].
      split; [constructor; [apply Qle_trans with m |]; assumption |].
      destruct Hin as [Hin | Hin]; [left; exact Hin | right; right; exact Hin].
Qed.

Lemma py_index_first (x : Q) (l : list Q) :
  (exists y, In y l /\ (y == x)%Q) ->
  exists i : nat,
    py_index x l = Ok i /\ (i < length l)%nat /\ (nth i l 0 == x)%Q
    /\ forall j : nat, (j < i)%nat -> ~ (nth j l 0 == x)%Q.
Proof.
  induction l as [| y t IH]; intros (z & Hin & Hz); simpl in *; [tauto |].
  destruct (Qeq_bool y x) eqn:E.
  - exists 0%nat. apply Qeq_bool_iff in E.
    repeat split; [lia | exact E | intros j Hj; lia].
  - apply Qeq_bool_neq in E.
    destruct Hin as [-> | Hin]; [contradiction |].
    destruct IH as (i & Hi & Hlt & Hnth & Hfirst); [eauto |].
    exists (S i). rewrite Hi. simpl.
    repeat split; [lia | exact Hnth |].
    intros [| j] Hj; [exact E | apply Hfirst; lia].
Qed.

(** The index of a non-empty trajectory with parallel lists. *)
Lemma get_ts_guess_index_spec (energies potentials : list Q) :
  energies <> [] -> length energies = length potentials ->
  exists i : nat,
    get_ts_guess_index energies potentials = Ok i
    /\ (i < length energies)%nat
    /\ (forall j : nat, (j < length energies)%nat ->
          (bias_corrected energies potentials j
           <= bias_corrected energies potentials i)%Q)
    /\ (forall j : nat, (j < i)%nat ->
          (bias_corrected energies potentials j
           < bias_corrected energies potentials i)%Q).
Proof.
  revert energies potentials. intros e p Hne Hlen. unfold get_ts_guess_index.
  rewrite (np_sub_same_length e p Hlen). cbn [result_bind].
  pose proof (zip_sub_length e p Hlen) as Hl.
  destruct (zip_sub e p) as [| x t] eqn:Ete.
  { destruct e; [congruence | discriminate]. }
  cbn [py_max result_bind].
  destruct (py_max_from_spec t x) as (Hx & Hall & Hin).
  set (m := py_max_from x t) in *.
  destruct (py_index_first m (x :: t)) as (i & Hi & Hlt & Hnth & Hfirst).
  { exists m. split; [exact Hin | reflexivity]. }
  assert (Hle : forall j, (j < length e)%nat -> (nth j (x :: t) 0 <= m)%Q).
  { intros j Hj. assert (Hin' : In (nth j (x :: t) 0%Q) (x :: t)).
    { apply nth_In. lia. }
    destruct Hin' as [<- | Hin']; [exact Hx |].
    rewrite Forall_forall in Hall. apply Hall, list_elem_of_In. exact Hin'. }
  exists i. rewrite Hi. split; [reflexivity |].
  rewrite Hl in Hlt. split; [exact Hlt |]. split.
  - intros j Hj. rewrite <- !zip_sub_nth by (auto; lia).
    rewrite Ete, Hnth. apply Hle. exact Hj.
  - intros j Hj. rewrite <- !zip_sub_nth by (auto; lia).
    rewrite Ete, Hnth.
    destruct (proj1 (Qle_lteq _ _) (Hle j ltac:(lia))) as [H | H];
      [exact H |].
    exfalso. exact (Hfirst j Hj H).
Qed.



(** ** Bias potential *)

Lemma getitem_nth {A} (l : list A) (i : nat) (d : A) :
  (i < length l)%nat -> getitem l i = Ok (nth i l d).
Proof.
  intros H. unfold getitem. rewrite (nth_error_nth' l d H). reflexivity.
Qed.

Lemma matrix_get_distance (coords : list Point) (i j : nat) :
  (i < length coords)%nat -> (j < length coords)%nat ->
  matrix_get (distance_matrix coords coords) i j = Ok (distance coords i j).
Proof.
  intros Hi Hj. unfold matrix_get, distance_matrix, distance.
  rewrite (getitem_nth _ i (map (euclidean (0, 0, 0)%R) coords))
    by (rewrite length_map; exact Hi).
  cbn [result_bind].
  rewrite (map_nth (fun p => map (euclidean p) coords) coords (0, 0, 0)%R i).
  rewrite (getitem_nth _ j (euclidean (nth i coords (0, 0, 0)%R) (0, 0, 0)%R))
    by (rewrite length_map; exact Hj).
  rewrite (map_nth (euclidean (nth i coords (0, 0, 0)%R)) coords). reflexivity.
Qed.

Lemma potential_of_step_sum (coords : list Point)
    (constraints : list ((nat * nat) * R)) (k : R) :
  keys_in_range coords constraints ->
  forall potential : R,
    potential_of_step (distance_matrix coords coords) constraints k potential
    = Ok (potential + k * squared_deviations coords constraints)%R.
Proof.
  induction constraints as [| [key val] rest IH]; intros Hr potential.
  - simpl. f_equal. lra.
  - cbn [potential_of_step].
    destruct (Hr (key, val)) as [Hi Hj]; [left; reflexivity |].
    cbn [fst snd] in Hi, Hj.
    rewrite (matrix_get_distance coords _ _ Hi Hj). cbn [result_bind].
    rewrite IH by (intros it Hit; apply Hr; right; exact Hit).
    f_equal. unfold angstrom_to_bohr. simpl. lra.
Qed.

Lemma squared_deviations_nonneg (coords : list Point)
    (constraints : list ((nat * nat) * R)) :
  (0 <= squared_deviations coords constraints)%R.
Proof.
  induction constraints as [| item rest IH]; simpl; [lra |].
  match goal with |- (0 <= ?a * (?a * 1) + _)%R =>
    pose proof (pow2_ge_0 a) as H; simpl in H end.
  lra.
Qed.

Lemma squared_deviations_zero (coords : list Point)
    (constraints : list ((nat * nat) * R)) :
  squared_deviations coords constraints = 0%R
  <-> forall item, In item constraints ->
        distance coords (fst (fst item)) (snd (fst item)) = snd item.
Proof.
  induction constraints as [| item rest IH]; simpl.
  - split; [intros _ it [] | reflexivity].
  - pose proof (squared_deviations_nonneg coords rest) as Hrest.
    match goal with |- (?a * (?a * 1) + _)%R = _ <-> _ =>
      pose proof (pow2_ge_0 a) as Ha; simpl in Ha;
      assert (Hsq : (a * (a * 1) = 0 -> a = 0)%R)
        by (intros Hz; apply Rmult_integral in Hz; lra) end.
    split.
    + intros H it [<- | Hin].
      * assert (Hz : (188973 / 100000
                      * (distance coords (fst (fst item)) (snd (fst item))
                         - snd item) = 0)%R) by (apply Hsq; lra).
        lra.
      * apply IH; [lra | exact Hin].
    + intros H. rewrite (H item) by (left; reflexivity).
      rewrite (proj2 IH) by (intros it Hit; apply H; right; exact Hit).
      lra.
Qed.

(** C7. When every constrained pair names atoms of the geometry, the
    potential of each step is [k] times the sum over the constraints of the
    squared deviation [1.88973 * (distance - target)] of the Euclidean
    distance from its target; for a positive [k] it is non-negative, and it
    is zero exactly when every constrained distance equals its target.  Two
    atoms 2.0 apart with the target 2.0 give the potential 0 for every force
    constant. *)
Theorem determine_potential_harmonic :
  (forall (all_coords : list (list Point))
          (constraints : list ((nat * nat) * R)) (k : R),
      (0 < k)%R ->
      (forall coords, In coords all_coords ->
                      keys_in_range coords constraints) ->
      determine_potential all_coords constraints k
      = Ok (map (fun coords => (k * squared_deviations coords constraints)%R)
                all_coords)
      /\ forall coords, In coords all_coords ->
           (0 <= k * squared_deviations coords constraints)%R
           /\ ((k * squared_deviations coords constraints)%R = 0%R
               <-> forall item, In item constraints ->
                     distance coords (fst (fst item)) (snd (fst item))
                     = snd item))
  /\ (distance [(0, 0, 0); (2, 0, 0)]%R 0 1 = 2%R
      /\ forall k : R,
           determine_potential [[(0, 0, 0); (2, 0, 0)]%R]
                               [((0%nat, 1%nat), 2%R)] k
           = Ok [0%R]).
Proof.
  split.
  - intros all_coords constraints k Hk Hr. split.
    + induction all_coords as [| coords rest IH]; [reflexivity |].
      cbn [determine_potential map].
      rewrite potential_of_step_sum by (apply Hr; left; reflexivity).
      cbn [result_bind].
      rewrite IH by (intros c Hc; apply Hr; right; exact Hc).
      cbn [result_bind]. do 2 f_equal. lra.
    + intros coords _.
      pose proof (squared_deviations_nonneg coords constraints) as Hn.
      split; [apply Rmult_le_pos; lra |].
      rewrite <- squared_deviations_zero. split.
      * intros H. apply Rmult_integral in H. lra.
      * intros ->. lra.
  - assert (Hd : distance [(0, 0, 0); (2, 0, 0)]%R 0 1 = 2%R).
    { unfold distance, euclidean. simpl.
      replace ((0 - 2) * (0 - 2) + (0 - 0) * (0 - 0) + (0 - 0) * (0 - 0))%R
        with (2 * 2)%R by lra.
      apply sqrt_square. lra. }
    split; [exact Hd |]. intros k.
    cbn [determine_potential].
    rewrite potential_of_step_sum
      by (intros it [<- | []]; simpl; split; lia).
    cbn [result_bind]. do 2 f_equal.
    unfold squared_deviations. cbn [fold_right fst snd].
    rewrite Hd. simpl. lra.
Qed.

(** The theorem at the geometry of scenario C with the force constant 1. *)
Lemma determine_potential_harmonic_witness :
  determine_potential [[(0, 0, 0); (2, 0, 0)]%R] [((0%nat, 1%nat), 2%R)] 1
  = Ok (map (fun coords =>
               (1 * squared_deviations coords [((0%nat, 1%nat), 2%R)])%R)
            [[(0, 0, 0); (2, 0, 0)]%R]).
Proof.
  apply (proj1 determine_potential_harmonic
           [[(0, 0, 0); (2, 0, 0)]%R] [((0%nat, 1%nat), 2%R)] 1%R).
  - lra.
  - intros coords [<- | []] item [<- | []]. simpl. split; lia.
Defined.

(** ** Conformer clustering *)

Section ClusteringProperties.

Variable GetBestRMS : nat -> nat -> Q.

Lemma in_combinations (n i j : nat) :
  In (i, j) (combinations n) <-> (i < j)%nat /\ (j < n)%nat.
Proof.
  unfold combinations, range. rewrite in_flat_map. split.
  - intros (a & Ha & Hin). apply in_map_iff in Hin as (b & Heq & Hb).
    apply in_seq in Ha, Hb. inversion Heq; subst. lia.
  - intros [Hij Hjn]. exists i. split; [apply in_seq; lia |].
    apply in_map_iff. exists j. split; [reflexivity | apply in_seq; lia].
Qed.

Ltac eqb_cases :=
  repeat match goal with
         | |- context [Nat.eqb ?a ?b] => destruct (Nat.eqb_spec a b)
         end;
  cbn [andb]; try reflexivity; try lia; try congruence.

Lemma rmsd_fold_entries (pairs : list (nat * nat)) :
  (forall ab, In ab pairs -> (fst ab < snd ab)%nat) ->
  forall (m0 : Matrix) (i j : nat),
    let m := fold_left
               (fun m ij =>
                  let rmsd := GetBestRMS (fst ij) (snd ij) in
                  matrix_set (matrix_set m (fst ij) (snd ij) rmsd)
                             (snd ij) (fst ij) rmsd)
               pairs m0 in
    (In (i, j) pairs -> m i j = GetBestRMS i j)
    /\ (In (j, i) pairs -> m i j = GetBestRMS j i)
    /\ (~ In (i, j) pairs -> ~ In (j, i) pairs -> m i j = m0 i j).
Proof.
  induction pairs as [| [a b] pairs IH]; intros Hlt m0 i j.
  - simpl. repeat split; tauto.
  - assert (Hab : (a < b)%nat) by (apply (Hlt (a, b)); left; reflexivity).
    assert (Hlt' : forall ab, In ab pairs -> (fst ab < snd ab)%nat)
      by (intros ab Hin; apply Hlt; right; exact Hin).
    cbn [fold_left]. cbv zeta.
    destruct (IH Hlt' (matrix_set (matrix_set m0 a b (GetBestRMS a b))
                                  b a (GetBestRMS a b)) i j)
      as (H1 & H2 & H3).
    cbn [fst snd] in *.
    destruct (in_dec (fun x y : nat * nat => decide (x = y)) (i, j) pairs)
      as [Hin | Hnin];
      destruct (in_dec (fun x y : nat * nat => decide (x = y)) (j, i) pairs)
      as [Hin' | Hnin'].
    + apply Hlt' in Hin, Hin'. cbn [fst snd] in *. lia.
    + split; [auto |]. split; [| simpl; tauto].
      intros [Heq | Hc]; [| contradiction].
      inversion Heq; subst. apply Hlt' in Hin. cbn [fst snd] in *. lia.
    + split; [| split; [auto | simpl; tauto]].
      intros [Heq | Hc]; [| contradiction].
      inversion Heq; subst. apply Hlt' in Hin'. cbn [fst snd] in *. lia.
    + rewrite (H3 Hnin Hnin'). unfold matrix_set. split; [| split].
      * intros [Heq | Hc]; [| contradiction]. inversion Heq; subst.
        eqb_cases.
      * intros [Heq | Hc]; [| contradiction]. inversion Heq; subst.
        eqb_cases.
      * intros Hn Hn'. simpl in Hn, Hn'.
        assert ((a, b) <> (i, j)) by tauto.
        assert ((a, b) <> (j, i)) by tauto.
        eqb_cases.
Qed.

(** The matrix of pairwise values: symmetric, with a zero diagonal. *)
Lemma rmsd_matrix_entries (n i j : nat) :
  ((i < j)%nat -> (j < n)%nat ->
   rmsd_matrix GetBestRMS n i j = GetBestRMS i j
   /\ rmsd_matrix GetBestRMS n j i = GetBestRMS i j)
  /\ rmsd_matrix GetBestRMS n i i = 0%Q.
Proof.
  assert (Hlt : forall ab, In ab (combinations n) -> (fst ab < snd ab)%nat).
  { intros [a b] Hin. apply in_combinations in Hin. simpl. lia. }
  split.
  - intros Hij Hjn. unfold rmsd_matrix. split.
    + apply (rmsd_fold_entries _ Hlt np_zeros i j).
      apply in_combinations. lia.
    + apply (rmsd_fold_entries _ Hlt np_zeros j i).
      apply in_combinations. lia.
  - unfold rmsd_matrix.
    destruct (rmsd_fold_entries _ Hlt np_zeros i i) as (_ & _ & H).
    apply H; intros Hin; apply in_combinations in Hin; lia.
Qed.

End ClusteringProperties.

Section ClusterLoop.

Variable m : Matrix.

Local Abbreviation none_close := (none_close m).

Lemma Qltb_true (x y : Q) : Qltb x y = true <-> (x < y)%Q.
Proof. exact (Qgtb_true y x). Qed.

Lemma Qltb_false (x y : Q) : Qltb x y = false <-> (y <= x)%Q.
Proof. exact (Qgtb_false y x). Qed.

Lemma all_close_true (i : nat) (cluster : list nat) :
  all_close m i cluster = true
  <-> forall j, In j cluster -> (m i j < 0.5)%Q.
Proof.
  unfold all_close. rewrite forallb_forall.
  split; intros H j Hj; apply Qltb_true, H, Hj.
Qed.

Lemma all_close_false (i : nat) (cluster : list nat) :
  all_close m i cluster = false ->
  exists j, In j cluster /\ (0.5 <= m i j)%Q.
Proof.
  unfold all_close. induction cluster as [| j t IH]; simpl; [discriminate |].
  destruct (Qltb (m i j) 0.5) eqn:E; simpl.
  - intros H. destruct (IH H) as (j' & Hin & Hj'). eauto.
  - intros _. apply Qltb_false in E. eauto.
Qed.

Lemma find_cluster_some (i : nat) (clusters clusters' : list (list nat)) :
  find_cluster m i clusters = Some clusters' ->
  exists pre c post,
    clusters = pre ++ c :: post
    /\ none_close i pre
    /\ (forall j, In j c -> (m i j < 0.5)%Q)
    /\ clusters' = pre ++ (c ++ [i]) :: post.
Proof.
  revert clusters'.
  induction clusters as [| c rest IH]; intros clusters'; simpl;
    [discriminate |].
  destruct (all_close m i c) eqn:E.
  - intros [= <-]. exists [], c, rest.
    pose proof (proj1 (all_close_true i c) E) as Hc.
    repeat split; auto. intros c' [].
  - destruct (find_cluster m i rest) as [r' |]; [| discriminate].
    intros [= <-].
    destruct (IH r' eq_refl) as (pre & c0 & post & -> & Hpre & Hc0 & ->).
    exists (c :: pre), c0, post. repeat split; auto.
    intros c' [<- | Hin]; [apply all_close_false; exact E | auto].
Qed.

Lemma find_cluster_none (i : nat) (clusters : list (list nat)) :
  find_cluster m i clusters = None -> none_close i clusters.
Proof.
  induction clusters as [| c rest IH]; simpl; [intros _ c' [] |].
  destruct (all_close m i c) eqn:E; [discriminate |].
  destruct (find_cluster m i rest); [discriminate |].
  intros _ c' [<- | Hin]; [apply all_close_false; exact E | apply IH; auto].
Qed.

(** What one turn of the outer loop does with the index [i]. *)
Lemma cluster_step_first_fit (i : nat) (clusters : list (list nat)) :
  (exists pre c post,
      clusters = pre ++ c :: post
      /\ none_close i pre
      /\ (forall j, In j c -> (m i j < 0.5)%Q)
      /\ cluster_step m clusters i = pre ++ (c ++ [i]) :: post)
  \/ (none_close i clusters
      /\ cluster_step m clusters i = clusters ++ [[i]]).
Proof.
  unfold cluster_step. destruct (find_cluster m i clusters) as [cl' |] eqn:E.
  - left. destruct (find_cluster_some i clusters cl' E)
      as (pre & c & post & H1 & H2 & H3 & H4). eauto 8.
  - right. split; [apply find_cluster_none; exact E | reflexivity].
Qed.

Lemma clusters_after_S (k : nat) :
  clusters_after m (S k) = cluster_step m (clusters_after m k) k.
Proof.
  unfold clusters_after, range. rewrite !Nat.sub_0_r, seq_S.
  rewrite fold_left_app. reflexivity.
Qed.

Lemma StronglySorted_snoc (c : list nat) (k : nat) :
  StronglySorted lt c -> Forall (fun j => (j < k)%nat) c ->
  StronglySorted lt (c ++ [k]).
Proof.
  induction 1 as [| a l Hs IH Ha]; intros Hk; simpl.
  - repeat constructor.
  - inversion Hk; subst. constructor; [auto |].
    apply Forall_app. split; [exact Ha | repeat constructor; assumption].
Qed.

Lemma cluster_step_partitions (k : nat) (clusters : list (list nat)) :
  partitions k clusters -> partitions (S k) (cluster_step m clusters k).
Proof.
  intros [Hperm Hall].
  assert (Hbelow : forall c, In c clusters ->
                             Forall (fun j => (j < k)%nat) c).
  { intros c Hc. apply List.Forall_forall. intros j Hj.
    assert (Hin : In j (seq 0 k)).
    { apply (Permutation_in _ Hperm), in_concat. eauto. }
    apply in_seq in Hin. lia. }
  assert (Hseq : Permutation (k :: seq 0 k) (seq 0 (S k))).
  { rewrite seq_S. apply Permutation_cons_append. }
  destruct (cluster_step_first_fit k clusters)
    as [(pre & c & post & -> & _ & _ & ->) | [_ ->]]; split.
  - rewrite <- Hseq, <- Hperm, !concat_app. cbn [concat].
    rewrite <- (app_assoc c [k]). cbn [app].
    rewrite !(app_assoc (concat pre)).
    symmetry. apply Permutation.Permutation_middle.
  - apply Forall_app in Hall as [Hpre Hc]. inversion Hc as [| ? ? [_ Hs] Hp]; subst.
    apply Forall_app. split; [exact Hpre |]. constructor; [| exact Hp].
    split; [destruct c; discriminate |].
    apply StronglySorted_snoc; [exact Hs |].
    apply Hbelow, in_elt.
  - rewrite <- Hseq, <- Hperm, concat_app. cbn [concat app].
    symmetry. apply Permutation_cons_append.
  - apply Forall_app. split; [exact Hall |].
    repeat constructor. discriminate.
Qed.

Lemma clusters_after_partitions (k : nat) :
  partitions k (clusters_after m k).
Proof.
  induction k as [| k IH].
  - split; [reflexivity | constructor].
  - rewrite clusters_after_S. apply cluster_step_partitions, IH.
Qed.

End ClusterLoop.

Lemma representatives_first_members {A} (files : list A)
    (clusters : list (list nat)) :
  Forall (fun c => exists h, first_member c h /\ (h < length files)%nat)
         clusters ->
  exists reps : list A,
    representatives files clusters = Ok reps
    /\ Forall2 (fun c r => exists h, first_member c h
                                      /\ nth_error files h = Some r)
               clusters reps.
Proof.
  induction 1 as [| c rest (h & [t ->] & Hh) _ (reps & Hreps & Hall)].
  - exists []. split; [reflexivity | constructor].
  - destruct (nth_error files h) as [r |] eqn:E.
    2:{ apply nth_error_None in E. lia. }
    exists (r :: reps). cbn [representatives]. unfold getitem at 1 2.
    cbn [nth_error result_bind]. rewrite E. cbn [result_bind].
    rewrite Hreps. cbn [result_bind]. split; [reflexivity |].
    constructor; [| exact Hall]. exists h. split; [exists t; reflexivity | exact E].
Qed.

Lemma partitions_heads (m : Matrix) (k : nat) (clusters : list (list nat)) :
  partitions k clusters ->
  Forall (fun c => exists h, first_member c h /\ (h < k)%nat) clusters.
Proof.
  intros [Hperm Hall]. apply List.Forall_forall. intros c Hc.
  rewrite List.Forall_forall in Hall. destruct (Hall c Hc) as [Hne _].
  destruct c as [| h t]; [congruence |]. exists h. split; [exists t; reflexivity |].
  assert (Hin : In h (seq 0 k)).
  { apply (Permutation_in _ Hperm), in_concat. exists (h :: t).
    split; [exact Hc | left; reflexivity]. }
  apply in_seq in Hin. lia.
Qed.

Lemma generate_additional_conformers_first_members {A}
    (GetBestRMS : nat -> nat -> Q) (files : list A) :
  exists reps : list A,
    generate_additional_conformers GetBestRMS files = Ok reps
    /\ Forall2 (fun c r => exists h, first_member c h
                                      /\ nth_error files h = Some r)
               (count_unique_conformers GetBestRMS (length files)) reps.
Proof.
  apply representatives_first_members.
  apply (partitions_heads (rmsd_matrix GetBestRMS (length files))).
  apply clusters_after_partitions.
Qed.

(** C9. The clusters are built by taking the conformer indices in ascending
    order: the index [k] joins the first cluster all of whose members are
    at less than 0.5 from it, and opens the new cluster [[k]] when every
    cluster has a member at 0.5 or more.  The matrix holds the value of a
    pair in both orders and 0 on its diagonal, the representative of a
    cluster is the file of its first member, and the values 0.3, 0.3, 0.7 of
    scenario D give the clusters [[0, 1], [2]]. *)
Theorem count_unique_conformers_first_fit :
  (forall (GetBestRMS : nat -> nat -> Q) (n : nat),
      count_unique_conformers GetBestRMS n
      = clusters_after (rmsd_matrix GetBestRMS n) n
      /\ clusters_after (rmsd_matrix GetBestRMS n) 0 = []
      /\ (forall k : nat,
             (exists pre c post,
                 clusters_after (rmsd_matrix GetBestRMS n) k = pre ++ c :: post
                 /\ none_close (rmsd_matrix GetBestRMS n) k pre
                 /\ (forall j, In j c ->
                               (rmsd_matrix GetBestRMS n k j < 0.5)%Q)
                 /\ clusters_after (rmsd_matrix GetBestRMS n) (S k)
                    = pre ++ (c ++ [k]) :: post)
             \/ (none_close (rmsd_matrix GetBestRMS n) k
                            (clusters_after (rmsd_matrix GetBestRMS n) k)
                 /\ clusters_after (rmsd_matrix GetBestRMS n) (S k)
                    = clusters_after (rmsd_matrix GetBestRMS n) k ++ [[k]]))
      /\ (forall i j : nat, (i < j)%nat -> (j < n)%nat ->
             rmsd_matrix GetBestRMS n i j = GetBestRMS i j
             /\ rmsd_matrix GetBestRMS n j i = GetBestRMS i j)
      /\ (forall i : nat, rmsd_matrix GetBestRMS n i i = 0%Q))
  /\ (forall (A : Type) (GetBestRMS : nat -> nat -> Q) (files : list A),
         exists reps : list A,
           generate_additional_conformers GetBestRMS files = Ok reps
           /\ Forall2 (fun c r => exists h, first_member c h
                                             /\ nth_error files h = Some r)
                      (count_unique_conformers GetBestRMS (length files))
                      reps)
  /\ count_unique_conformers scenario_D_rmsd 3 = [[0; 1]; [2]]%nat.
Proof.
  split; [| split].
  - intros G n. split; [reflexivity |]. split; [reflexivity |]. split.
    + intros k. rewrite clusters_after_S. apply cluster_step_first_fit.
    + split.
      * intros i j. apply rmsd_matrix_entries.
      * intros i. apply (rmsd_matrix_entries G n i i).
  - intros A G files. apply generate_additional_conformers_first_members.
  - vm_compute. reflexivity.
Qed.

(** The theorem at scenario D: the entries of the pair (1, 2). *)
Lemma count_unique_conformers_first_fit_witness :
  rmsd_matrix scenario_D_rmsd 3 1 2 = scenario_D_rmsd 1 2
  /\ rmsd_matrix scenario_D_rmsd 3 2 1 = scenario_D_rmsd 1 2.
Proof.
  apply (proj1 count_unique_conformers_first_fit scenario_D_rmsd 3%nat); lia.
Defined.

(** C10. The clusters of [n] conformers partition the indices below [n]:
    an index is below [n] exactly when some cluster holds it, no index
    occurs twice in the clusters, every cluster is non-empty and its first
    member is smaller than its other members; the list of representatives
    is computed without an error and has one file per cluster, the file of
    the cluster's first member. *)
Theorem count_unique_conformers_partition :
  forall (A : Type) (GetBestRMS : nat -> nat -> Q) (files : list A),
    (forall i : nat,
        (i < length files)%nat
        <-> exists c, In c (count_unique_conformers GetBestRMS (length files))
                      /\ In i c)
    /\ List.NoDup
         (concat (count_unique_conformers GetBestRMS (length files)))
    /\ (forall c, In c (count_unique_conformers GetBestRMS (length files)) ->
          exists h t, c = h :: t /\ forall j, In j t -> (h < j)%nat)
    /\ exists reps : list A,
         generate_additional_conformers GetBestRMS files = Ok reps
         /\ length reps
            = length (count_unique_conformers GetBestRMS (length files))
         /\ Forall2 (fun c r => exists h, first_member c h
                                           /\ nth_error files h = Some r)
                    (count_unique_conformers GetBestRMS (length files)) reps.
Proof.
  intros A G files.
  destruct (clusters_after_partitions (rmsd_matrix G (length files))
                                      (length files)) as [Hperm Hall].
  fold (count_unique_conformers G (length files)) in Hperm, Hall.
  split; [| split; [| split]].
  - intros i. rewrite <- in_concat. split.
    + intros Hi. apply (Permutation_in _ (Permutation_sym Hperm)).
      apply in_seq. lia.
    + intros Hin. apply (Permutation_in _ Hperm) in Hin.
      apply in_seq in Hin. lia.
  - apply (Permutation_NoDup (Permutation_sym Hperm)). apply seq_NoDup.
  - intros c Hc. rewrite List.Forall_forall in Hall.
    destruct (Hall c Hc) as [Hne Hs].
    destruct c as [| h t]; [congruence |]. exists h, t.
    split; [reflexivity |]. inversion Hs as [| ? ? _ Hlt]; subst.
    rewrite List.Forall_forall in Hlt. exact Hlt.
  - destruct (generate_additional_conformers_first_members G files)
      as (reps & Hreps & Hfirst).
    exists reps. split; [exact Hreps |]. split; [| exact Hfirst].
    symmetry. eapply List.Forall2_length. exact Hfirst.
Qed.

(** The theorem at three conformer files with the values of scenario D: the
    first member of the cluster [[0, 1]] is its smallest. *)
Lemma count_unique_conformers_partition_witness :
  exists h t, [0; 1]%nat = h :: t /\ forall j, In j t -> (h < j)%nat.
Proof.
  apply (proj1 (proj2 (proj2
           (count_unique_conformers_partition
              string scenario_D_rmsd ["c0.xyz"; "c1.xyz"; "c2.xyz"])))).
  vm_compute. left. reflexivity.
Defined.

(** ** Validation of the TS guess by imaginary frequencies *)

Section Validation.

Variables Atoms Coords Conformer : Type.
Variable hess_negative_frequencies :
  Geometry Atoms Coords -> Z -> option (list Q).
Variables (atoms : list Atoms) (coords : list Coords).
Variables (force_constant : Q) (charge : Z).

Local Abbreviation World := (World Atoms Coords Conformer).
Local Abbreviation file := (ts_guess_xyz force_constant).
Local Abbreviation geometry_at := (geometry_at Atoms Coords atoms coords).
Local Abbreviation single_imaginary :=
  (single_imaginary Atoms Coords hess_negative_frequencies charge).
Local Abbreviation submit :=
  (submit Atoms Coords Conformer force_constant charge).
Local Abbreviation hess_calls :=
  (hess_calls Atoms Coords Conformer hess_negative_frequencies atoms coords
              charge).

Lemma Filename_eqb_refl (f : Filename) : Filename_eqb f f = true.
Proof.
  destruct f as [q |]; simpl; [| reflexivity].
  rewrite Z.eqb_refl, Pos.eqb_refl. reflexivity.
Qed.

Lemma read_file_submit (g : Geometry Atoms Coords) (w : World) :
  read_file (submit g w) file = Some g.
Proof.
  unfold read_file, submit. simpl.
  rewrite Z.eqb_refl, Pos.eqb_refl. reflexivity.
Qed.

Lemma xtb_calls_submit (g : Geometry Atoms Coords) (w : World) :
  xtb_calls (submit g w) = xtb_calls w ++ [xtb_hess g charge].
Proof. reflexivity. Qed.

Lemma geometry_at_getitem (j : nat) (g : Geometry Atoms Coords) :
  geometry_at j = Some g ->
  getitem atoms j = Ok (fst g) /\ getitem coords j = Ok (snd g).
Proof.
  unfold geometry_at, getitem.
  destruct (nth_error atoms j), (nth_error coords j); try discriminate.
  intros [= <-]. split; reflexivity.
Qed.

Lemma geometry_at_in_bounds (j : nat) :
  length coords = length atoms -> (j < length atoms)%nat ->
  exists g, geometry_at j = Some g.
Proof.
  intros Hlen Hj. unfold geometry_at.
  destruct (nth_error atoms j) as [a |] eqn:Ea.
  2:{ apply nth_error_None in Ea. lia. }
  destruct (nth_error coords j) as [c |] eqn:Ec.
  2:{ apply nth_error_None in Ec. lia. }
  eauto.
Qed.

(** One turn of the loop on a candidate whose report has a frequency
    line: the geometry is submitted once when the report lists one
    negative frequency, and twice otherwise. *)
Lemma final_ts_guess_body_step (i j : nat) (g : Geometry Atoms Coords)
    (l : list Q) (nfi : option (option (list Q))) (w : World) :
  geometry_at j = Some g ->
  hess_negative_frequencies g charge = Some l ->
  final_ts_guess_body hess_negative_frequencies i atoms coords
                      force_constant charge j nfi w
  = if (length l =? 1)%nat
    then (Ok (Return file), submit g w)
    else (Ok (Continue (if (j =? i)%nat then Some (Some l) else nfi)),
          submit g (submit g w)).
Proof.
  intros Hg Hl. destruct (geometry_at_getitem j g Hg) as [Ha Hc].
  destruct g as [a c]. cbn [fst snd] in Ha, Hc.
  unfold final_ts_guess_body, bind, lift.
  rewrite Ha, Hc. unfold write_xyz_file_from_atoms_and_coords.
  unfold get_negative_frequencies at 1.
  unfold read_file at 1. cbn [files write_file lookup_file].
  rewrite Filename_eqb_refl, Hl. cbn [len_neg_freq ret].
  destruct (length l =? 1)%nat eqn:E; [reflexivity |].
  unfold get_negative_frequencies, read_file.
  cbn [files write_file record_call lookup_file].
  rewrite Filename_eqb_refl, Hl. cbn [len_neg_freq ret]. rewrite E.
  reflexivity.
Qed.

(** The loop over the candidates [a, a + 1, ..., a + n - 1]. *)
Lemma validation_loop (i n : nat) :
  forall (a : nat) (nfi : option (option (list Q))) (w : World),
    (forall j g, (a <= j < a + n)%nat -> geometry_at j = Some g ->
                 hess_negative_frequencies g charge <> None) ->
    (forall j, (a <= j < a + n)%nat -> geometry_at j <> None) ->
    exists r w',
      for_each (seq a n)
               (final_ts_guess_body hess_negative_frequencies i atoms coords
                                    force_constant charge) nfi w
      = (Ok r, w')
      /\ ((exists j g,
              (a <= j < a + n)%nat
              /\ geometry_at j = Some g
              /\ single_imaginary g = true
              /\ (forall j' g', (a <= j' < j)%nat ->
                                geometry_at j' = Some g' ->
                                single_imaginary g' = false)
              /\ r = Returned file
              /\ read_file w' file = Some g
              /\ xtb_calls w' = xtb_calls w ++ hess_calls (seq a (S j - a)))
          \/ ((forall j' g', (a <= j' < a + n)%nat ->
                             geometry_at j' = Some g' ->
                             single_imaginary g' = false)
              /\ exists nfi',
                  r = Below nfi'
                  /\ (nfi <> None -> nfi' <> None)
                  /\ ((a <= i < a + n)%nat -> nfi' <> None)
                  /\ xtb_calls w' = xtb_calls w ++ hess_calls (seq a n))).
Proof.
  induction n as [| n IH]; intros a nfi w Hrep Hgeo.
  - exists (Below nfi), w. split; [reflexivity |]. right.
    split; [intros; lia |]. exists nfi.
    repeat split; [auto | lia | simpl; rewrite app_nil_r; reflexivity].
  - destruct (geometry_at a) as [g |] eqn:Hg.
    2:{ exfalso. apply (Hgeo a); [lia | exact Hg]. }
    destruct (hess_negative_frequencies g charge) as [l |] eqn:Hl.
    2:{ exfalso. apply (Hrep a g); [lia | exact Hg | exact Hl]. }
    assert (Hsingle : single_imaginary g = (length l =? 1)%nat)
      by (unfold single_imaginary; rewrite Hl; reflexivity).
    cbn [seq for_each]. unfold bind at 1.
    rewrite (final_ts_guess_body_step i a g l nfi w Hg Hl).
    destruct (length l =? 1)%nat eqn:E.
    + exists (Returned file), (submit g w). split; [reflexivity |]. left.
      exists a, g. repeat split; try lia; auto.
      * apply read_file_submit.
      * replace (S a - a)%nat with 1%nat by lia.
        cbn [seq hess_calls]. rewrite Hg, Hsingle. apply xtb_calls_submit.
    + destruct (IH (S a) (if (a =? i)%nat then Some (Some l) else nfi)
                   (submit g (submit g w)))
        as (r & w' & Hrun & Hcases).
      { intros j g' Hj. apply Hrep. lia. }
      { intros j Hj. apply Hgeo. lia. }
      exists r, w'. split; [exact Hrun |].
      assert (Hcalls : forall k,
                 xtb_calls (submit g (submit g w)) ++ hess_calls (seq (S a) k)
                 = xtb_calls w ++ hess_calls (seq a (S k))).
      { intros k. cbn [seq hess_calls]. rewrite Hg, Hsingle.
        rewrite !xtb_calls_submit, <- !app_assoc. reflexivity. }
      destruct Hcases as [(j & g' & Hj & Hg' & Hs & Hbefore & Hr & Hread & Hc)
                         | (Hnone & nfi' & Hr & Hkeep & Hinit & Hc)].
      * left. exists j, g'. repeat split; try lia; auto.
        -- intros j' g'' Hj' Hg''.
           destruct (Nat.eq_dec j' a) as [-> | Hne].
           ++ rewrite Hg in Hg''. injection Hg'' as <-.
              rewrite Hsingle. reflexivity.
           ++ apply (Hbefore j' g''); [lia | exact Hg''].
        -- rewrite Hc. replace (S j - a)%nat with (S (S j - S a)) by lia.
           apply Hcalls.
      * right. split.
        -- intros j' g'' Hj' Hg''.
           destruct (Nat.eq_dec j' a) as [-> | Hne].
           ++ rewrite Hg in Hg''. injection Hg'' as <-.
              rewrite Hsingle. reflexivity.
           ++ apply (Hnone j' g''); [lia | exact Hg''].
        -- exists nfi'. split; [exact Hr |]. split; [| split].
           ++ intros Hn. apply Hkeep. destruct (a =? i)%nat; congruence.
           ++ intros Hi. destruct (Nat.eqb_spec a i) as [-> | Hne].
              ** apply Hkeep. discriminate.
              ** apply Hinit. lia.
           ++ rewrite Hc. apply Hcalls.
Qed.

(** A candidate the loop reaches is in its list of xtb calls. *)
Lemma hess_calls_reached (n : nat) :
  forall (a j : nat) (g : Geometry Atoms Coords),
    (a <= j < a + n)%nat ->
    (forall j', (a <= j' < j)%nat -> geometry_at j' <> None) ->
    (forall j' g', (a <= j' < j)%nat -> geometry_at j' = Some g' ->
                   single_imaginary g' = false) ->
    geometry_at j = Some g ->
    In (xtb_hess g charge) (hess_calls (seq a n)).
Proof.
  induction n as [| n IH]; intros a j g Hj Hgeo Hnone Hg; [lia |].
  cbn [seq hess_calls]. destruct (Nat.eq_dec j a) as [-> | Hne].
  - rewrite Hg. destruct (single_imaginary g); left; reflexivity.
  - destruct (geometry_at a) as [ga |] eqn:Hga.
    2:{ exfalso. apply (Hgeo a); [lia | exact Hga]. }
    rewrite (Hnone a ga) by (auto; lia).
    right. right. apply (IH (S a) j g); auto; try lia.
    + intros j' Hj'. apply Hgeo. lia.
    + intros j' g' Hj'. apply Hnone. lia.
Qed.


End Validation.

(** ** The force-constant scan *)

Section Scan.

Variables Atoms Coords Conformer : Type.
Variable biased_trajectory : Conformer -> Q -> list (Step Atoms Coords).
Variable hess_negative_frequencies :
  Geometry Atoms Coords -> Z -> option (list Q).

Local Abbreviation World := (World Atoms Coords Conformer).
Local Abbreviation M := (M Atoms Coords Conformer).
Local Abbreviation biased_runs := (biased_runs Atoms Coords Conformer).
Local Abbreviation final_potential :=
  (final_potential Atoms Coords Conformer biased_trajectory).
Local Abbreviation profile_of :=
  (profile_of Atoms Coords Conformer biased_trajectory).
Local Abbreviation returned_file := (returned_file Atoms Coords Conformer).
Local Abbreviation hess_only := (hess_only Atoms Coords Conformer).

Lemma biased_runs_app (l1 l2 : list (XtbCall Atoms Coords Conformer)) :
  biased_runs (l1 ++ l2) = biased_runs l1 ++ biased_runs l2.
Proof. apply flat_map_app. Qed.

Lemma biased_runs_map (conformer : Conformer) (fcs : list Q) :
  biased_runs (map (xtb_opt_biased conformer) fcs)
  = map (pair conformer) fcs.
Proof.
  induction fcs as [| fc fcs IH]; [reflexivity |].
  simpl. f_equal. exact IH.
Qed.

Lemma hess_only_ret {A} (a : A) : hess_only (ret a).
Proof. intros w. reflexivity. Qed.

Lemma hess_only_raise {A} (e : exn) :
  hess_only (raise Atoms Coords Conformer (A := A) e).
Proof. intros w. reflexivity. Qed.

Lemma hess_only_lift {A} (r : result A) :
  hess_only (lift Atoms Coords Conformer r).
Proof. intros w. reflexivity. Qed.

Lemma hess_only_local {A} (v : option A) :
  hess_only (local Atoms Coords Conformer v).
Proof. destruct v; intros w; reflexivity. Qed.

Lemma hess_only_bind {A B} (c : M A) (k : A -> M B) :
  hess_only c -> (forall a, hess_only (k a)) -> hess_only (bind c k).
Proof.
  intros Hc Hk w. unfold bind. specialize (Hc w).
  destruct (c w) as [[a | e] w']; simpl in *.
  - rewrite Hk. exact Hc.
  - exact Hc.
Qed.

Lemma hess_only_write (a : Atoms) (c : Coords) (f : Filename) :
  hess_only (write_xyz_file_from_atoms_and_coords Atoms Coords Conformer
               a c f).
Proof. intros w. reflexivity. Qed.

Lemma hess_only_get_negative_frequencies (f : Filename) (charge : Z) :
  hess_only (get_negative_frequencies Atoms Coords Conformer
               hess_negative_frequencies f charge).
Proof.
  intros w. unfold get_negative_frequencies.
  destruct (read_file w f); [| reflexivity].
  simpl. rewrite biased_runs_app. simpl. apply app_nil_r.
Qed.

Lemma hess_only_len (nf : option (list Q)) :
  hess_only (len_neg_freq Atoms Coords Conformer nf).
Proof. destruct nf; intros w; reflexivity. Qed.

Lemma hess_only_for_each {X S R} (xs : list X)
    (body : X -> S -> M (flow S R)) :
  (forall x s, hess_only (body x s)) ->
  forall s, hess_only (for_each xs body s).
Proof.
  intros Hbody. induction xs as [| x xs IH]; intros s.
  - apply hess_only_ret.
  - cbn [for_each]. apply hess_only_bind; [apply Hbody |].
    intros [s' | s' | v]; [apply IH | apply hess_only_ret ..].
Qed.

Lemma hess_only_get_final_ts_guess_geometry (i : nat)
    (atoms : list Atoms) (coords : list Coords) (fc : Q) (charge : Z) :
  hess_only (get_final_ts_guess_geometry hess_negative_frequencies i
               atoms coords fc charge).
Proof.
  unfold get_final_ts_guess_geometry. apply hess_only_bind.
  - apply hess_only_for_each. intros j nfi. unfold final_ts_guess_body.
    repeat first
      [ apply hess_only_ret | apply hess_only_lift | apply hess_only_write
      | apply hess_only_get_negative_frequencies | apply hess_only_len
      | apply hess_only_bind; [| intros ?]
      | match goal with |- hess_only (if ?b then _ else _) => destruct b end ].
  - intros [nfi | f]; [| apply hess_only_ret].
    repeat first
      [ apply hess_only_local | apply hess_only_lift | apply hess_only_write
      | apply hess_only_bind; [| intros ?] ].
Qed.

(** The values of [np.arange] for a positive step. *)
Lemma arange_sorted (start step : Q) (n : nat) :
  (0 < step)%Q ->
  forall a : nat,
    StronglySorted Qlt
      (map (fun k => (start + inject_Z (Z.of_nat k) * step)%Q) (seq a n)).
Proof.
  intros Hstep. induction n as [| n IH]; intros a; simpl; constructor.
  - apply IH.
  - apply List.Forall_forall. intros f Hf.
    apply in_map_iff in Hf as (k & <- & Hk). apply in_seq in Hk.
    apply Qplus_lt_r. apply Qmult_lt_compat_r; [exact Hstep |].
    rewrite <- Zlt_Qlt. lia.
Qed.

Lemma np_arange_positive_step (start stop step : Q) :
  (0 < step)%Q ->
  exists fcs : list Q,
    np_arange start stop step = Ok fcs
    /\ fcs = map (fun k => (start + inject_Z (Z.of_nat k) * step)%Q)
                 (seq 0 (length fcs))
    /\ (forall f, In f fcs -> (f < stop)%Q)
    /\ (stop <= start + inject_Z (Z.of_nat (length fcs)) * step)%Q
    /\ StronglySorted Qlt fcs.
Proof.
  intros Hstep. unfold np_arange.
  destruct (Qeq_bool step 0) eqn:E.
  { apply Qeq_bool_iff in E. rewrite E in Hstep.
    exfalso. exact (Qlt_irrefl 0 Hstep). }
  set (x := ((stop - start) / step)%Q).
  set (n := Z.to_nat (Qceiling x)).
  assert (Hx : (x * step == stop - start)%Q).
  { unfold x. rewrite Qmult_comm. apply Qmult_div_r.
    intros H0. rewrite H0 in Hstep. exact (Qlt_irrefl 0 Hstep). }
  eexists. split; [reflexivity |].
  rewrite length_map, length_seq. split; [reflexivity |]. split; [| split].
  - intros f Hf. apply in_map_iff in Hf as (k & <- & Hk).
    apply in_seq in Hk.
    assert (Hkx : (inject_Z (Z.of_nat k) < x)%Q).
    { apply Qle_lt_trans with (inject_Z (Qceiling x - 1)).
      - rewrite <- Zle_Qle. lia.
      - apply Qceiling_lt. }
    apply (Qmult_lt_compat_r _ _ step Hstep) in Hkx.
    rewrite Hx in Hkx. lra.
  - assert (Hxn : (x <= inject_Z (Z.of_nat n))%Q).
    { apply Qle_trans with (inject_Z (Qceiling x)); [apply Qle_ceiling |].
      rewrite <- Zle_Qle. lia. }
    apply (Qmult_le_compat_r _ _ step) in Hxn; [| lra].
    rewrite Hx in Hxn. lra.
  - apply arange_sorted. exact Hstep.
Qed.

Lemma nth_error_last {A} (l : list A) (d : A) :
  forall a : A, nth_error (a :: l) (length l) = Some (List.last (a :: l) d).
Proof.
  induction l as [| b l IH]; intros a; [reflexivity |].
  cbn [length nth_error]. rewrite IH. reflexivity.
Qed.

Lemma getlast_last {A} (l : list A) (d : A) :
  l <> [] -> getlast l = Ok (List.last l d).
Proof.
  destruct l as [| a l]; [congruence |]. intros _.
  unfold getlast, getitem.
  replace (length (a :: l) - 1)%nat with (length l) by (simpl; lia).
  rewrite (nth_error_last l d a). reflexivity.
Qed.

Lemma get_profile_for_biased_optimization_run (conformer : Conformer)
    (fc : Q) (w : World) :
  biased_trajectory conformer fc <> [] ->
  exists w',
    get_profile_for_biased_optimization biased_trajectory conformer fc w
    = (Ok (profile_of conformer fc), w')
    /\ xtb_calls w' = xtb_calls w ++ [xtb_opt_biased conformer fc].
Proof.
  intros Hne. unfold get_profile_for_biased_optimization, bind, lift.
  unfold xtb_optimize_with_applied_potentials.
  destruct (biased_trajectory conformer fc) as [| st log] eqn:E;
    [congruence |].
  destruct (getlast (map step_atoms (st :: log))) as [a |] eqn:Ea.
  2:{ unfold getlast, getitem in Ea. cbn [map length] in Ea.
      destruct (nth_error _ _) eqn:En in Ea; [discriminate |].
      apply nth_error_None in En. cbn [length] in En.
      rewrite length_map in En. lia. }
  destruct (getlast (map step_coords (st :: log))) as [c |] eqn:Ec.
  2:{ unfold getlast, getitem in Ec. cbn [map length] in Ec.
      destruct (nth_error _ _) eqn:En in Ec; [discriminate |].
      apply nth_error_None in En. cbn [length] in En.
      rewrite length_map in En. lia. }
  eexists. split.
  - unfold write_xyz_file_from_atoms_and_coords, ret, profile_of.
    rewrite E. reflexivity.
  - reflexivity.
Qed.

(** One turn of the scan on a run that logs at least one step. *)
Lemma scan_body_run (conformer : Conformer) (fc : Q)
    (s : Locals Atoms Coords) (w : World) :
  biased_trajectory conformer fc <> [] ->
  exists w',
    xtb_calls w' = xtb_calls w ++ [xtb_opt_biased conformer fc]
    /\ (((0.01 < final_potential conformer fc)%Q
         /\ scan_body biased_trajectory conformer fc s w
            = (Ok (Continue
                     {| profile := Some (profile_of conformer fc);
                        force_constant := Some fc;
                        preliminary_ts_guess_index :=
                          preliminary_ts_guess_index Atoms Coords s |}),
               w'))
        \/ ((final_potential conformer fc <= 0.01)%Q
            /\ exists idx : nat,
                get_ts_guess_index (energies (profile_of conformer fc))
                                   (potentials (profile_of conformer fc))
                = Ok idx
                /\ (idx < length (atoms (profile_of conformer fc)))%nat
                /\ scan_body biased_trajectory conformer fc s w
                   = (Ok (Break
                            {| profile := Some (profile_of conformer fc);
                               force_constant := Some fc;
                               preliminary_ts_guess_index := Some idx |}),
                      w'))).
Proof.
  intros Hne.
  destruct (get_profile_for_biased_optimization_run conformer fc w Hne)
    as (w' & Hrun & Hcalls).
  exists w'. split; [exact Hcalls |].
  unfold scan_body, bind. rewrite Hrun. unfold lift.
  assert (Hlast : getlast (potentials (profile_of conformer fc))
                  = Ok (final_potential conformer fc)).
  { apply getlast_last. unfold profile_of. cbn [potentials].
    destruct (biased_trajectory conformer fc); [congruence | discriminate]. }
  rewrite Hlast.
  destruct (Qgtb (final_potential conformer fc) 0.01) eqn:E.
  - left. apply Qgtb_true in E. split; [exact E | reflexivity].
  - right. apply Qgtb_false in E. split; [exact E |].
    destruct (get_ts_guess_index_spec
                (energies (profile_of conformer fc))
                (potentials (profile_of conformer fc)))
      as (idx & Hidx & Hlt & _).
    { unfold profile_of. cbn [energies].
      destruct (biased_trajectory conformer fc); [congruence | discriminate]. }
    { unfold profile_of. cbn [energies potentials].
      rewrite !length_map. reflexivity. }
    exists idx. split; [exact Hidx |]. split.
    + unfold profile_of in *. cbn [energies atoms] in *.
      rewrite length_map in *. exact Hlt.
    + rewrite Hidx. reflexivity.
Qed.

(** The loop over the force constants [fcs]. *)
Lemma scan_loop (conformer : Conformer) (fcs : list Q) :
  forall (s : Locals Atoms Coords) (w : World),
    (forall fc, In fc fcs -> biased_trajectory conformer fc <> []) ->
    exists s' w',
      for_each fcs (scan_body biased_trajectory conformer) s w
      = (Ok (Below s'), w')
      /\ ((exists pre fc post idx,
              fcs = pre ++ fc :: post
              /\ (forall f, In f pre ->
                            (0.01 < final_potential conformer f)%Q)
              /\ (final_potential conformer fc <= 0.01)%Q
              /\ get_ts_guess_index (energies (profile_of conformer fc))
                                    (potentials (profile_of conformer fc))
                 = Ok idx
              /\ (idx < length (atoms (profile_of conformer fc)))%nat
              /\ s' = {| profile := Some (profile_of conformer fc);
                         force_constant := Some fc;
                         preliminary_ts_guess_index := Some idx |}
              /\ xtb_calls w'
                 = xtb_calls w
                   ++ map (xtb_opt_biased conformer) (pre ++ [fc]))
          \/ ((forall f, In f fcs ->
                         (0.01 < final_potential conformer f)%Q)
              /\ preliminary_ts_guess_index Atoms Coords s'
                 = preliminary_ts_guess_index Atoms Coords s
              /\ (fcs = [] -> s' = s)
              /\ (fcs <> [] ->
                  exists f, In f fcs
                            /\ profile Atoms Coords s'
                               = Some (profile_of conformer f))
              /\ xtb_calls w'
                 = xtb_calls w ++ map (xtb_opt_biased conformer) fcs)).
Proof.
  induction fcs as [| fc fcs IH]; intros s w Hne.
  - exists s, w. split; [reflexivity |]. right.
    repeat split; [intros f [] | congruence
                   | cbn [map]; rewrite app_nil_r; reflexivity].
  - cbn [for_each]. unfold bind at 1.
    destruct (scan_body_run conformer fc s w) as (w1 & Hc1 & Hcase).
    { apply Hne. left. reflexivity. }
    destruct Hcase as [[Hgt ->] | (Hle & idx & Hidx & Hlt & ->)].
    + match goal with
      | |- context [for_each fcs _ ?s1 w1] =>
          destruct (IH s1 w1) as (s' & w' & Hrun & Hcases)
      end.
      { intros f Hf. apply Hne. right. exact Hf. }
      exists s', w'. split; [exact Hrun |].
      destruct Hcases
        as [(pre & f & post & i & -> & Hpre & Hf & Hi & Hil & -> & Hc)
           | (Hall & Hp & Hnil & Hcons & Hc)].
      * left. exists (fc :: pre), f, post, i.
        repeat split; auto.
        -- intros f' [<- | Hin]; [exact Hgt | apply Hpre; exact Hin].
        -- rewrite Hc, Hc1, <- app_assoc. reflexivity.
      * right. split; [| split; [| split; [| split]]].
        -- intros f [<- | Hin]; [exact Hgt | apply Hall; exact Hin].
        -- exact Hp.
        -- discriminate.
        -- intros _. destruct fcs as [| f2 fcs2].
           ++ rewrite (Hnil eq_refl). exists fc.
              split; [left; reflexivity | reflexivity].
           ++ destruct Hcons as (f & Hin & Hprof); [discriminate |].
              exists f. split; [right; exact Hin | exact Hprof].
        -- rewrite Hc, Hc1, <- app_assoc. reflexivity.
    + eexists _, w1. split; [reflexivity |]. left.
      exists [], fc, fcs, idx. repeat split; auto. intros f [].
Qed.

Lemma snd_returned_file (r : result Filename * World) :
  snd (returned_file r) = snd r.
Proof. destruct r as [[f | e] w]; reflexivity. Qed.

(** What [find_ts_guess] does with the first conformer of its list. *)
Lemma find_ts_guess_first_conformer (conformer : Conformer)
    (rest : list Conformer) (charge : Z) (fc_min fc_max fc_delta : Q)
    (w : World) :
  (0 < fc_delta)%Q ->
  (forall fc, biased_trajectory conformer fc <> []) ->
  exists fcs : list Q,
    np_arange fc_min fc_max fc_delta = Ok fcs
    /\ ((exists pre fc post idx w1,
            fcs = pre ++ fc :: post
            /\ (forall f, In f pre ->
                          (0.01 < final_potential conformer f)%Q)
            /\ (final_potential conformer fc <= 0.01)%Q
            /\ get_ts_guess_index (energies (profile_of conformer fc))
                                  (potentials (profile_of conformer fc))
               = Ok idx
            /\ (idx < length (atoms (profile_of conformer fc)))%nat
            /\ xtb_calls w1
               = xtb_calls w ++ map (xtb_opt_biased conformer) (pre ++ [fc])
            /\ find_ts_guess biased_trajectory hess_negative_frequencies
                 (conformer :: rest) charge fc_min fc_max fc_delta w
               = returned_file
                   (get_final_ts_guess_geometry hess_negative_frequencies
                      idx (atoms (profile_of conformer fc))
                      (coords (profile_of conformer fc)) fc charge w1))
        \/ ((forall f, In f fcs ->
                       (0.01 < final_potential conformer f)%Q)
            /\ exists w1,
                xtb_calls w1
                = xtb_calls w ++ map (xtb_opt_biased conformer) fcs
                /\ find_ts_guess biased_trajectory hess_negative_frequencies
                     (conformer :: rest) charge fc_min fc_max fc_delta w
                   = (match fcs with
                      | [] => Raise UnboundLocalError
                      | _ :: _ => Ok None
                      end, w1))).
Proof.
  intros Hdelta Hne.
  destruct (np_arange_positive_step fc_min fc_max fc_delta Hdelta)
    as (fcs & Hfcs & _).
  exists fcs. split; [exact Hfcs |].
  unfold find_ts_guess. cbn [for_each]. unfold conformer_body.
  unfold bind, lift. rewrite Hfcs.
  match goal with
  | |- context [for_each fcs _ ?s0 w] =>
      destruct (scan_loop conformer fcs s0 w) as (s' & w1 & Hrun & Hcases)
  end.
  { intros fc _. apply Hne. }
  rewrite Hrun. cbn [preliminary_ts_guess_index] in Hcases.
  destruct Hcases
    as [(pre & fc & post & idx & -> & Hpre & Hfc & Hidx & Hlt & -> & Hc)
       | (Hall & Hp & Hnil & Hcons & Hc)].
  - left. exists pre, fc, post, idx, w1. repeat split; auto.
    cbn [preliminary_ts_guess_index profile force_constant local].
    unfold ret.
    destruct (get_final_ts_guess_geometry _ _ _ _ _ _ w1) as [[f | e] w2];
      reflexivity.
  - right. split; [exact Hall |]. exists w1. split; [exact Hc |].
    rewrite Hp.
    destruct fcs as [| f0 fcs0].
    + rewrite (Hnil eq_refl). reflexivity.
    + destruct Hcons as (f & _ & Hprof); [discriminate |].
      rewrite Hprof. cbn [local]. unfold ret.
      rewrite (getlast_last _ 0%Q); [reflexivity |].
      unfold profile_of. cbn [potentials].
      specialize (Hne f).
      destruct (biased_trajectory conformer f); [congruence | discriminate].
Qed.


(** When the range is not empty and every run of the first conformer
    ends above 0.01, the result is [None]. *)
Lemma find_ts_guess_exhausted (conformer : Conformer)
    (rest : list Conformer) (charge : Z) (fc_min fc_max fc_delta : Q)
    (w : World) :
  (0 < fc_delta)%Q -> (fc_min < fc_max)%Q ->
  (forall fc, biased_trajectory conformer fc <> []) ->
  (forall fc, (0.01 < final_potential conformer fc)%Q) ->
  fst (find_ts_guess biased_trajectory hess_negative_frequencies
         (conformer :: rest) charge fc_min fc_max fc_delta w)
  = Ok None.
Proof.
  intros Hdelta Hrange Hne Hall.
  destruct (np_arange_positive_step fc_min fc_max fc_delta Hdelta)
    as (fcs & Hfcs & _ & _ & Hcomplete & _).
  destruct (find_ts_guess_first_conformer conformer rest charge
              fc_min fc_max fc_delta w Hdelta Hne)
    as (fcs' & Hfcs' & Hcases).
  assert (fcs' = fcs) by congruence. subst fcs'.
  destruct Hcases
    as [(pre & fc & post & idx & w1 & _ & _ & Hfc & _)
       | (_ & w1 & _ & Hrun)].
  - exfalso. specialize (Hall fc). lra.
  - rewrite Hrun. destruct fcs; [| reflexivity].
    exfalso. cbn [length] in Hcomplete.
    change (inject_Z (Z.of_nat 0)) with 0%Q in Hcomplete. lra.
Qed.

(** The body of the loop over the conformers never falls through to the
    next conformer: it returns or raises. *)
Lemma conformer_body_returns (charge : Z) (fc_min fc_max fc_delta : Q)
    (conformer : Conformer) (s : Locals Atoms Coords) (w : World) :
  match conformer_body biased_trajectory hess_negative_frequencies
          charge fc_min fc_max fc_delta conformer s w with
  | (Ok (Return _), _) | (Raise _, _) => True
  | (Ok (Continue _), _) | (Ok (Break _), _) => False
  end.
Proof.
  unfold conformer_body, bind, lift, ret, local, raise.
  repeat match goal with
         | |- context [match ?x with _ => _ end] =>
             lazymatch x with
             | context [match _ with _ => _ end] => fail
             | _ => destruct x
             end
         end; exact I.
Qed.

(** The conformers after the first one play no part. *)
Lemma find_ts_guess_first_conformer_only (conformer : Conformer)
    (rest : list Conformer) (charge : Z) (fc_min fc_max fc_delta : Q)
    (w : World) :
  find_ts_guess biased_trajectory hess_negative_frequencies
    (conformer :: rest) charge fc_min fc_max fc_delta w
  = find_ts_guess biased_trajectory hess_negative_frequencies
      [conformer] charge fc_min fc_max fc_delta w.
Proof.
  unfold find_ts_guess. cbn [for_each]. unfold bind.
  pose proof (conformer_body_returns charge fc_min fc_max fc_delta
                conformer (unbound Atoms Coords) w) as H.
  destruct (conformer_body _ _ _ _ _ _ _ _ w) as [[[s' | s' | v] | e] w'];
    try contradiction; reflexivity.
Qed.

End Scan.

(** ** Concrete runs *)




(** C4 (failing input). On a trajectory of one step whose report lists no
    negative frequency the only candidate is given to the frequency
    calculation twice, not once. *)
Lemma get_final_ts_guess_geometry_repeats_frequency_calculation :
  range 0 (Nat.min (0 + 6) (length [0%nat])) = [0%nat]
  /\ xtb_calls
       (snd (get_final_ts_guess_geometry (Conformer := nat) scenario_hess 0
               [0%nat] [0%nat] 0.02 0 no_calls))
     = [xtb_hess (0, 0)%nat 0; xtb_hess (0, 0)%nat 0].
Proof. split; reflexivity. Qed.

(** C5 (failing input). With two representative conformers, the first
    never reaching the product and the second reaching it at once, the
    result is [None], all the biased runs are runs of conformer 0, and
    conformer 1 alone would have given a guess. *)
Lemma find_ts_guess_leaves_second_conformer :
  fst (find_ts_guess scenario_trajectory scenario_hess [0; 1]%nat 0
         0.02 0.2 0.05 no_calls)
  = Ok None
  /\ map fst
       (biased_runs nat nat nat
          (xtb_calls
             (snd (find_ts_guess scenario_trajectory scenario_hess
                     [0; 1]%nat 0 0.02 0.2 0.05 no_calls))))
     = [0; 0; 0; 0]%nat
  /\ exists fc : Q,
      fst (find_ts_guess scenario_trajectory scenario_hess [1%nat] 0
             0.02 0.2 0.05 no_calls)
      = Ok (Some (ts_guess_xyz fc))
      /\ (fc == 0.02)%Q.
Proof.
  split; [reflexivity |]. split; [reflexivity |].
  eexists. split; reflexivity.
Qed.

(** C6 (failing input). On an empty range, [fc_min = 1.0] with the default
    [fc_max = 0.9], no run reaches the product and the function raises
    UnboundLocalError at [print(potentials[-1])] instead of returning
    [None]. *)
Lemma find_ts_guess_empty_range_raises :
  np_arange 1.0 0.9 0.05 = Ok []
  /\ (forall fc : Q,
         (0.01 < final_potential nat nat nat scenario_trajectory 0%nat fc)%Q)
  /\ find_ts_guess scenario_trajectory scenario_hess [0%nat] 0
       1.0 0.9 0.05 no_calls
     = (Raise UnboundLocalError, no_calls).
Proof.
  split; [reflexivity |]. split; [intros fc; reflexivity | reflexivity].
Qed.

(* ================================================================== *)
(** * Part III: further properties of the module *)
(* ================================================================== *)

(** ** [get_ts_guess_index]: rejected inputs and uniqueness *)

(** An empty list of energies, and two lists of different lengths neither
    of which has length one, make [get_ts_guess_index] raise ValueError:
    [max] of an empty list in the first case, the subtraction of the arrays
    in the second. *)
Theorem get_ts_guess_index_value_error :
  (forall potentials : list Q,
      get_ts_guess_index [] potentials = Raise ValueError)
  /\ (forall energies potentials : list Q,
         length energies <> length potentials ->
         length energies <> 1%nat -> length potentials <> 1%nat ->
         get_ts_guess_index energies potentials = Raise ValueError).
Proof.
  split.
  - intros [| y [| z p]]; reflexivity.
  - intros e p Hne He Hp. unfold get_ts_guess_index, np_sub.
    destruct (Nat.eqb_spec (length e) (length p)) as [Heq | _];
      [contradiction |].
    destruct e as [| x [| x' e]]; destruct p as [| y [| y' p]];
      simpl in *; congruence.
Qed.

Lemma get_ts_guess_index_value_error_witness :
  get_ts_guess_index [1; 2; 3]%Q [0; 0]%Q = Raise ValueError.
Proof.
  apply (proj2 get_ts_guess_index_value_error [1; 2; 3]%Q [0; 0]%Q);
    simpl; lia.
Defined.



(** ** [determine_potential]: errors, key orientation, force constant *)

Lemma getitem_ok_iff {A} (l : list A) (i : nat) :
  (exists x, getitem l i = Ok x) <-> (i < length l)%nat.
Proof.
  unfold getitem. destruct (nth_error l i) as [x |] eqn:E.
  - split; [intros _ | eauto]. apply nth_error_Some. congruence.
  - split; [intros [x Hx]; discriminate |].
    intros Hi. apply nth_error_None in E. lia.
Qed.

Lemma getitem_raises {A} (l : list A) (i : nat) (e : exn) :
  getitem l i = Raise e -> e = IndexError /\ (length l <= i)%nat.
Proof.
  unfold getitem. destruct (nth_error l i) eqn:E; [discriminate |].
  intros [= <-]. split; [reflexivity | apply nth_error_None; exact E].
Qed.

Lemma matrix_get_raises (coords : list Point) (i j : nat) (e : exn) :
  matrix_get (distance_matrix coords coords) i j = Raise e ->
  e = IndexError /\ ((length coords <= i)%nat \/ (length coords <= j)%nat).
Proof.
  unfold matrix_get, distance_matrix.
  destruct (getitem (map (fun p => map (euclidean p) coords) coords) i)
    as [row | e'] eqn:Ei; cbn [result_bind].
  - intros Hj. apply getitem_raises in Hj as [-> Hj].
    split; [reflexivity |]. right.
    unfold getitem in Ei.
    destruct (nth_error _ i) as [row' |] eqn:En in Ei; [| discriminate].
    injection Ei as ->.
    apply nth_error_In, in_map_iff in En as (p & <- & _).
    rewrite length_map in Hj. exact Hj.
  - intros [= <-]. apply getitem_raises in Ei as [-> Hi].
    split; [reflexivity |]. left. rewrite length_map in Hi. exact Hi.
Qed.

Lemma potential_of_step_raises (coords : list Point)
    (items : list ((nat * nat) * R)) (k : R) (e : exn) :
  forall potential : R,
    potential_of_step (distance_matrix coords coords) items k potential
    = Raise e ->
    e = IndexError
    /\ exists item, In item items
                    /\ ((length coords <= fst (fst item))%nat
                        \/ (length coords <= snd (fst item))%nat).
Proof.
  induction items as [| [key val] rest IH]; intros potential;
    cbn [potential_of_step]; [discriminate |].
  destruct (matrix_get (distance_matrix coords coords) (fst key) (snd key))
    as [d | e'] eqn:Em; cbn [result_bind].
  - intros H. destruct (IH _ H) as (-> & item & Hin & Hbad).
    split; [reflexivity |]. exists item. split; [right; exact Hin | exact Hbad].
  - intros [= <-]. apply matrix_get_raises in Em as [-> Hbad].
    split; [reflexivity |]. exists (key, val).
    split; [left; reflexivity | exact Hbad].
Qed.

Lemma potential_of_step_ok (coords : list Point)
    (items : list ((nat * nat) * R)) (k : R) :
  forall potential v : R,
    potential_of_step (distance_matrix coords coords) items k potential
    = Ok v ->
    keys_in_range coords items.
Proof.
  induction items as [| [key val] rest IH]; intros potential v;
    cbn [potential_of_step]; [intros _ item [] |].
  destruct (matrix_get (distance_matrix coords coords) (fst key) (snd key))
    as [d | e'] eqn:Em; cbn [result_bind]; [| discriminate].
  intros H item [<- | Hin]; [| exact (IH _ _ H item Hin)].
  cbn [fst snd]. unfold matrix_get, distance_matrix in Em.
  destruct (getitem (map (fun p => map (euclidean p) coords) coords)
                    (fst key)) as [row | e'] eqn:Ei;
    cbn [result_bind] in Em; [| discriminate].
  assert (Hi : (fst key < length coords)%nat).
  { rewrite <- (length_map (fun p => map (euclidean p) coords)).
    apply getitem_ok_iff. eauto. }
  split; [exact Hi |].
  unfold getitem in Ei.
  destruct (nth_error _ (fst key)) as [row' |] eqn:En in Ei; [| discriminate].
  injection Ei as ->.
  apply nth_error_In, in_map_iff in En as (p & <- & _).
  rewrite <- (length_map (euclidean p)). apply getitem_ok_iff. eauto.
Qed.



Lemma euclidean_sym (p q : Point) : euclidean p q = euclidean q p.
Proof.
  destruct p as [[x1 y1] z1], q as [[x2 y2] z2]. unfold euclidean.
  f_equal. ring.
Qed.

Lemma matrix_get_sym (coords : list Point) (i j : nat) :
  matrix_get (distance_matrix coords coords) j i
  = matrix_get (distance_matrix coords coords) i j.
Proof.
  destruct (Nat.lt_ge_cases i (length coords)) as [Hi | Hi];
    destruct (Nat.lt_ge_cases j (length coords)) as [Hj | Hj].
  - rewrite !matrix_get_distance by assumption.
    unfold distance. rewrite euclidean_sym. reflexivity.
  - destruct (matrix_get (distance_matrix coords coords) j i) as [v | e] eqn:E1.
    + exfalso. unfold matrix_get in E1.
      destruct (getitem (distance_matrix coords coords) j) as [row |] eqn:Er;
        [| discriminate].
      assert (j < length (distance_matrix coords coords))%nat
        by (apply getitem_ok_iff; eauto).
      unfold distance_matrix in *. rewrite length_map in *. lia.
    + apply matrix_get_raises in E1 as [-> _].
      destruct (matrix_get (distance_matrix coords coords) i j) as [v | e] eqn:E2.
      * exfalso.
        assert (Hr : keys_in_range coords [((i, j), 0%R)]).
        { apply (potential_of_step_ok coords _ 1%R 0%R
                   (0 + 1 * angstrom_to_bohr (v - 0) ^ 2)%R).
          cbn [potential_of_step fst snd]. rewrite E2. reflexivity. }
        destruct (Hr ((i, j), 0%R)) as [_ H]; [left; reflexivity |].
        cbn [fst snd] in H. lia.
      * apply matrix_get_raises in E2 as [-> _]. reflexivity.
  - destruct (matrix_get (distance_matrix coords coords) i j) as [v | e] eqn:E1.
    + exfalso. unfold matrix_get in E1.
      destruct (getitem (distance_matrix coords coords) i) as [row |] eqn:Er;
        [| discriminate].
      assert (i < length (distance_matrix coords coords))%nat
        by (apply getitem_ok_iff; eauto).
      unfold distance_matrix in *. rewrite length_map in *. lia.
    + apply matrix_get_raises in E1 as [-> _].
      destruct (matrix_get (distance_matrix coords coords) j i) as [v | e] eqn:E2.
      * exfalso.
        assert (Hr : keys_in_range coords [((j, i), 0%R)]).
        { apply (potential_of_step_ok coords _ 1%R 0%R
                   (0 + 1 * angstrom_to_bohr (v - 0) ^ 2)%R).
          cbn [potential_of_step fst snd]. rewrite E2. reflexivity. }
        destruct (Hr ((j, i), 0%R)) as [_ H]; [left; reflexivity |].
        cbn [fst snd] in H. lia.
      * apply matrix_get_raises in E2 as [-> _]. reflexivity.
  - destruct (matrix_get (distance_matrix coords coords) i j) as [v | e] eqn:E1;
      destruct (matrix_get (distance_matrix coords coords) j i) as [v' | e']
        eqn:E2.
    + exfalso. unfold matrix_get in E1.
      destruct (getitem (distance_matrix coords coords) i) as [row |] eqn:Er;
        [| discriminate].
      assert (i < length (distance_matrix coords coords))%nat
        by (apply getitem_ok_iff; eauto).
      unfold distance_matrix in *. rewrite length_map in *. lia.
    + exfalso. unfold matrix_get in E1.
      destruct (getitem (distance_matrix coords coords) i) as [row |] eqn:Er;
        [| discriminate].
      assert (i < length (distance_matrix coords coords))%nat
        by (apply getitem_ok_iff; eauto).
      unfold distance_matrix in *. rewrite length_map in *. lia.
    + exfalso. unfold matrix_get in E2.
      destruct (getitem (distance_matrix coords coords) j) as [row |] eqn:Er;
        [| discriminate].
      assert (j < length (distance_matrix coords coords))%nat
        by (apply getitem_ok_iff; eauto).
      unfold distance_matrix in *. rewrite length_map in *. lia.
    + apply matrix_get_raises in E1 as [-> _].
      apply matrix_get_raises in E2 as [-> _]. reflexivity.
Qed.

Lemma potential_of_step_swap (coords : list Point)
    (items : list ((nat * nat) * R)) (k : R) :
  forall potential : R,
    potential_of_step (distance_matrix coords coords) (map swap_key items)
                      k potential
    = potential_of_step (distance_matrix coords coords) items k potential.
Proof.
  induction items as [| [[i j] val] rest IH]; intros potential;
    [reflexivity |].
  cbn [map swap_key potential_of_step fst snd].
  rewrite (matrix_get_sym coords i j).
  destruct (matrix_get (distance_matrix coords coords) i j);
    cbn [result_bind]; [apply IH | reflexivity].
Qed.

(** The potential does not depend on the order in which a constraint names
    its two atoms: exchanging the atoms of every key gives the same
    potentials, and the same error. *)
Theorem determine_potential_key_orientation (all_coords : list (list Point))
    (constraints : list ((nat * nat) * R)) (k : R) :
  determine_potential all_coords (map swap_key constraints) k
  = determine_potential all_coords constraints k.
Proof.
  induction all_coords as [| coords rest IH]; [reflexivity |].
  cbn [determine_potential]. rewrite potential_of_step_swap, IH.
  reflexivity.
Qed.

(** The potential is proportional to the force constant: the potentials
    with the force constant [k] are [k] times those with the force
    constant 1. *)
Theorem determine_potential_proportional (all_coords : list (list Point))
    (constraints : list ((nat * nat) * R)) (k : R) :
  (forall coords, In coords all_coords -> keys_in_range coords constraints) ->
  exists unit_potentials : list R,
    determine_potential all_coords constraints 1 = Ok unit_potentials
    /\ determine_potential all_coords constraints k
       = Ok (map (Rmult k) unit_potentials).
Proof.
  intros Hr. induction all_coords as [| coords rest IH].
  - exists []. split; reflexivity.
  - destruct IH as (ps & H1 & Hk);
      [intros c Hc; apply Hr; right; exact Hc |].
    cbn [determine_potential].
    rewrite !potential_of_step_sum by (apply Hr; left; reflexivity).
    cbn [result_bind]. rewrite H1, Hk. cbn [result_bind].
    eexists. split; [reflexivity |]. cbn [map]. do 2 f_equal. ring.
Qed.

Lemma determine_potential_proportional_witness :
  exists unit_potentials : list R,
    determine_potential [[(0, 0, 0); (3, 0, 0)]%R] [((0%nat, 1%nat), 2%R)] 1
    = Ok unit_potentials
    /\ determine_potential [[(0, 0, 0); (3, 0, 0)]%R]
                           [((0%nat, 1%nat), 2%R)] 5
       = Ok (map (Rmult 5) unit_potentials).
Proof.
  apply (determine_potential_proportional
           [[(0, 0, 0); (3, 0, 0)]%R] [((0%nat, 1%nat), 2%R)] 5%R).
  intros coords [<- | []] item [<- | []]. simpl. split; lia.
Defined.

(** ** [get_distance] *)

Lemma sum_squares_nonneg (l : list R) :
  (0 <= np_sum (map (fun x => x ^ 2) l))%R.
Proof.
  unfold np_sum. induction l as [| x l IH]; cbn [map fold_right]; [lra |].
  pose proof (pow2_ge_0 x) as H. lra.
Qed.

Lemma sum_squares_zip_sym (a b : list R) :
  np_sum (map (fun x => x ^ 2) (zip_sub_R a b))%R
  = np_sum (map (fun x => x ^ 2) (zip_sub_R b a))%R.
Proof.
  unfold np_sum.
  revert b. induction a as [| x a IH]; intros [| y b];
    cbn [zip_sub_R map fold_right]; try reflexivity.
  rewrite IH. ring.
Qed.

Lemma sum_squares_broadcast_sym (x : R) (b : list R) :
  np_sum (map (fun x => x ^ 2) (map (fun y => x - y) b))%R
  = np_sum (map (fun x => x ^ 2) (map (fun y => y - x) b))%R.
Proof.
  unfold np_sum.
  induction b as [| y b IH]; cbn [map fold_right]; [reflexivity |].
  rewrite IH. ring.
Qed.

Lemma sum_squares_zip_zero (a b : list R) :
  length a = length b ->
  np_sum (map (fun x => x ^ 2) (zip_sub_R a b))%R = 0%R <-> a = b.
Proof.
  revert b. induction a as [| x a IH]; intros [| y b] Hlen;
    cbn [length] in Hlen; try discriminate; [simpl; tauto |].
  pose proof (sum_squares_nonneg (zip_sub_R a b)) as Hn.
  pose proof (pow2_ge_0 (x - y)) as Hx.
  specialize (IH b ltac:(lia)).
  cbn [zip_sub_R map]. unfold np_sum in *. cbn [fold_right].
  split.
  - intros H.
    assert (Hz : ((x - y) ^ 2 = 0)%R) by lra.
    assert (Hs : fold_right Rplus 0%R
                   (map (fun x => x ^ 2) (zip_sub_R a b))%R = 0%R) by lra.
    simpl in Hz. apply Rmult_integral in Hz.
    assert (x = y) by lra. subst y. f_equal.
    apply IH. exact Hs.
  - intros [= <- <-]. rewrite (proj2 IH eq_refl). ring.
Qed.

(** [get_distance] is symmetric and never negative; on two arrays of the
    same length it is zero exactly when they are equal; and on two points
    it is the entry of the distance matrix that [determine_potential]
    uses. *)
Theorem get_distance_metric :
  (forall a b : list R, get_distance a b = get_distance b a)
  /\ (forall (a b : list R) (d : R), get_distance a b = Ok d -> (0 <= d)%R)
  /\ (forall a b : list R, length a = length b ->
         get_distance a b = Ok 0%R <-> a = b)
  /\ (forall x1 y1 z1 x2 y2 z2 : R,
         get_distance [x1; y1; z1] [x2; y2; z2]
         = Ok (euclidean (x1, y1, z1) (x2, y2, z2))).
Proof.
  split; [| split; [| split]].
  - intros a b. unfold get_distance, np_sub_R.
    rewrite (Nat.eqb_sym (length b) (length a)).
    destruct (Nat.eqb_spec (length a) (length b)) as [Heq | Hne].
    + cbn [result_bind]. rewrite sum_squares_zip_sym. reflexivity.
    + destruct a as [| x [| x' a]]; destruct b as [| y [| y' b]];
        cbn [result_bind length] in *; try reflexivity; try lia.
      * f_equal. f_equal.
        apply (sum_squares_broadcast_sym x (y :: y' :: b)).
      * f_equal. f_equal. symmetry.
        apply (sum_squares_broadcast_sym y (x :: x' :: a)).
  - intros a b d. unfold get_distance.
    destruct (np_sub_R a b) as [l | e]; cbn [result_bind]; [| discriminate].
    intros [= <-]. apply sqrt_pos.
  - intros a b Hlen. unfold get_distance, np_sub_R.
    rewrite Hlen, Nat.eqb_refl. cbn [result_bind].
    rewrite <- (sum_squares_zip_zero a b Hlen).
    pose proof (sum_squares_nonneg (zip_sub_R a b)) as Hn. split.
    + intros [= H]. apply sqrt_eq_0 in H; assumption.
    + intros ->. rewrite sqrt_0. reflexivity.
  - intros x1 y1 z1 x2 y2 z2. unfold get_distance, np_sub_R, euclidean.
    cbn [length Nat.eqb zip_sub_R result_bind map np_sum fold_right].
    do 2 f_equal. ring.
Qed.

Lemma get_distance_metric_witness :
  get_distance [1; 2; 3]%R [1; 2; 3]%R = Ok 0%R.
Proof.
  apply (proj1 (proj2 (proj2 get_distance_metric)) [1; 2; 3]%R [1; 2; 3]%R);
    reflexivity.
Defined.

(** ** The representatives and the conformers that are scanned *)

Lemma clusters_after_first_cluster (m : Matrix) (k : nat) :
  exists t rest, clusters_after m (S k) = (0%nat :: t) :: rest.
Proof.
  induction k as [| k (t & rest & IH)].
  - exists [], []. reflexivity.
  - rewrite clusters_after_S.
    destruct (cluster_step_first_fit m (S k) (clusters_after m (S k)))
      as [(pre & c & post & Heq & _ & _ & ->) | [_ ->]].
    + rewrite IH in Heq. destruct pre as [| c0 pre]; cbn [app] in Heq;
        injection Heq as H1 H2; subst.
      * exists (t ++ [S k]), post. reflexivity.
      * eexists _, _. reflexivity.
    + rewrite IH. eexists _, _. reflexivity.
Qed.

(** The list of representatives is empty for no conformer and otherwise
    starts with the first conformer file, whatever the pairwise values
    are. *)
Theorem generate_additional_conformers_first_file :
  forall (A : Type) (GetBestRMS : nat -> nat -> Q),
    generate_additional_conformers GetBestRMS (@nil A) = Ok []
    /\ forall (file : A) (files : list A),
        exists reps : list A,
          generate_additional_conformers GetBestRMS (file :: files)
          = Ok (file :: reps).
Proof.
  intros A G. split; [reflexivity |]. intros file files.
  destruct (generate_additional_conformers_first_members G (file :: files))
    as (reps & Hreps & Hfirst).
  destruct (clusters_after_first_cluster
              (rmsd_matrix G (length (file :: files))) (length files))
    as (t & rest & Hc).
  unfold count_unique_conformers in Hfirst. cbn [length] in Hfirst.
  cbn [length] in Hc. rewrite Hc in Hfirst.
  inversion Hfirst as [| c r cs rs (h & [t' Ht] & Hnth) Hrest]; subst.
  injection Ht as <- _. cbn [nth_error] in Hnth. injection Hnth as <-.
  exists rs. exact Hreps.
Qed.

Section ScanExtras.

Variables Atoms Coords Conformer : Type.
Variable biased_trajectory : Conformer -> Q -> list (Step Atoms Coords).
Variable hess_negative_frequencies :
  Geometry Atoms Coords -> Z -> option (list Q).

Local Abbreviation World := (World Atoms Coords Conformer).
Local Abbreviation final_potential :=
  (final_potential Atoms Coords Conformer biased_trajectory).
Local Abbreviation profile_of :=
  (profile_of Atoms Coords Conformer biased_trajectory).

(** From the list of optimised conformer files on, only the first file is
    ever scanned: the result and the world after [find_ts_guess] on the
    representatives are those of [find_ts_guess] on the first file alone. *)
Theorem find_ts_guess_scans_first_file_only (GetBestRMS : nat -> nat -> Q)
    (file : Conformer) (files : list Conformer) (charge : Z)
    (fc_min fc_max fc_delta : Q) (w : World) :
  exists conformers_to_do : list Conformer,
    generate_additional_conformers GetBestRMS (file :: files)
    = Ok conformers_to_do
    /\ find_ts_guess biased_trajectory hess_negative_frequencies
         conformers_to_do charge fc_min fc_max fc_delta w
       = find_ts_guess biased_trajectory hess_negative_frequencies
           [file] charge fc_min fc_max fc_delta w.
Proof.
  destruct (generate_additional_conformers_first_members GetBestRMS
              (file :: files)) as (reps & Hreps & Hfirst).
  destruct (clusters_after_first_cluster
              (rmsd_matrix GetBestRMS (length (file :: files)))
              (length files)) as (t & rest & Hc).
  unfold count_unique_conformers in Hfirst. cbn [length] in Hfirst, Hc.
  rewrite Hc in Hfirst.
  inversion Hfirst as [| c r cs rs (h & [t' Ht] & Hnth) Hrest]; subst.
  injection Ht as <- _. cbn [nth_error] in Hnth. injection Hnth as <-.
  exists (file :: rs). split; [exact Hreps |].
  apply find_ts_guess_first_conformer_only.
Qed.



End ScanExtras.

(** ** The footprint of the validation *)

Section ValidationExtras.

Variables Atoms Coords Conformer : Type.
Variable hess_negative_frequencies :
  Geometry Atoms Coords -> Z -> option (list Q).
Variables (atoms : list Atoms) (coords : list Coords).
Variables (force_constant : Q) (charge : Z).

Local Abbreviation World := (World Atoms Coords Conformer).
Local Abbreviation M := (M Atoms Coords Conformer).
Local Abbreviation file := (ts_guess_xyz force_constant).
Local Abbreviation geometry_at := (geometry_at Atoms Coords atoms coords).
Local Abbreviation single_imaginary :=
  (single_imaginary Atoms Coords hess_negative_frequencies charge).
Local Abbreviation hess_calls :=
  (hess_calls Atoms Coords Conformer hess_negative_frequencies atoms coords
              charge).
Local Abbreviation writes_only := (writes_only Atoms Coords Conformer file).
Local Abbreviation biased_runs := (biased_runs Atoms Coords Conformer).

Lemma writes_only_ret {A} (a : A) : writes_only (ret a).
Proof. intros w f _. reflexivity. Qed.

Lemma writes_only_lift {A} (r : result A) :
  writes_only (lift Atoms Coords Conformer r).
Proof. intros w f _. reflexivity. Qed.

Lemma writes_only_local {A} (v : option A) :
  writes_only (local Atoms Coords Conformer v).
Proof. destruct v; intros w f _; reflexivity. Qed.

Lemma writes_only_len (nf : option (list Q)) :
  writes_only (len_neg_freq Atoms Coords Conformer nf).
Proof. destruct nf; intros w f _; reflexivity. Qed.

Lemma writes_only_bind {A B} (c : M A) (k : A -> M B) :
  writes_only c -> (forall a, writes_only (k a)) -> writes_only (bind c k).
Proof.
  intros Hc Hk w f Hf. unfold bind. specialize (Hc w f Hf).
  destruct (c w) as [[a | e] w']; simpl in *.
  - rewrite (Hk a w' f Hf). exact Hc.
  - exact Hc.
Qed.

Lemma writes_only_write (a : Atoms) (c : Coords) :
  writes_only (write_xyz_file_from_atoms_and_coords Atoms Coords Conformer
                 a c file).
Proof.
  intros w f Hf. unfold write_xyz_file_from_atoms_and_coords, read_file.
  cbn [snd files write_file lookup_file]. rewrite Hf. reflexivity.
Qed.

Lemma writes_only_get_negative_frequencies (f0 : Filename) :
  writes_only (get_negative_frequencies Atoms Coords Conformer
                 hess_negative_frequencies f0 charge).
Proof.
  intros w f _. unfold get_negative_frequencies.
  destruct (read_file w f0); reflexivity.
Qed.

Lemma writes_only_for_each {X S R} (xs : list X)
    (body : X -> S -> M (flow S R)) :
  (forall x s, writes_only (body x s)) ->
  forall s, writes_only (for_each xs body s).
Proof.
  intros Hbody. induction xs as [| x xs IH]; intros s.
  - apply writes_only_ret.
  - cbn [for_each]. apply writes_only_bind; [apply Hbody |].
    intros [s' | s' | v]; [apply IH | apply writes_only_ret ..].
Qed.


Lemma hess_calls_length (n : nat) :
  forall a : nat, (length (hess_calls (seq a n)) <= 2 * n)%nat.
Proof.
  induction n as [| n IH]; intros a; [simpl; lia |].
  cbn [seq]. unfold hess_calls. fold hess_calls.
  destruct (geometry_at a) as [g |]; [| simpl; lia].
  destruct (single_imaginary g); cbn [length]; [lia |].
  specialize (IH (S a)). lia.
Qed.

Lemma hess_calls_candidates (n : nat) :
  forall (a : nat) (call : XtbCall Atoms Coords Conformer),
    In call (hess_calls (seq a n)) ->
    exists j g, (a <= j < a + n)%nat /\ geometry_at j = Some g
                /\ call = xtb_hess g charge.
Proof.
  induction n as [| n IH]; intros a call; [intros [] |].
  cbn [seq]. unfold hess_calls. fold hess_calls.
  destruct (geometry_at a) as [g |] eqn:Hg; [| intros []].
  assert (Hhere : exists j g0, (a <= j < a + S n)%nat
                               /\ geometry_at j = Some g0
                               /\ xtb_hess (Conformer := Conformer) g charge
                                  = xtb_hess g0 charge).
  { exists a, g. split; [lia |]. split; [exact Hg | reflexivity]. }
  destruct (single_imaginary g).
  - intros [<- | []]. exact Hhere.
  - intros [<- | [<- | Hin]]; [exact Hhere | exact Hhere |].
    destruct (IH (S a) call Hin) as (j & g0 & Hj & Hg0 & Hcall).
    exists j, g0. split; [lia |]. split; assumption.
Qed.

(** On a selected index within the trajectory the validation makes at most
    twelve frequency calculations, all of them on geometries of the steps
    [i, ..., min(i + 6, len) - 1], and returns the guess file. *)
Theorem get_final_ts_guess_geometry_calls (i : nat) (w : World) :
  (i < length atoms)%nat ->
  length coords = length atoms ->
  (forall j g, (i <= j < Nat.min (i + 6) (length atoms))%nat ->
               geometry_at j = Some g ->
               hess_negative_frequencies g charge <> None) ->
  exists (w' : World) (calls : list (XtbCall Atoms Coords Conformer)),
    get_final_ts_guess_geometry hess_negative_frequencies i atoms coords
                                force_constant charge w
    = (Ok file, w')
    /\ xtb_calls w' = xtb_calls w ++ calls
    /\ (length calls <= 12)%nat
    /\ forall call, In call calls ->
         exists j g, (i <= j < Nat.min (i + 6) (length atoms))%nat
                     /\ geometry_at j = Some g
                     /\ call = xtb_hess g charge.
Proof.
  intros Hi Hlen Hrep.
  set (n := (Nat.min (i + 6) (length atoms) - i)%nat).
  assert (Hn : (i + n = Nat.min (i + 6) (length atoms))%nat) by lia.
  assert (Hgeo : forall j, (j < length atoms)%nat -> geometry_at j <> None).
  { intros j Hj.
    destruct (geometry_at_in_bounds Atoms Coords atoms coords j Hlen Hj)
      as [g ->]. discriminate. }
  destruct (validation_loop Atoms Coords Conformer hess_negative_frequencies
              atoms coords force_constant charge i n i None w)
    as (r & w' & Hrun & Hcases).
  { intros j g Hj. apply Hrep. lia. }
  { intros j Hj. apply Hgeo. lia. }
  unfold get_final_ts_guess_geometry, range. fold n.
  unfold bind at 1. rewrite Hrun.
  destruct Hcases as [(j & g & Hj & Hg & Hs & Hbefore & -> & Hread & Hc)
                     | (Hnone & nfi' & -> & _ & Hinit & Hc)].
  - exists w', (hess_calls (seq i (S j - i))).
    split; [reflexivity |]. split; [exact Hc |]. split.
    + pose proof (hess_calls_length (S j - i) i). lia.
    + intros call Hin.
      destruct (hess_calls_candidates _ _ _ Hin) as (j' & g' & Hj' & Hrest).
      exists j', g'. split; [lia | exact Hrest].
  - destruct (geometry_at_in_bounds Atoms Coords atoms coords i Hlen Hi)
      as [g Hg].
    destruct (geometry_at_getitem Atoms Coords atoms coords i g Hg)
      as [Ha Hcs].
    destruct nfi' as [nf |]; [| exfalso; apply Hinit; [lia | reflexivity]].
    exists (write_file Atoms Coords Conformer file g w'),
           (hess_calls (seq i n)).
    split.
    { cbn [local]. unfold bind, ret, lift. rewrite Ha, Hcs.
      unfold write_xyz_file_from_atoms_and_coords.
      destruct g; reflexivity. }
    split; [exact Hc |]. split.
    + pose proof (hess_calls_length n i). lia.
    + intros call Hin.
      destruct (hess_calls_candidates _ _ _ Hin) as (j' & g' & Hj' & Hrest).
      exists j', g'. split; [lia | exact Hrest].
Qed.

End ValidationExtras.


Lemma get_final_ts_guess_geometry_calls_witness :
  exists (w' : World nat nat nat) (calls : list (XtbCall nat nat nat)),
    get_final_ts_guess_geometry scenario_hess 2 (seq 0 7) (seq 0 7) 0.02 0
                                no_calls
    = (Ok (ts_guess_xyz 0.02), w')
    /\ xtb_calls w' = xtb_calls no_calls ++ calls
    /\ (length calls <= 12)%nat.
Proof.
  destruct (get_final_ts_guess_geometry_calls nat nat nat scenario_hess
              (seq 0 7) (seq 0 7) 0.02 0%Z 2%nat no_calls)
    as (w' & calls & Hrun & Hc & Hlen & _).
  - simpl. lia.
  - reflexivity.
  - intros j g _ _. unfold scenario_hess.
    destruct (fst g =? 6)%nat; discriminate.
  - exists w', calls. repeat split; assumption.
Defined.



(** ** The constraint sets of [find_ts_guess] *)

Lemma split_on_cons (sep : Ascii.ascii) (s : string) :
  exists piece pieces, split_on sep s = piece :: pieces.
Proof.
  induction s as [| c rest (piece & pieces & IH)]; simpl; [eauto |].
  destruct (Ascii.eqb c sep); [eauto |]. rewrite IH. eauto.
Qed.

(** The number of pieces is one more than the number of separators: a
    string splits into one piece exactly when the separator does not occur
    in it. *)
Lemma split_on_one_piece (sep : Ascii.ascii) (s : string) :
  (length (split_on sep s) =? 1)%nat = negb (occurs sep s).
Proof.
  induction s as [| c rest IH]; [reflexivity |]. simpl.
  destruct (split_on_cons sep rest) as (piece & pieces & Hs).
  destruct (Ascii.eqb c sep); simpl.
  - rewrite Hs. reflexivity.
  - rewrite Hs in IH |- *. exact IH.
Qed.

Lemma add_missing_union (constraints borrowed : gmap (nat * nat) Q) :
  add_missing constraints borrowed = constraints ∪ borrowed.
Proof.
  unfold add_missing.
  apply (map_fold_weak_ind (fun r m => r = constraints ∪ m)).
  - rewrite (right_id_L ∅ (∪)). reflexivity.
  - intros key val m r Hm ->.
    destruct (decide (is_Some ((constraints ∪ m) !! key))) as [Hs | Hn].
    + apply map_eq. intros k. rewrite !lookup_union.
      destruct (decide (k = key)) as [-> | Hne].
      * rewrite lookup_insert_eq, Hm. rewrite lookup_union, Hm in Hs.
        destruct (constraints !! key); [reflexivity |].
        destruct Hs as [v Hv]. discriminate.
      * rewrite lookup_insert_ne by congruence. reflexivity.
    + rewrite insert_union_r; [reflexivity |].
      destruct (constraints !! key) as [v |] eqn:E; [| reflexivity].
      exfalso. apply Hn. rewrite lookup_union, E.
      destruct (m !! key); eauto.
Qed.

(** The constraints for the reactant geometry keep every breaking
    constraint with its own distance.  When the reactant SMILES has one
    component they are the breaking constraints and nothing else; when it
    has several, a pair without a breaking constraint gets twice its
    formation distance, if it has one.  The constraints for the product
    geometry are built the same way with the two roles exchanged. *)
Theorem find_ts_guess_constraints (smiles : string)
    (formation breaking : gmap (nat * nat) Q) :
  (forall key v, breaking !! key = Some v ->
                 reactant_constraints smiles formation breaking !! key
                 = Some v)
  /\ (occurs "."%char smiles = false ->
      reactant_constraints smiles formation breaking = breaking)
  /\ (occurs "."%char smiles = true ->
      forall key, breaking !! key = None ->
                  reactant_constraints smiles formation breaking !! key
                  = Qmult 2 <$> formation !! key)
  /\ (forall key v, formation !! key = Some v ->
                    product_constraints smiles formation breaking !! key
                    = Some v)
  /\ (occurs "."%char smiles = false ->
      product_constraints smiles formation breaking = formation)
  /\ (occurs "."%char smiles = true ->
      forall key, formation !! key = None ->
                  product_constraints smiles formation breaking !! key
                  = Qmult 2 <$> breaking !! key).
Proof.
  unfold reactant_constraints, product_constraints, stretched.
  rewrite split_on_one_piece, negb_involutive, !add_missing_union.
  repeat split.
  - intros key v Hv. destruct (occurs "."%char smiles); [| exact Hv].
    rewrite lookup_union, Hv.
    destruct ((Qmult 2 <$> formation) !! key); reflexivity.
  - intros ->. reflexivity.
  - intros -> key Hk. rewrite lookup_union, Hk, lookup_fmap.
    destruct (formation !! key); reflexivity.
  - intros key v Hv. destruct (occurs "."%char smiles); [| exact Hv].
    rewrite lookup_union, Hv.
    destruct ((Qmult 2 <$> breaking) !! key); reflexivity.
  - intros ->. reflexivity.
  - intros -> key Hk. rewrite lookup_union, Hk, lookup_fmap.
    destruct (breaking !! key); reflexivity.
Qed.

Lemma find_ts_guess_constraints_witness :
  reactant_constraints "[C:1].[O:2]" {[ (0, 1)%nat := 3 # 2 ]} ∅
    !! (0, 1)%nat
  = Qmult 2 <$> ({[ (0, 1)%nat := 3 # 2 ]} : gmap (nat * nat) Q)
                  !! (0, 1)%nat.
Proof.
  apply (proj1 (proj2 (proj2 (find_ts_guess_constraints
           "[C:1].[O:2]" {[ (0, 1)%nat := 3 # 2 ]} ∅)))).
  - reflexivity.
  - apply lookup_empty.
Defined.

(** ** Cis/trans assignment *)


Lemma find_cis_trans_elements_marked (mol : StereoMol) (j k : nat)
    (stereo : BondStereo) :
  (j, k, stereo) ∈ find_cis_trans_elements mol
  <-> marked mol j k stereo /\ (stereo = STEREOZ \/ stereo = STEREOE).
Proof.
  unfold find_cis_trans_elements, marked.
  rewrite list_elem_of_In, in_flat_map. split.
  - intros (bond & Hin & Hel).
    destruct (bool_decide_reflect (GetBondType bond = DOUBLE)) as [Hd |];
      [| destruct Hel].
    destruct (bool_decide_reflect (GetStereo bond = STEREOZ)) as [Hz | Hz];
      destruct (bool_decide_reflect (GetStereo bond = STEREOE)) as [He | He];
      cbn in Hel; try (destruct Hel as [Hel | []]; inversion Hel; subst;
      (split; [exists bond; repeat split; auto | auto])); destruct Hel.
  - intros ((bond & Hin & Hd & Hj & Hk & Hs) & Hze).
    exists bond. split; [exact Hin |].
    rewrite (bool_decide_eq_true_2 _ Hd). subst.
    destruct Hze as [Hz | He].
    + rewrite (bool_decide_eq_true_2 _ Hz). left. reflexivity.
    + rewrite (bool_decide_eq_true_2 _ He), orb_true_r. left. reflexivity.
Qed.


Lemma assign_cis_trans_loop_returns (mol : StereoMol)
    (elements : list (nat * nat * BondStereo)) (involved_atoms : list Z)
    (bonds : list StereoBond) :
  forall calls out,
    assign_cis_trans_loop mol elements involved_atoms bonds calls
    = Returns out ->
    exists added,
      out = calls ++ added
      /\ forall d, In d added
                   <-> exists bond, In bond bonds
                                    /\ sets mol elements involved_atoms bond d.
Proof.
  induction bonds as [| bond rest IH]; intros calls out H; cbn in H.
  - inversion H; subst. exists []. split; [now rewrite app_nil_r |].
    intros d. split; [intros [] | intros (b & [] & _)].
  - assert (Hskip :
      (forall d, ~ sets mol elements involved_atoms bond d) ->
      assign_cis_trans_loop mol elements involved_atoms rest calls
      = Returns out ->
      exists added,
        out = calls ++ added
        /\ forall d, In d added
                     <-> exists b, In b (bond :: rest)
                                   /\ sets mol elements involved_atoms b d).
    { intros Hno Hrest. destruct (IH _ _ Hrest) as (added & Hout & Hin).
      exists added. split; [exact Hout |]. intros d. rewrite Hin. split.
      - intros (b & Hb & Hs). exists b. split; [now right | exact Hs].
      - intros (b & [<- | Hb] & Hs); [destruct (Hno _ Hs) |].
        exists b. split; assumption. }
    assert (Hset : forall d,
      sets mol elements involved_atoms bond d ->
      (forall d', sets mol elements involved_atoms bond d' -> d' = d) ->
      assign_cis_trans_loop mol elements involved_atoms rest (calls ++ [d])
      = Returns out ->
      exists added,
        out = calls ++ added
        /\ forall d0, In d0 added
                      <-> exists b, In b (bond :: rest)
                                    /\ sets mol elements involved_atoms b d0).
    { intros d Hd Huniq Hrest. destruct (IH _ _ Hrest) as (added & Hout & Hin).
      exists (d :: added). split; [now rewrite Hout, <- app_assoc |].
      intros d0. cbn [In]. rewrite Hin. split.
      - intros [<- | (b & Hb & Hs)].
        + exists bond. split; [now left | exact Hd].
        + exists b. split; [now right | exact Hs].
      - intros (b & [<- | Hb] & Hs).
        + left. symmetry. apply Huniq, Hs.
        + right. exists b. split; assumption. }
    destruct (bool_decide_reflect (GetBondType bond = DOUBLE)) as [Hd | Hd].
    2: { apply Hskip; [| exact H]. intros d (Hd' & _). contradiction. }
    destruct (reference_neighbor mol involved_atoms (GetBeginAtomIdx bond))
      as [i |] eqn:Hi.
    2: { apply Hskip; [| exact H].
         intros d (_ & Hj & _ & Hri & _). rewrite Hj in Hri. congruence. }
    destruct (reference_neighbor mol involved_atoms (GetEndAtomIdx bond))
      as [l |] eqn:Hl.
    2: { apply Hskip; [| exact H].
         intros d (_ & _ & Hk & _ & Hrl & _). rewrite Hk in Hrl. congruence. }
    assert (Huniq : forall d d',
      sets mol elements involved_atoms bond d ->
      sets mol elements involved_atoms bond d' -> d' = d).
    { intros [i1 j1 k1 l1 a1] [i2 j2 k2 l2 a2]
             (_ & Hj1 & Hk1 & Hi1 & Hl1 & Ha1) (_ & Hj2 & Hk2 & Hi2 & Hl2 & Ha2).
      cbn in *. subst j1 k1 j2 k2.
      assert (i2 = i1) by congruence. assert (l2 = l1) by congruence.
      subst. f_equal.
      destruct Ha1 as [(-> & Hz1) | (-> & _ & Hn1)],
               Ha2 as [(-> & Hz2) | (-> & _ & Hn2)];
        try reflexivity; contradiction. }
    destruct (bool_decide_reflect
                ((GetBeginAtomIdx bond, GetEndAtomIdx bond, STEREOZ)
                 ∈ elements)) as [Hz | Hz].
    { eapply Hset; [| | exact H].
      - repeat split; cbn; auto.
      - intros d' Hd'. eapply Huniq; [| exact Hd'].
        repeat split; cbn; auto. }
    destruct (bool_decide_reflect
                ((GetBeginAtomIdx bond, GetEndAtomIdx bond, STEREOE)
                 ∈ elements)) as [He | He]; [| discriminate H].
    eapply Hset; [| | exact H].
    + repeat split; cbn; auto.
    + intros d' Hd'. eapply Huniq; [| exact Hd'].
      repeat split; cbn; auto.
Qed.

Lemma assign_cis_trans_loop_key_error (mol : StereoMol)
    (elements : list (nat * nat * BondStereo)) (involved_atoms : list Z)
    (bonds : list StereoBond) :
  forall calls,
    (forall e, assign_cis_trans_loop mol elements involved_atoms bonds calls
               <> Raises e)
    /\ (assign_cis_trans_loop mol elements involved_atoms bonds calls
        = RaisesKeyError
        <-> exists bond,
             In bond bonds
             /\ has_references mol involved_atoms bond
             /\ ((GetBeginAtomIdx bond, GetEndAtomIdx bond, STEREOZ)
                ∉ elements)
             /\ ((GetBeginAtomIdx bond, GetEndAtomIdx bond, STEREOE)
                ∉ elements)).
Proof.
  induction bonds as [| bond rest IH]; intros calls; cbn.
  - split; [discriminate |]. split; [discriminate | intros (b & [] & _)].
  - assert (Hskip : forall calls',
      ~ (has_references mol involved_atoms bond
         /\ ((GetBeginAtomIdx bond, GetEndAtomIdx bond, STEREOZ) ∉ elements)
         /\ ((GetBeginAtomIdx bond, GetEndAtomIdx bond, STEREOE) ∉ elements)) ->
      (forall e, assign_cis_trans_loop mol elements involved_atoms rest calls'
                 <> Raises e)
      /\ (assign_cis_trans_loop mol elements involved_atoms rest calls'
          = RaisesKeyError
          <-> exists b,
               In b (bond :: rest)
               /\ has_references mol involved_atoms b
               /\ ((GetBeginAtomIdx b, GetEndAtomIdx b, STEREOZ) ∉ elements)
               /\ ((GetBeginAtomIdx b, GetEndAtomIdx b, STEREOE) ∉ elements))).
    { intros calls' Hno. destruct (IH calls') as [Hr Hk].
      split; [exact Hr |]. rewrite Hk. split.
      - intros (b & Hb & Hs). exists b. split; [now right | exact Hs].
      - intros (b & [<- | Hb] & Hs); [destruct (Hno Hs) |].
        exists b. split; assumption. }
    destruct (bool_decide_reflect (GetBondType bond = DOUBLE)) as [Hd | Hd].
    2: { apply Hskip. intros ((Hd' & _) & _). contradiction. }
    destruct (reference_neighbor mol involved_atoms (GetBeginAtomIdx bond))
      as [i |] eqn:Hi.
    2: { apply Hskip. intros ((_ & Hri & _) & _). congruence. }
    destruct (reference_neighbor mol involved_atoms (GetEndAtomIdx bond))
      as [l |] eqn:Hl.
    2: { apply Hskip. intros ((_ & _ & Hrl) & _). congruence. }
    destruct (bool_decide_reflect
                ((GetBeginAtomIdx bond, GetEndAtomIdx bond, STEREOZ)
                 ∈ elements)) as [Hz | Hz].
    { apply Hskip. intros (_ & Hnz & _). contradiction. }
    destruct (bool_decide_reflect
                ((GetBeginAtomIdx bond, GetEndAtomIdx bond, STEREOE)
                 ∈ elements)) as [He | He].
    { apply Hskip. intros (_ & _ & Hne). contradiction. }
    split; [discriminate |]. split; [| reflexivity].
    intros _. exists bond. split; [now left |].
    repeat split; auto; congruence.
Qed.

(** When [assign_cis_trans_from_geometry] returns, the dihedral
    angles it has set are exactly these: one for every double bond of the
    embedded molecule both of whose atoms have a neighbour with a map
    number among the involved atoms.  The angle is set around that bond,
    between the first such neighbour on either side; it is 0 when the
    molecule of the SMILES string has a double bond marked Z between the
    same two atom indices in the same direction, and 180 when it has one
    marked E there and none marked Z. *)
Theorem assign_cis_trans_from_geometry_dihedrals
    (mol mol_with_stereo : StereoMol) (involved_atoms : list Z)
    (calls : list Dihedral) :
  assign_cis_trans_from_geometry mol mol_with_stereo involved_atoms
  = Returns calls ->
  forall d,
    In d calls
    <-> exists bond,
         In bond (GetStereoBonds mol)
         /\ GetBondType bond = DOUBLE
         /\ atomj_idx d = GetBeginAtomIdx bond
         /\ atomk_idx d = GetEndAtomIdx bond
         /\ reference_neighbor mol involved_atoms (atomj_idx d)
            = Some (atomi_idx d)
         /\ reference_neighbor mol involved_atoms (atomk_idx d)
            = Some (atoml_idx d)
         /\ ((angle d = 0%Z
              /\ marked mol_with_stereo (atomj_idx d) (atomk_idx d) STEREOZ)
             \/ (angle d = 180%Z
                 /\ marked mol_with_stereo (atomj_idx d) (atomk_idx d) STEREOE
                 /\ ~ marked mol_with_stereo (atomj_idx d) (atomk_idx d)
                      STEREOZ)).
Proof.
  unfold assign_cis_trans_from_geometry. intros H d.
  destruct (assign_cis_trans_loop_returns _ _ _ _ _ _ H)
    as (added & Hout & Hin).
  cbn in Hout. subst calls. rewrite Hin.
  assert (Hz : forall j k,
    (j, k, STEREOZ) ∈ find_cis_trans_elements mol_with_stereo
    <-> marked mol_with_stereo j k STEREOZ).
  { intros j k. rewrite find_cis_trans_elements_marked. intuition. }
  assert (He : forall j k,
    (j, k, STEREOE) ∈ find_cis_trans_elements mol_with_stereo
    <-> marked mol_with_stereo j k STEREOE).
  { intros j k. rewrite find_cis_trans_elements_marked. intuition. }
  unfold sets. split.
  - intros (bond & Hb & Hd & Hj & Hk & Hi & Hl & Ha).
    exists bond. repeat (split; [assumption |]).
    destruct Ha as [(Ha & Hm) | (Ha & Hm & Hn)].
    + left. split; [exact Ha | now apply Hz].
    + right. split; [exact Ha |]. split; [now apply He |].
      intros Hm'. apply Hn. now apply Hz.
  - intros (bond & Hb & Hd & Hj & Hk & Hi & Hl & Ha).
    exists bond. repeat (split; [assumption |]).
    destruct Ha as [(Ha & Hm) | (Ha & Hm & Hn)].
    + left. split; [exact Ha | now apply Hz].
    + right. split; [exact Ha |]. split; [now apply He |].
      intros Hm'. apply Hn. now apply Hz.
Qed.

Lemma assign_cis_trans_from_geometry_dihedrals_witness :
  assign_cis_trans_from_geometry chain_embedded chain_with_stereo [1; 4]%Z
  = Returns [ {| atomi_idx := 0; atomj_idx := 1; atomk_idx := 2;
                 atoml_idx := 3; angle := 0 |} ]
  /\ exists bond,
       In bond (GetStereoBonds chain_embedded)
       /\ GetBondType bond = DOUBLE
       /\ 1%nat = GetBeginAtomIdx bond
       /\ 2%nat = GetEndAtomIdx bond.
Proof.
  split; [reflexivity |].
  destruct (proj1 (assign_cis_trans_from_geometry_dihedrals
                     chain_embedded chain_with_stereo [1; 4]%Z _ eq_refl
                     {| atomi_idx := 0; atomj_idx := 1; atomk_idx := 2;
                        atoml_idx := 3; angle := 0 |})
                  (or_introl eq_refl))
    as (bond & Hb & Hd & Hj & Hk & _).
  exists bond. repeat split; assumption.
Defined.


(** ** Reading the optimisation log *)

Section EnergyCoordsFileProperties.

Variable Float : Type.
Variable float : string -> option Float.

(** One turn of the outer loop, with the inner loop taken out. *)
Lemma read_lines_cons (line next : Line) (rest : list Line)
    (energy_line : option Line) (all_energies : list Float)
    (all_coords : list (list (list Float))) (all_atoms : list (list string)) :
  read_lines float (line :: next :: rest) energy_line all_energies all_coords
             all_atoms
  = if (length line =? 1)%nat then
      if startswith_energy next then
        match next with
        | _ :: value :: _ =>
            match float value with
            | None => Raise ValueError
            | Some energy_value =>
                match read_geometry float rest [] [] with
                | Raise e => Raise e
                | Ok (coords, atoms, remaining) =>
                    read_lines float remaining (Some next)
                               (all_energies ++ [energy_value])
                               (all_coords ++ [coords])
                               (all_atoms ++ [atoms])
                end
            end
        | _ => Raise IndexError
        end
      else unexpected_line energy_line
    else unexpected_line energy_line.
Proof.
  cbn [read_lines].
  destruct (length line =? 1)%nat; [| reflexivity].
  destruct (startswith_energy next); [| reflexivity].
  destruct next as [| tag [| value more]]; try reflexivity.
  destruct (float value) as [energy_value |]; [| reflexivity].
  match goal with
  | |- ?geometry rest [] [] = _ =>
      enough (Hgen : forall coords atoms,
                 geometry rest coords atoms
                 = match read_geometry float rest coords atoms with
                   | Raise e => Raise e
                   | Ok (coords, atoms, remaining) =>
                       read_lines float remaining
                                  (Some (tag :: value :: more))
                                  (all_energies ++ [energy_value])
                                  (all_coords ++ [coords])
                                  (all_atoms ++ [atoms])
                   end) by apply Hgen
  end.
  induction rest as [| l ls IH]; intros coords atoms.
  - reflexivity.
  - cbn [read_geometry].
    destruct (negb (length l =? 1)%nat) eqn:Hl.
    + destruct l as [| symbol numbers]; [reflexivity |].
      destruct (floats float numbers) as [row | e]; [| reflexivity].
      apply IH.
    + reflexivity.
Qed.

Lemma floats_raises (tokens : list string) (e : exn) :
  floats float tokens = Raise e -> e = ValueError.
Proof.
  induction tokens as [| token tokens IH]; cbn; [discriminate |].
  destruct (float token); [| congruence].
  destruct (floats float tokens); [discriminate |].
  intros H. inversion H; subst. now apply IH.
Qed.

(** What the inner loop reads and what it leaves. *)
Lemma read_geometry_ok (ls : list Line) :
  forall coords atoms coords' atoms' remaining,
    read_geometry float ls coords atoms = Ok (coords', atoms', remaining) ->
    exists rows symbols,
      coords' = coords ++ rows /\ atoms' = atoms ++ symbols
      /\ length rows = length symbols
      /\ length ls = (length symbols + length remaining)%nat.
Proof.
  induction ls as [| l ls IH]; intros coords atoms coords' atoms' remaining H;
    cbn in H.
  - inversion H; subst. exists [], []. now rewrite !app_nil_r.
  - destruct (negb (length l =? 1)%nat).
    + destruct l as [| symbol numbers]; [discriminate |].
      destruct (floats float numbers) as [row | e]; [| discriminate].
      destruct (IH _ _ _ _ _ H) as (rows & symbols & -> & -> & Hlen & Hls).
      exists (row :: rows), (symbol :: symbols).
      rewrite <- !app_assoc. cbn. repeat split; lia.
    + inversion H; subst. exists [], []. now rewrite !app_nil_r.
Qed.

Lemma read_geometry_raises (ls : list Line) :
  forall coords atoms e,
    read_geometry float ls coords atoms = Raise e ->
    e = IndexError \/ e = ValueError.
Proof.
  induction ls as [| l ls IH]; intros coords atoms e H; cbn in H.
  - discriminate.
  - destruct (negb (length l =? 1)%nat); [| discriminate].
    destruct l as [| symbol numbers]; [left; congruence |].
    destruct (floats float numbers) as [row | e'] eqn:Hf.
    + eapply IH, H.
    + right. inversion H; subst. eapply floats_raises, Hf.
Qed.

(** The loop appends to what it has read, one energy, one array and one
    list of atoms for every geometry, and every line it passes belongs to
    one of them. *)
Lemma read_lines_ok (n : nat) :
  forall lines energy_line all_energies all_coords all_atoms
         energies coords atoms,
    (length lines <= n)%nat ->
    read_lines float lines energy_line all_energies all_coords all_atoms
    = Ok (energies, coords, atoms) ->
    exists energies' coords' atoms',
      energies = all_energies ++ energies'
      /\ coords = all_coords ++ coords'
      /\ atoms = all_atoms ++ atoms'
      /\ length coords' = length energies'
      /\ List.Forall2 (fun c a => length c = length a) coords' atoms'
      /\ length lines
         = (2 * length energies' + list_sum (map (@length _) atoms'))%nat.
Proof.
  induction n as [| n IH];
    intros lines energy_line E C A energies coords atoms Hn H.
  - destruct lines; [| cbn in Hn; lia]. cbn in H. inversion H; subst.
    exists [], [], []. rewrite !app_nil_r.
    repeat (split; [reflexivity |]). split; [constructor | reflexivity].
  - destruct lines as [| line [| next rest]].
    + cbn in H. inversion H; subst.
      exists [], [], []. rewrite !app_nil_r.
      repeat (split; [reflexivity |]). split; [constructor | reflexivity].
    + cbn in H. destruct (length line =? 1)%nat; [discriminate |].
      destruct energy_line; discriminate.
    + rewrite read_lines_cons in H.
      destruct (length line =? 1)%nat;
        [| destruct energy_line; discriminate].
      destruct (startswith_energy next);
        [| destruct energy_line; discriminate].
      destruct next as [| tag [| value more]]; try discriminate.
      destruct (float value) as [energy_value |]; [| discriminate].
      destruct (read_geometry float rest [] [])
        as [[[block_coords block_atoms] remaining] | e] eqn:Hg;
        [| discriminate].
      destruct (read_geometry_ok _ _ _ _ _ _ Hg)
        as (rows & symbols & Hc & Ha & Hlen & Hrest).
      cbn in Hc, Ha. subst block_coords block_atoms.
      apply IH in H; [| cbn in Hn; lia].
      destruct H as (E' & C' & A' & -> & -> & -> & HCE & HCA & Hlines).
      exists (energy_value :: E'), (rows :: C'), (symbols :: A').
      rewrite <- !app_assoc. cbn [app].
      repeat (split; [reflexivity |]).
      split; [cbn; lia |]. split; [constructor; assumption |].
      unfold list_sum in *. cbn [length map fold_right]. lia.
Qed.

(** Once [energy_line] is bound, the loop does not raise
    UnboundLocalError. *)
Lemma read_lines_bound (n : nat) :
  forall lines energy_line all_energies all_coords all_atoms,
    (length lines <= n)%nat ->
    read_lines float lines (Some energy_line) all_energies all_coords
               all_atoms
    <> Raise UnboundLocalError.
Proof.
  induction n as [| n IH]; intros lines energy_line E C A Hn.
  - destruct lines; [discriminate | cbn in Hn; lia].
  - destruct lines as [| line [| next rest]].
    + discriminate.
    + cbn. destruct (length line =? 1)%nat; discriminate.
    + rewrite read_lines_cons.
      destruct (length line =? 1)%nat; [| discriminate].
      destruct (startswith_energy next); [| discriminate].
      destruct next as [| tag [| value more]]; try discriminate.
      destruct (float value) as [energy_value |]; [| discriminate].
      destruct (read_geometry float rest [] [])
        as [[[block_coords block_atoms] remaining] | e] eqn:Hg.
      * destruct (read_geometry_ok _ _ _ _ _ _ Hg)
          as (rows & symbols & _ & _ & _ & Hrest).
        apply IH. cbn in Hn. lia.
      * destruct (read_geometry_raises _ _ _ _ Hg) as [-> | ->];
          discriminate.
Qed.

(** When [read_energy_coords_file] returns, it returns as many
    arrays of coordinates and as many lists of atoms as energies, every
    array has one row for each atom of its list, and every line of the
    file has been read: the file has two lines for every energy and one
    line for every atom. *)
Theorem read_energy_coords_file_lines (lines : list Line)
    (all_energies : list Float) (all_coords : list (list (list Float)))
    (all_atoms : list (list string)) :
  read_energy_coords_file float lines
  = Ok (all_energies, all_coords, all_atoms) ->
  length all_coords = length all_energies
  /\ length all_atoms = length all_energies
  /\ List.Forall2 (fun coords atoms => length coords = length atoms)
                  all_coords all_atoms
  /\ length lines
     = (2 * length all_energies
        + list_sum (map (@length _) all_atoms))%nat.
Proof.
  unfold read_energy_coords_file. intros H.
  apply (read_lines_ok (length lines)) in H; [| lia].
  destruct H as (E' & C' & A' & -> & -> & -> & HCE & HCA & Hlines).
  cbn. pose proof (List.Forall2_length HCA) as HA.
  repeat split; auto; lia.
Qed.

(** [read_energy_coords_file] raises UnboundLocalError exactly when
    the file starts otherwise than with a line of one token followed by a
    line that starts with "energy:"; the ValueError of the [else] branch
    is then never raised, because its message reads [energy_line]. *)
Theorem read_energy_coords_file_unbound (lines : list Line) :
  read_energy_coords_file float lines = Raise UnboundLocalError
  <-> exists first rest,
       lines = first :: rest
       /\ (length first <> 1%nat
           \/ exists second rest',
               rest = second :: rest'
               /\ startswith_energy second = false).
Proof.
  unfold read_energy_coords_file. split.
  - intros H. destruct lines as [| line [| next rest]].
    + discriminate.
    + exists line, []. split; [reflexivity |]. left.
      cbn in H. destruct (Nat.eqb_spec (length line) 1); [discriminate |].
      assumption.
    + exists line, (next :: rest). split; [reflexivity |].
      rewrite read_lines_cons in H.
      destruct (Nat.eqb_spec (length line) 1) as [Hl | Hl]; [| now left].
      right. exists next, rest. split; [reflexivity |].
      destruct (startswith_energy next) eqn:Hs; [| reflexivity].
      destruct next as [| tag [| value more]]; try discriminate.
      destruct (float value) as [energy_value |]; [| discriminate].
      destruct (read_geometry float rest [] [])
        as [[[block_coords block_atoms] remaining] | e] eqn:Hg.
      * exfalso. eapply (read_lines_bound (length remaining)); [| exact H].
        lia.
      * destruct (read_geometry_raises _ _ _ _ Hg) as [-> | ->];
          discriminate.
  - intros (first & rest & -> & [Hl | (second & rest' & -> & Hs)]).
    + destruct rest as [| next rest].
      * cbn. destruct (Nat.eqb_spec (length first) 1); [contradiction |].
        reflexivity.
      * rewrite read_lines_cons.
        destruct (Nat.eqb_spec (length first) 1); [contradiction |].
        reflexivity.
    + rewrite read_lines_cons, Hs.
      destruct (length first =? 1)%nat; reflexivity.
Qed.

Lemma atom_line_tokens (line : Line) (atom : string * list Float) :
  atom_line float line atom -> negb (length line =? 1)%nat = true.
Proof.
  intros [symbol numbers row Hn _].
  destruct numbers; [contradiction | reflexivity].
Qed.

(** The inner loop on the atom lines of a geometry, before the lines of
    the next geometry. *)
Lemma read_geometry_atom_lines (lines : list Line)
    (block : list (string * list Float)) (tail : list Line) :
  List.Forall2 (atom_line float) lines block ->
  (tail = [] \/ exists count tail', tail = [count] :: tail') ->
  forall coords atoms,
    read_geometry float (lines ++ tail) coords atoms
    = Ok (coords ++ map snd block, atoms ++ map fst block, tail).
Proof.
  intros Hlines Htail. induction Hlines as [| line atom lines block Hl _ IH];
    intros coords atoms.
  - cbn [app map]. rewrite !app_nil_r.
    destruct Htail as [-> | (count & tail' & ->)]; reflexivity.
  - cbn [app read_geometry]. rewrite (atom_line_tokens _ _ Hl).
    destruct Hl as [symbol numbers row _ Hrow]. rewrite Hrow, IH.
    cbn [map fst snd]. now rewrite <- !app_assoc.
Qed.

Lemma block_lines_concat (chunks : list (list Line))
    (blocks : list (Block Float)) :
  List.Forall2 (block_lines float) chunks blocks ->
  concat chunks = [] \/ exists count tail', concat chunks = [count] :: tail'.
Proof.
  intros [| chunk block chunks' blocks' Hb _]; [now left |].
  right. destruct Hb. cbn. eauto.
Qed.

Lemma read_lines_blocks (chunks : list (list Line))
    (blocks : list (Block Float)) :
  List.Forall2 (block_lines float) chunks blocks ->
  forall energy_line all_energies all_coords all_atoms,
    read_lines float (concat chunks) energy_line all_energies all_coords
               all_atoms
    = Ok (all_energies ++ map block_energy blocks,
          all_coords ++ map (fun b => map snd (block_atoms b)) blocks,
          all_atoms ++ map (fun b => map fst (block_atoms b)) blocks).
Proof.
  induction 1 as [| chunk block chunks blocks Hb Hrest IH];
    intros energy_line E C A.
  - cbn. now rewrite !app_nil_r.
  - destruct Hb as [count tag value more lines block Htag Hvalue Hlines].
    cbn [concat app]. rewrite read_lines_cons.
    cbn [length Nat.eqb startswith_energy]. rewrite Htag, Hvalue.
    rewrite (read_geometry_atom_lines _ _ _ Hlines
               (block_lines_concat _ _ Hrest)).
    rewrite IH. cbn [app map]. now rewrite <- !app_assoc.
Qed.


End EnergyCoordsFileProperties.

Lemma read_energy_coords_file_lines_witness :
  read_energy_coords_file log_float log_lines
  = Ok (map block_energy log_blocks,
        map (fun b => map snd (block_atoms b)) log_blocks,
        map (fun b => map fst (block_atoms b)) log_blocks)
  /\ length log_lines = (2 * 2 + list_sum [2; 2])%nat.
Proof.
  split; [reflexivity |].
  apply (proj2 (proj2 (proj2 (read_energy_coords_file_lines
                                Q log_float log_lines _ _ _ eq_refl)))).
Defined.


(** ** The conformer with the stereochemistry of the SMILES string *)

Section OptimizeProperties.

Variable Atoms : Type.
Variable get_simanl_atoms : nat -> Atoms.
Variable get_stereochemistry_from_xyz : Atoms -> StereoMol * list Centre.
Variable mol_with_stereo : StereoMol.
Variable involved_atoms : list Z.

Lemma stereo_loop_first_match (stereo : list Centre) (further : nat) :
  forall n k atoms embedded_mol,
    stereo_loop get_simanl_atoms get_stereochemistry_from_xyz stereo n
                further
    = (k, atoms, embedded_mol) ->
    (n <= k <= n + further)%nat
    /\ atoms = get_simanl_atoms k
    /\ embedded_mol = fst (get_stereochemistry_from_xyz atoms)
    /\ (forall m, (n <= m < k)%nat ->
                  stereochemistry_xyz get_simanl_atoms
                                      get_stereochemistry_from_xyz m
                  <> stereo)
    /\ (stereochemistry_xyz get_simanl_atoms get_stereochemistry_from_xyz k
        = stereo
        \/ k = (n + further)%nat).
Proof.
  induction further as [| further IH]; intros n k atoms embedded_mol H;
    cbn [stereo_loop] in H;
    destruct (get_stereochemistry_from_xyz (get_simanl_atoms n))
      as [mol found] eqn:Hn;
    destruct (bool_decide_reflect (stereo = found)) as [Heq | Hne].
  - inversion H; subst. rewrite Hn.
    split; [lia |]. split; [reflexivity |]. split; [reflexivity |].
    split; [intros m Hm; lia |].
    left. unfold stereochemistry_xyz. now rewrite Hn.
  - inversion H; subst. rewrite Hn.
    split; [lia |]. split; [reflexivity |]. split; [reflexivity |].
    split; [intros m Hm; lia |].
    right. lia.
  - inversion H; subst. rewrite Hn.
    split; [lia |]. split; [reflexivity |]. split; [reflexivity |].
    split; [intros m Hm; lia |].
    left. unfold stereochemistry_xyz. now rewrite Hn.
  - apply IH in H. destruct H as (Hk & Ha & He & Hbefore & Hlast).
    split; [lia |]. split; [exact Ha |]. split; [exact He |]. split.
    + intros m Hm. destruct (Nat.eq_dec m n) as [-> | Hmn].
      * unfold stereochemistry_xyz. rewrite Hn. cbn. congruence.
      * apply Hbefore. lia.
    + destruct Hlast as [Hl | Hl]; [now left | right; lia].
Qed.

(** [optimize_molecule_with_extra_constraints] tries the conformers
    0, 1, ... in turn and keeps the first one whose stereo centres are
    those of the SMILES string; when none of the hundred conformers has
    them it keeps conformer 99 and raises no error.  When the SMILES
    string has no stereo centre, the geometry of that conformer is kept as
    it is: no dihedral angle is set and nothing is raised, whatever double
    bonds the string marks.  Otherwise the outcome is that of
    [assign_cis_trans_from_geometry] on the molecule embedded from that
    conformer. *)
Theorem optimize_molecule_with_extra_constraints_conformer
    (stereo : list Centre) :
  exists n,
    (n <= 99)%nat
    /\ (forall m, (m < n)%nat ->
                  stereochemistry_xyz get_simanl_atoms
                                      get_stereochemistry_from_xyz m
                  <> stereo)
    /\ (stereochemistry_xyz get_simanl_atoms get_stereochemistry_from_xyz n
        = stereo
        \/ n = 99%nat)
    /\ (stereo = [] ->
        optimize_molecule_with_extra_constraints
          get_simanl_atoms get_stereochemistry_from_xyz mol_with_stereo
          involved_atoms stereo
        = Returns (n, simanl_geometry (get_simanl_atoms n)))
    /\ (stereo <> [] ->
        optimize_molecule_with_extra_constraints
          get_simanl_atoms get_stereochemistry_from_xyz mol_with_stereo
          involved_atoms stereo
        = match assign_cis_trans_from_geometry
                  (fst (get_stereochemistry_from_xyz (get_simanl_atoms n)))
                  mol_with_stereo involved_atoms with
          | Returns dihedrals =>
              Returns (n, assigned_geometry (get_simanl_atoms n) dihedrals)
          | Raises e => Raises e
          | RaisesKeyError => RaisesKeyError
          end).
Proof.
  unfold optimize_molecule_with_extra_constraints.
  destruct (stereo_loop get_simanl_atoms get_stereochemistry_from_xyz stereo
                        0 99) as [[n atoms] embedded_mol] eqn:Hloop.
  apply stereo_loop_first_match in Hloop.
  destruct Hloop as (Hn & -> & -> & Hbefore & Hlast).
  exists n. split; [lia |]. split; [intros m Hm; apply Hbefore; lia |].
  split; [exact Hlast |]. split.
  - intros ->. reflexivity.
  - intros Hs. destruct stereo; [contradiction | reflexivity].
Qed.

End OptimizeProperties.

Lemma optimize_molecule_with_extra_constraints_conformer_witness :
  optimize_molecule_with_extra_constraints
    (fun n => n) third_conformer_matches chain_with_stereo [1; 4]%Z
    [(1%nat, "R")]
  = Returns (2%nat, assigned_geometry 2%nat
                      [ {| atomi_idx := 0; atomj_idx := 1; atomk_idx := 2;
                           atoml_idx := 3; angle := 0 |} ])
  /\ exists n, (n <= 99)%nat.
Proof.
  split; [reflexivity |].
  destruct (optimize_molecule_with_extra_constraints_conformer
              nat (fun n => n) third_conformer_matches chain_with_stereo
              [1; 4]%Z [(1%nat, "R")]) as (n & Hn & _).
  exists n. exact Hn.
Defined.

(** ** Optimal distances of the active bonds *)

Lemma fold_insert_lookup (idx : nat) (map_num : Z) (mol : list Z) :
  forall d : gmap Z nat,
    fold_left (fun d m => <[m := idx]> d) mol d !! map_num
    = if decide (map_num ∈ mol) then Some idx else d !! map_num.
Proof.
  induction mol as [| m mol IH]; intros d; cbn [fold_left].
  - destruct (decide (map_num ∈ [])) as [Hin | _]; [| reflexivity].
    now apply elem_of_nil in Hin.
  - rewrite IH. destruct (decide (map_num ∈ mol)) as [Hin | Hin].
    + destruct (decide (map_num ∈ m :: mol)) as [_ | Hn]; [reflexivity |].
      destruct Hn. now apply elem_of_cons; right.
    + destruct (decide (map_num = m)) as [-> | Hne].
      * rewrite lookup_insert_eq.
        destruct (decide (m ∈ m :: mol)) as [_ | Hn]; [reflexivity |].
        destruct Hn. now apply elem_of_cons; left.
      * rewrite lookup_insert_ne by congruence.
        destruct (decide (map_num ∈ m :: mol)) as [Hc | _]; [| reflexivity].
        apply elem_of_cons in Hc. destruct Hc; contradiction.
Qed.

Lemma last_fragment_nil (map_num : Z) (f : nat) :
  ~ last_fragment [] map_num f.
Proof. intros [(mol & Hmol & _) _]. destruct f; discriminate. Qed.

Lemma last_fragment_S (mol : list Z) (mols : list (list Z)) (map_num : Z)
    (f : nat) :
  last_fragment (mol :: mols) map_num (S f) <-> last_fragment mols map_num f.
Proof.
  unfold last_fragment. split.
  - intros [Hin Hlater]. split; [exact Hin |].
    intros f' mol' Hf Hmol'. apply (Hlater (S f') mol'); [lia | exact Hmol'].
  - intros [Hin Hlater]. split; [exact Hin |].
    intros [| f'] mol' Hf Hmol'; [lia |].
    apply (Hlater f' mol'); [lia | exact Hmol'].
Qed.

Lemma last_fragment_O (mol : list Z) (mols : list (list Z)) (map_num : Z) :
  last_fragment (mol :: mols) map_num 0
  <-> In map_num mol
      /\ forall f mol', mols !! f = Some mol' -> ~ In map_num mol'.
Proof.
  unfold last_fragment. split.
  - intros [(mol0 & Hmol & Hin) Hlater]. inversion Hmol; subst mol0.
    split; [exact Hin |].
    intros f mol' Hmol'. apply (Hlater (S f) mol'); [lia | exact Hmol'].
  - intros [Hin Hnone]. split; [exists mol; split; [reflexivity | exact Hin] |].
    intros [| f'] mol' Hf Hmol'; [lia |]. apply (Hnone f' mol' Hmol').
Qed.

(** The dictionary maps a map number to its last fragment. *)
Lemma owning_mol_loop_lookup (mols : list (list Z)) (map_num : Z) (f : nat) :
  forall idx (d : gmap Z nat),
    owning_mol_loop idx mols d !! map_num = Some f
    <-> (exists k, f = (idx + k)%nat /\ last_fragment mols map_num k)
        \/ ((forall k mol, mols !! k = Some mol -> ~ In map_num mol)
            /\ d !! map_num = Some f).
Proof.
  induction mols as [| mol mols IH]; intros idx d; cbn [owning_mol_loop].
  - split.
    + intros H. right. split; [| exact H]. intros k mol Hk. discriminate.
    + intros [(k & _ & Hl) | [_ H]]; [| exact H].
      now apply last_fragment_nil in Hl.
  - rewrite IH, fold_insert_lookup. split.
    + intros [(k & -> & Hl) | [Hnone Hd]].
      * left. exists (S k). split; [lia |]. now apply last_fragment_S.
      * destruct (decide (map_num ∈ mol)) as [Hin | Hin].
        -- left. exists 0%nat. inversion Hd; subst f. split; [lia |].
           apply last_fragment_O. split; [| exact Hnone].
           now apply list_elem_of_In.
        -- right. split; [| exact Hd].
           intros [| k] mol' Hk; [| apply (Hnone k mol' Hk)].
           inversion Hk; subst mol'. intros Hc. apply Hin.
           now apply list_elem_of_In.
    + intros [(k & -> & Hl) | [Hnone Hd]].
      * destruct k as [| k].
        -- apply last_fragment_O in Hl. destruct Hl as [Hin Hnone].
           right. split; [exact Hnone |].
           destruct (decide (map_num ∈ mol)) as [_ | Hn];
             [f_equal; lia |].
           destruct Hn. now apply list_elem_of_In.
        -- left. exists k. split; [lia |]. now apply last_fragment_S in Hl.
      * right. split; [intros k mol' Hk; apply (Hnone (S k) mol' Hk) |].
        destruct (decide (map_num ∈ mol)) as [Hin | _]; [| exact Hd].
        destruct (Hnone 0%nat mol eq_refl). now apply list_elem_of_In.
Qed.

Lemma owning_mol_dict_last_fragment (mols : list (list Z)) (map_num : Z)
    (f : nat) :
  owning_mol_dict mols !! map_num = Some f <-> last_fragment mols map_num f.
Proof.
  unfold owning_mol_dict. rewrite owning_mol_loop_lookup. split.
  - intros [(k & -> & Hl) | [_ Hd]]; [exact Hl |].
    rewrite lookup_empty in Hd. discriminate.
  - intros Hl. left. exists f. split; [reflexivity | exact Hl].
Qed.

Lemma mol_dict_loop_in (map_num : Z) (mol : list Z) :
  forall idx (d : gmap Z nat),
    In map_num mol \/ is_Some (d !! map_num) ->
    is_Some (mol_dict_loop idx mol d !! map_num).
Proof.
  induction mol as [| m mol IH]; intros idx d H; cbn [mol_dict_loop].
  - destruct H as [[] | H]; exact H.
  - apply IH. destruct H as [[-> | Hin] | Hd].
    + right. rewrite lookup_insert_eq. eauto.
    + now left.
    + right. destruct (decide (m = map_num)) as [-> | Hne].
      * rewrite lookup_insert_eq. eauto.
      * now rewrite lookup_insert_ne.
Qed.

Section OptimalDistancesProperties.

Variable int : string -> option Z.
Variable current_bond_length : nat -> list Z -> nat -> nat -> Q.
Variable mols : list (list Z).
Variable mapnum_dict : gmap Z nat.

(** A turn of the loop on a bond string that [int] can read: a distance
    is stored under the two indices of [mapnum_dict], or KeyError is
    raised. *)
Lemma optimal_distance_body_parsed (turn : nat) (bond : string) (i j : Z)
    (optimal_distances : gmap (nat * nat) Q) :
  parse_bond int bond = Ok (i, j) ->
  (bond_in_fragment int mols mapnum_dict bond
   /\ exists idx1 idx2 value,
       mapnum_dict !! i = Some idx1 /\ mapnum_dict !! j = Some idx2
       /\ optimal_distance_body int current_bond_length mols mapnum_dict
                                (owning_mol_dict mols) turn bond
                                optimal_distances
          = Returns (<[(idx1, idx2) := value]> optimal_distances))
  \/ (~ bond_in_fragment int mols mapnum_dict bond
      /\ optimal_distance_body int current_bond_length mols mapnum_dict
                               (owning_mol_dict mols) turn bond
                               optimal_distances
         = RaisesKeyError).
Proof.
  intros Hparse. unfold optimal_distance_body. rewrite Hparse.
  assert (Hno : forall P : Prop,
             (forall f, is_Some (mapnum_dict !! i) ->
                        is_Some (mapnum_dict !! j) ->
                        last_fragment mols i f -> last_fragment mols j f ->
                        P) ->
             bond_in_fragment int mols mapnum_dict bond -> P).
  { intros P HP (i' & j' & f & Hp & Hi & Hj & Hfi & Hfj).
    rewrite Hparse in Hp. inversion Hp; subst i' j'. eapply HP; eauto. }
  destruct (mapnum_dict !! i) as [idx1 |] eqn:Hi.
  2: { right. split; [| reflexivity].
       intros Hb; apply (Hno False); [| exact Hb]; intros f [x Hx] _ _ _. discriminate Hx. }
  destruct (mapnum_dict !! j) as [idx2 |] eqn:Hj.
  2: { right. split; [| reflexivity].
       intros Hb; apply (Hno False); [| exact Hb]; intros f _ [x Hx] _ _. discriminate Hx. }
  destruct (owning_mol_dict mols !! i) as [owner_i |] eqn:Hoi.
  2: { right. split; [| reflexivity].
       intros Hb; apply (Hno False); [| exact Hb]; intros f _ _ Hfi _.
       apply owning_mol_dict_last_fragment in Hfi. congruence. }
  destruct (owning_mol_dict mols !! j) as [owner_j |] eqn:Hoj.
  2: { right. split; [| reflexivity].
       intros Hb; apply (Hno False); [| exact Hb]; intros f _ _ _ Hfj.
       apply owning_mol_dict_last_fragment in Hfj. congruence. }
  destruct (Nat.eqb_spec owner_i owner_j) as [<- | Hne].
  2: { right. split; [| reflexivity].
       intros Hb; apply (Hno False); [| exact Hb]; intros f _ _ Hfi Hfj.
       apply owning_mol_dict_last_fragment in Hfi, Hfj. congruence. }
  apply owning_mol_dict_last_fragment in Hoi, Hoj.
  destruct (proj1 Hoi) as (mol & Hmol & Hini).
  destruct (proj1 Hoj) as (mol' & Hmol' & Hinj).
  rewrite Hmol in Hmol'. inversion Hmol'; subst mol'. rewrite Hmol.
  destruct (mol_dict_loop_in i mol 0 ∅ (or_introl Hini)) as [a Ha].
  destruct (mol_dict_loop_in j mol 0 ∅ (or_introl Hinj)) as [b Hb].
  unfold mol_dict. rewrite Ha, Hb. left. split.
  - exists i, j, owner_i. rewrite Hi, Hj.
    split; [exact Hparse |]. split; [eauto |]. split; [eauto |].
    split; [exact Hoi | exact Hoj].
  - exists idx1, idx2, (current_bond_length turn mol a b). auto.
Qed.

Lemma optimal_distance_body_unparsed (turn : nat) (bond : string) (e : exn)
    (optimal_distances : gmap (nat * nat) Q) :
  parse_bond int bond = Raise e ->
  ~ bond_in_fragment int mols mapnum_dict bond
  /\ optimal_distance_body int current_bond_length mols mapnum_dict
                           (owning_mol_dict mols) turn bond optimal_distances
     = Raises e.
Proof.
  intros Hparse. split.
  - intros (i & j & f & Hp & _). congruence.
  - unfold optimal_distance_body. now rewrite Hparse.
Qed.

Lemma optimal_distances_loop_returns (bonds : list string) :
  forall turn optimal_distances,
    (exists d,
        optimal_distances_loop int current_bond_length mols mapnum_dict
                               (owning_mol_dict mols) turn bonds
                               optimal_distances
        = Returns d)
    <-> Forall (bond_in_fragment int mols mapnum_dict) bonds.
Proof.
  induction bonds as [| bond bonds IH]; intros turn acc;
    cbn [optimal_distances_loop].
  - split; [constructor | eauto].
  - destruct (parse_bond int bond) as [[i j] | e] eqn:Hparse.
    + destruct (optimal_distance_body_parsed turn bond i j acc Hparse)
        as [(Hin & idx1 & idx2 & value & _ & _ & ->) | (Hout & ->)].
      * rewrite IH. split; [now constructor |].
        intros H. now inversion H.
      * split; [intros (d & Hd); discriminate |].
        intros H. inversion H; contradiction.
    + destruct (optimal_distance_body_unparsed turn bond e acc Hparse)
        as [Hout ->].
      split; [intros (d & Hd); discriminate |].
      intros H. inversion H; contradiction.
Qed.

Lemma optimal_distances_loop_key_error (bonds : list string) :
  forall turn optimal_distances,
    Forall (fun bond => exists i j, parse_bond int bond = Ok (i, j)) bonds ->
    ~ Forall (bond_in_fragment int mols mapnum_dict) bonds ->
    optimal_distances_loop int current_bond_length mols mapnum_dict
                           (owning_mol_dict mols) turn bonds optimal_distances
    = RaisesKeyError.
Proof.
  induction bonds as [| bond bonds IH]; intros turn acc Hparsed Hnot;
    cbn [optimal_distances_loop].
  - destruct Hnot. constructor.
  - inversion Hparsed as [| ? ? (i & j & Hparse) Hrest]; subst.
    destruct (optimal_distance_body_parsed turn bond i j acc Hparse)
      as [(Hin & idx1 & idx2 & value & _ & _ & ->) | (Hout & ->)];
      [| reflexivity].
    apply IH; [exact Hrest |].
    intros Hall. apply Hnot. now constructor.
Qed.

Lemma optimal_distances_loop_keys (bonds : list string) :
  forall turn optimal_distances d,
    optimal_distances_loop int current_bond_length mols mapnum_dict
                           (owning_mol_dict mols) turn bonds optimal_distances
    = Returns d ->
    forall idx1 idx2,
      is_Some (d !! (idx1, idx2))
      <-> is_Some (optimal_distances !! (idx1, idx2))
          \/ exists bond i j,
              In bond bonds /\ parse_bond int bond = Ok (i, j)
              /\ mapnum_dict !! i = Some idx1
              /\ mapnum_dict !! j = Some idx2.
Proof.
  induction bonds as [| bond bonds IH]; intros turn acc d H idx1 idx2;
    cbn [optimal_distances_loop] in H.
  - inversion H; subst. split; [now left |].
    intros [Hs | (bond & i & j & [] & _)]. exact Hs.
  - destruct (parse_bond int bond) as [[i j] | e] eqn:Hparse.
    2: { destruct (optimal_distance_body_unparsed turn bond e acc Hparse)
           as [_ Hb]. rewrite Hb in H. discriminate. }
    destruct (optimal_distance_body_parsed turn bond i j acc Hparse)
      as [(_ & k1 & k2 & value & Hk1 & Hk2 & Hb) | (_ & Hb)];
      rewrite Hb in H; [| discriminate].
    rewrite (IH _ _ _ H). split.
    + intros [Hs | (bond' & i' & j' & Hin & Hrest)].
      * destruct (decide ((k1, k2) = (idx1, idx2))) as [Heq | Hne].
        -- inversion Heq; subst. right. exists bond, i, j.
           split; [now left | auto].
        -- left. now rewrite lookup_insert_ne in Hs.
      * right. exists bond', i', j'. split; [now right | exact Hrest].
    + intros [Hs | (bond' & i' & j' & [<- | Hin] & Hp & Hi & Hj)].
      * left. destruct (decide ((k1, k2) = (idx1, idx2))) as [Heq | Hne].
        -- rewrite Heq, lookup_insert_eq. eauto.
        -- now rewrite lookup_insert_ne.
      * left. rewrite Hparse in Hp. inversion Hp; subst i' j'.
        assert (k1 = idx1) by congruence. assert (k2 = idx2) by congruence.
        subst. rewrite lookup_insert_eq. eauto.
      * right. exists bond', i', j'. auto.
Qed.

(** [get_optimal_distances] returns a dictionary exactly when every
    bond string names two map numbers that [mapnum_dict] knows and that
    lie in the same fragment of the SMILES string (for a map number in
    several fragments, the last one counts).  When [int] reads every bond
    string and one of them does not meet this condition, for instance
    because its two atoms lie in different fragments, KeyError is
    raised. *)
Theorem get_optimal_distances_outcomes (bonds : list string) :
  ((exists d,
       get_optimal_distances int current_bond_length mols mapnum_dict bonds
       = Returns d)
   <-> Forall (bond_in_fragment int mols mapnum_dict) bonds)
  /\ (Forall (fun bond => exists i j, parse_bond int bond = Ok (i, j)) bonds ->
      ~ Forall (bond_in_fragment int mols mapnum_dict) bonds ->
      get_optimal_distances int current_bond_length mols mapnum_dict bonds
      = RaisesKeyError).
Proof.
  unfold get_optimal_distances. split.
  - apply optimal_distances_loop_returns.
  - apply optimal_distances_loop_key_error.
Qed.

(** The dictionary that [get_optimal_distances] returns has a
    distance under the pair [(idx1, idx2)] exactly when a bond string
    names map numbers [i] and [j], in this order, that [mapnum_dict] maps
    to [idx1] and [idx2]: the keys are indices of the molecule of
    [mapnum_dict], not of the fragment that was optimised. *)
Theorem get_optimal_distances_keys (bonds : list string)
    (d : gmap (nat * nat) Q) :
  get_optimal_distances int current_bond_length mols mapnum_dict bonds
  = Returns d ->
  forall idx1 idx2,
    is_Some (d !! (idx1, idx2))
    <-> exists bond i j,
         In bond bonds /\ parse_bond int bond = Ok (i, j)
         /\ mapnum_dict !! i = Some idx1 /\ mapnum_dict !! j = Some idx2.
Proof.
  unfold get_optimal_distances. intros H idx1 idx2.
  rewrite (optimal_distances_loop_keys _ _ _ _ H idx1 idx2).
  rewrite lookup_empty. split; [| now right].
  intros [[x Hx] | Hr]; [discriminate | exact Hr].
Qed.

End OptimalDistancesProperties.

Lemma get_optimal_distances_outcomes_witness :
  get_optimal_distances small_int (fun _ _ _ _ => 1%Q) two_fragments
                        three_atoms ["1-3-1"]
  = RaisesKeyError.
Proof.
  apply (proj2 (get_optimal_distances_outcomes
                  small_int (fun _ _ _ _ => 1%Q) two_fragments three_atoms
                  ["1-3-1"])).
  - repeat constructor. exists 1%Z, 3%Z. reflexivity.
  - intros H. inversion H as [| ? ? (i & j & f & Hp & _ & _ & Hi & Hj) _].
    vm_compute in Hp. inversion Hp; subst i j.
    apply owning_mol_dict_last_fragment in Hi, Hj.
    vm_compute in Hi, Hj. congruence.
Defined.


Lemma get_optimal_distances_keys_witness :
  exists bond i j,
    In bond ["1-2-1"] /\ parse_bond small_int bond = Ok (i, j)
    /\ three_atoms !! i = Some 0%nat /\ three_atoms !! j = Some 1%nat.
Proof.
  apply (proj1 (get_optimal_distances_keys
                  small_int (fun _ _ _ _ => 1%Q) two_fragments three_atoms
                  ["1-2-1"] (<[(0%nat, 1%nat) := 1%Q]> ∅) eq_refl
                  0%nat 1%nat)).
  exists 1%Q. reflexivity.
Defined.

(** The decimal numeral of a number that is not negative has no dash. *)
Lemma pretty_N_go_no_dash (x : N) :
  forall s, occurs "-"%char s = false ->
            occurs "-"%char (pretty_N_go x s) = false.
Proof.
  induction (N.lt_wf_0 x) as [x _ IH]; intros s Hs.
  assert (x = 0 \/ 0 < x)%N as [-> | Hx] by lia.
  - now rewrite pretty_N_go_0.
  - rewrite pretty_N_go_step by assumption. apply IH.
    + now apply N.div_lt.
    + cbn [occurs]. rewrite Hs, orb_false_r.
      unfold pretty_N_char. repeat case_match; reflexivity.
Qed.

Lemma pretty_Z_no_dash (z : Z) :
  (0 <= z)%Z -> occurs "-"%char (pretty z) = false.
Proof.
  intros Hz. destruct z as [| p | p]; [reflexivity | | lia].
  unfold pretty, pretty_Z, pretty, pretty_positive, pretty, pretty_N.
  destruct (decide (N.pos p = 0%N)); [reflexivity |].
  now apply pretty_N_go_no_dash.
Qed.

Lemma split_on_append (sep : Ascii.ascii) (piece rest : string) :
  occurs sep piece = false ->
  split_on sep (piece +:+ String sep rest) = piece :: split_on sep rest.
Proof.
  induction piece as [| c piece IH]; intros H.
  - change ("" +:+ String sep rest) with (String sep rest).
    cbn [split_on]. now rewrite Ascii.eqb_refl.
  - change (String c piece +:+ String sep rest)
      with (String c (piece +:+ String sep rest)).
    cbn [split_on occurs] in *.
    apply orb_false_iff in H. destruct H as [Hc Hp].
    rewrite Hc, (IH Hp). reflexivity.
Qed.

Lemma split_on_whole (sep : Ascii.ascii) (piece : string) :
  occurs sep piece = false -> split_on sep piece = [piece].
Proof.
  induction piece as [| c piece IH]; cbn [split_on occurs]; intros H;
    [reflexivity |].
  apply orb_false_iff in H. destruct H as [Hc Hp].
  rewrite Hc, (IH Hp). reflexivity.
Qed.

Lemma parse_bond_string (int : string -> option Z) (a b n : Z) :
  (0 <= a)%Z -> (0 <= b)%Z -> (0 <= n)%Z ->
  int (pretty a) = Some a -> int (pretty b) = Some b ->
  int (pretty n) = Some n ->
  parse_bond int (bond_string a b n) = Ok (a, b).
Proof.
  intros Ha Hb Hn Hia Hib Hin. unfold parse_bond, bond_string.
  change ("-" +:+ pretty b +:+ "-" +:+ pretty n)
    with (String "-"%char (pretty b +:+ String "-"%char (pretty n))).
  rewrite !split_on_append, split_on_whole by now apply pretty_Z_no_dash.
  now rewrite Hia, Hib, Hin.
Qed.

(** The bond strings that [get_bonds] makes are read back by
    [get_optimal_distances]: for a bond between atoms whose map numbers
    are not negative, [i] is the smaller and [j] the larger of the two
    map numbers, provided [int] reads the decimal numerals of the two map
    numbers and of the bond order. *)
Theorem parse_bond_descriptor (int : string -> option Z) (bond : Bond) :
  (0 <= GetAtomMapNum (GetBeginAtom bond))%Z ->
  (0 <= GetAtomMapNum (GetEndAtom bond))%Z ->
  (0 <= py_round (GetBondTypeAsDouble bond))%Z ->
  int (pretty (GetAtomMapNum (GetBeginAtom bond)))
  = Some (GetAtomMapNum (GetBeginAtom bond)) ->
  int (pretty (GetAtomMapNum (GetEndAtom bond)))
  = Some (GetAtomMapNum (GetEndAtom bond)) ->
  int (pretty (py_round (GetBondTypeAsDouble bond)))
  = Some (py_round (GetBondTypeAsDouble bond)) ->
  parse_bond int (bond_descriptor bond)
  = Ok (Z.min (GetAtomMapNum (GetBeginAtom bond))
              (GetAtomMapNum (GetEndAtom bond)),
        Z.max (GetAtomMapNum (GetBeginAtom bond))
              (GetAtomMapNum (GetEndAtom bond))).
Proof.
  intros Ha Hb Hn Hia Hib Hin. unfold bond_descriptor. cbv zeta.
  destruct (Z.ltb_spec (GetAtomMapNum (GetBeginAtom bond))
                       (GetAtomMapNum (GetEndAtom bond))) as [Hlt | Hge].
  - rewrite Z.min_l, Z.max_r by lia. now apply parse_bond_string.
  - rewrite Z.min_r, Z.max_l by lia. now apply parse_bond_string.
Qed.

Lemma parse_bond_descriptor_witness :
  parse_bond small_int
    (bond_descriptor {| GetBeginAtom := {| GetAtomMapNum := 2 |};
                        GetEndAtom := {| GetAtomMapNum := 1 |};
                        GetBondTypeAsDouble := 1 |})
  = Ok (1%Z, 2%Z).
Proof.
  apply (parse_bond_descriptor small_int
           {| GetBeginAtom := {| GetAtomMapNum := 2 |};
              GetEndAtom := {| GetAtomMapNum := 1 |};
              GetBondTypeAsDouble := 1 |});
    first [reflexivity | vm_compute; discriminate].
Defined.

(** ** Conformers that are all alike, or all different *)

Section ClusteringExtremes.

Variable GetBestRMS : nat -> nat -> Q.

Lemma rmsd_matrix_earlier (n i j : nat) :
  (j < i)%nat -> (i < n)%nat ->
  rmsd_matrix GetBestRMS n i j = GetBestRMS j i.
Proof.
  intros Hji Hin.
  exact (proj2 (proj1 (rmsd_matrix_entries GetBestRMS n j i) Hji Hin)).
Qed.

Lemma clusters_after_all_close (n k : nat) :
  (forall i j, (i < j)%nat -> (j < n)%nat -> (GetBestRMS i j < 0.5)%Q) ->
  (S k <= n)%nat ->
  clusters_after (rmsd_matrix GetBestRMS n) (S k) = [range 0 (S k)].
Proof.
  intros Hclose. induction k as [| k IH]; intros Hk.
  - reflexivity.
  - rewrite clusters_after_S, IH by lia.
    unfold cluster_step. cbn [find_cluster].
    assert (Hall : all_close (rmsd_matrix GetBestRMS n) (S k)
                             (range 0 (S k)) = true).
    { apply all_close_true. intros j Hj. apply in_seq in Hj.
      rewrite rmsd_matrix_earlier by lia. apply Hclose; lia. }
    rewrite Hall. unfold range. f_equal.
    rewrite !Nat.sub_0_r. now rewrite (seq_S (S k) 0).
Qed.

Lemma find_cluster_singletons (m : Matrix) (i : nat) (js : list nat) :
  (forall j, In j js -> (0.5 <= m i j)%Q) ->
  find_cluster m i (map (fun j => [j]) js) = None.
Proof.
  intros Hfar. induction js as [| j js IH]; [reflexivity |].
  cbn [map find_cluster].
  assert (Hj : all_close m i [j] = false).
  { unfold all_close. cbn [forallb]. rewrite andb_true_r.
    apply Qltb_false. apply Hfar. now left. }
  rewrite Hj, IH; [reflexivity |].
  intros j' Hj'. apply Hfar. now right.
Qed.

Lemma clusters_after_all_far (n k : nat) :
  (forall i j, (i < j)%nat -> (j < n)%nat -> (0.5 <= GetBestRMS i j)%Q) ->
  (k <= n)%nat ->
  clusters_after (rmsd_matrix GetBestRMS n) k
  = map (fun j => [j]) (range 0 k).
Proof.
  intros Hfar. induction k as [| k IH]; intros Hk.
  - reflexivity.
  - rewrite clusters_after_S, IH by lia.
    unfold cluster_step. rewrite find_cluster_singletons.
    + unfold range. rewrite !Nat.sub_0_r, (seq_S k 0), map_app.
      reflexivity.
    + intros j Hj. apply in_seq in Hj.
      rewrite rmsd_matrix_earlier by lia. apply Hfar; lia.
Qed.

Lemma representatives_singletons {A} (files : list A) (k : nat) :
  (k <= length files)%nat ->
  representatives files (map (fun j => [j]) (range 0 k))
  = Ok (firstn k files).
Proof.
  induction k as [| k IH]; intros Hk; [reflexivity |].
  unfold range in *. rewrite !Nat.sub_0_r in *.
  rewrite (seq_S k 0), map_app. cbn [map Nat.add].
  assert (Happ : forall (c1 c2 : list (list nat)) (r1 r2 : list A),
             representatives files c1 = Ok r1 ->
             representatives files c2 = Ok r2 ->
             representatives files (c1 ++ c2) = Ok (r1 ++ r2)).
  { induction c1 as [| c c1 IHc]; intros c2 r1 r2 H1 H2; cbn in *.
    - inversion H1; subst. exact H2.
    - destruct (getitem c 0) as [first | e]; cbn in *; [| discriminate].
      destruct (getitem files first) as [file | e]; cbn in *;
        [| discriminate].
      destruct (representatives files c1) as [r | e] eqn:Hr; cbn in *;
        [| discriminate].
      inversion H1; subst. rewrite (IHc c2 r r2 eq_refl H2). reflexivity. }
  destruct (nth_error files k) as [file |] eqn:Hfile.
  2: { apply nth_error_None in Hfile. lia. }
  rewrite (Happ _ [[k]] (firstn k files) [file]).
  - f_equal. clear IH Hk Happ. revert k Hfile.
    induction files as [| f files IHf]; intros k Hfile.
    + destruct k; discriminate.
    + destruct k as [| k]; cbn in *.
      * inversion Hfile; subst. reflexivity.
      * f_equal. apply IHf. exact Hfile.
  - apply IH. lia.
  - cbn. unfold getitem at 1. cbn.
    unfold getitem. rewrite Hfile. reflexivity.
Qed.

Lemma count_unique_conformers_all_close (n : nat) :
  (forall i j, (i < j)%nat -> (j < S n)%nat -> (GetBestRMS i j < 0.5)%Q) ->
  count_unique_conformers GetBestRMS (S n) = [range 0 (S n)].
Proof.
  intros H. unfold count_unique_conformers.
  apply clusters_after_all_close; [exact H | lia].
Qed.

Lemma generate_additional_conformers_all_close {A} (file : A)
    (files : list A) :
  (forall i j, (i < j)%nat -> (j < length (file :: files))%nat ->
               (GetBestRMS i j < 0.5)%Q) ->
  generate_additional_conformers GetBestRMS (file :: files) = Ok [file].
Proof.
  intros H. unfold generate_additional_conformers. cbv zeta.
  cbn [length] in *. rewrite (count_unique_conformers_all_close _ H).
  reflexivity.
Qed.

(** The two extremes of the clustering.  When every two conformers
    are closer than 0.5, [count_unique_conformers] puts all of them into
    one cluster and [generate_additional_conformers] keeps the first file
    only; when no two conformers are closer than 0.5, every conformer is a
    cluster of its own and every file is kept, in the order given. *)
Theorem generate_additional_conformers_extremes {A} (file : A)
    (files : list A) :
  ((forall i j, (i < j)%nat -> (j < length (file :: files))%nat ->
                (GetBestRMS i j < 0.5)%Q) ->
   count_unique_conformers GetBestRMS (length (file :: files))
   = [range 0 (length (file :: files))]
   /\ generate_additional_conformers GetBestRMS (file :: files)
      = Ok [file])
  /\ ((forall i j, (i < j)%nat -> (j < length (file :: files))%nat ->
                   (0.5 <= GetBestRMS i j)%Q) ->
      count_unique_conformers GetBestRMS (length (file :: files))
      = map (fun j => [j]) (range 0 (length (file :: files)))
      /\ generate_additional_conformers GetBestRMS (file :: files)
         = Ok (file :: files)).
Proof.
  split; intros H.
  - split.
    + cbn [length] in *. now apply count_unique_conformers_all_close.
    + now apply generate_additional_conformers_all_close.
  - assert (Hc : count_unique_conformers GetBestRMS (length (file :: files))
                 = map (fun j => [j]) (range 0 (length (file :: files)))).
    { unfold count_unique_conformers.
      apply clusters_after_all_far; [exact H | lia]. }
    split; [exact Hc |].
    unfold generate_additional_conformers. cbv zeta. rewrite Hc.
    rewrite representatives_singletons by lia.
    now rewrite firstn_all.
Qed.

End ClusteringExtremes.

Lemma generate_additional_conformers_extremes_witness :
  generate_additional_conformers (fun _ _ => 0%Q) ["a"; "b"; "c"]
  = Ok ["a"].
Proof.
  apply (proj1 (generate_additional_conformers_extremes
                  (fun _ _ => 0%Q) "a" ["b"; "c"])).
  intros i j _ _. reflexivity.
Defined.

(** ** The engine loop of the additional conformers *)

Section AdditionalConformersProperties.

Variables Atoms OptimizedGeometry : Type.
Variable get_simanl_atoms : nat -> nat -> Atoms.
Variable xtb_optimize : nat -> Atoms -> OptimizedGeometry.
Variable GetBestRMS_of : OptimizedGeometry -> OptimizedGeometry -> Q.

(** Every turn of the loop of [generate_additional_conformers] asks
    for the conformer [conf_n = n_conf], not for the conformer of the
    turn.  So when [get_simanl_atoms] and [xtb_optimize] give the same
    result for the same arguments in every turn, and a geometry is closer
    than 0.5 to itself, all input files hold the same atoms and the
    function returns one conformer, [conformer_0_optimized.xyz], whatever
    [n_conf] is. *)
Theorem generate_additional_conformers_run_single (n_conf : nat) :
  (forall turn turn' conf_n,
      get_simanl_atoms turn conf_n = get_simanl_atoms turn' conf_n) ->
  (forall turn turn' atoms,
      xtb_optimize turn atoms = xtb_optimize turn' atoms) ->
  (forall geometry, (GetBestRMS_of geometry geometry < 0.5)%Q) ->
  (0 < n_conf)%nat ->
  (forall run,
      In run (conformer_loop get_simanl_atoms xtb_optimize n_conf) ->
      fst (snd run) = get_simanl_atoms 0%nat n_conf)
  /\ generate_additional_conformers_run get_simanl_atoms xtb_optimize
                                        GetBestRMS_of n_conf
     = Ok [0%nat].
Proof.
  intros Hatoms Hxtb Hself Hn.
  assert (Hturn : forall n,
             conformer_turn get_simanl_atoms xtb_optimize n_conf n
             = conformer_turn get_simanl_atoms xtb_optimize n_conf 0).
  { intros n. unfold conformer_turn. cbv zeta.
    rewrite (Hatoms n 0%nat), (Hxtb n 0%nat). reflexivity. }
  split.
  - intros run Hrun. unfold conformer_loop in Hrun.
    apply in_map_iff in Hrun. destruct Hrun as (n & <- & _).
    cbn [snd]. rewrite Hturn. reflexivity.
  - unfold generate_additional_conformers_run, conformer_loop.
    rewrite map_map. cbn [fst]. rewrite map_id.
    destruct n_conf as [| n]; [lia |].
    change (range 0 (S n)) with (0%nat :: seq 1 n).
    apply generate_additional_conformers_all_close.
    intros i j _ _. unfold conformer_rms. rewrite (Hturn i), (Hturn j).
    apply Hself.
Qed.

End AdditionalConformersProperties.

Lemma generate_additional_conformers_run_single_witness :
  generate_additional_conformers_run
    (fun _ conf_n => conf_n) (fun _ atoms => atoms)
    (fun a b => if (a =? b)%nat then 0%Q else 1%Q) 5
  = Ok [0%nat].
Proof.
  apply (generate_additional_conformers_run_single
           nat nat (fun _ conf_n => conf_n) (fun _ atoms => atoms)
           (fun a b => if (a =? b)%nat then 0%Q else 1%Q) 5).
  - reflexivity.
  - reflexivity.
  - intros g. rewrite Nat.eqb_refl. reflexivity.
  - lia.
Defined.
